(** * A shallow embedding of [sudoku.py] (class [Sudoku]) and its properties.

    The Python class keeps an N x N numpy integer array [grid] (0 = empty
    cell), the block shape [m] x [n] with [N = m * n], and a lazily built
    dictionary [poss] from cell coordinates to the set of values still
    possible there.  [solve] repeats passes of the "only place for a value"
    rule over every row, column and region until a pass changes nothing.

    Modelling choices.
    - Coordinates are naturals: every coordinate the class produces comes
      from [range]; Python's negative (wrap-around) indices are outside the
      model.  Grid entries are integers ([Z]); the array has dtype int
      (64 bits), and storing a value outside that range raises
      [OverflowError], which the model leaves out: what is said of [set]
      for arbitrary values is said of the values that fit ([int64]).
    - A numpy array is its shape together with its row-major buffer.
    - A Python [set] of small integers is the list of its elements, in
      ascending order for [set(range(1, N+1))], removing elements keeping
      the order of the remaining ones.  The order in which CPython iterates
      a set depends on the history of its hash table ([discard] keeps it,
      [-=] may rebuild the table), so the list order stands for one
      iteration order only: the properties are about the members of the
      sets, or take the order of the stored sets as it is found.
    - A Python [dict] whose iteration order matters ([found] and the result
      of [only_in_range]) is an insertion-ordered association list; the
      dictionary [poss], which is only ever indexed, is a [gmap].
    - Methods are computations in a state-and-exception monad over the
      object [self]; a generator consumed by a [for] loop is a fold that runs
      the loop body at each [yield], so that the body's mutations are seen
      by the rest of the generator, as in Python. *)

From Stdlib Require Import ZArith Lia.
From stdpp Require Import numbers strings gmap fin_maps list.

Local Open Scope Z_scope.
Local Open Scope nat_scope.

(** ** Python values and exceptions *)

Definition cell : Type := nat * nat.

(** A numpy array: shape and row-major data. *)
Record ndarray := NdArray { shape : list nat; data : list Z }.

(** What a positional or keyword argument of [Sudoku(...)] can be: an
    integer, something [numpy.array(_, dtype=int)] accepts (given as the
    array it yields), or anything else. *)
Inductive pyobj :=
| PyInt (z : Z)
| PyArray (a : ndarray)
| PyOther.

(** The [ValueError]s of [__init__], by the place that raises them. *)
Inductive reason :=
| MSpecifiedTwice
| TooManyIntegers
| UnrecognizedPositional
| NotPositiveInteger (param : string)
| GridNotArray
| GridNotSquare
| GridNotSquareTotal
| GridNotTwoDimensional
| SizeDiffers
| SizeNotProduct
| SizeOrGridMissing.

(** The constant part of the message of each. *)
Definition message (r : reason) : string :=
  match r with
  | MSpecifiedTwice =>
      "Parameter m specified twice, as positional and as keyword argument!"
  | TooManyIntegers => "Too many integer parameters"
  | UnrecognizedPositional => "Unrecognized positional argument"
  | NotPositiveInteger _ => "must be an positive integer"
  | GridNotArray =>
      "Parameter 'grid' must be an object suitable for numpy.array() with dtype = int."
  | GridNotSquare => "The grid must be a square matrix."
  | GridNotSquareTotal => "A sudoku grid must be square"
  | GridNotTwoDimensional => "The sudoku grid must be 2-dimensional."
  | SizeDiffers =>
      "The given size N = m*n is different from the given grid's size!"
  | SizeNotProduct => "of the given grid can't be written as m*n!"
  | SizeOrGridMissing => "Either the size or the grid must be given."
  end.

Inductive exn :=
| ValueError (why : reason)
| AssertionError
| IndexError
| KeyError
| AttributeError.

(** The object: the attributes [self.N], [self.m], [self.n], [self.grid]
    set by [__init__], and [self.poss], absent until [make_poss_dict]. *)
Record Sudoku := MkSudoku {
  self_N : nat;
  self_m : nat;
  self_n : nat;
  self_grid : ndarray;
  self_poss : option (gmap cell (list Z))
}.

Definition with_grid (s : Sudoku) (g : ndarray) : Sudoku :=
  MkSudoku (self_N s) (self_m s) (self_n s) g (self_poss s).

Definition with_poss (s : Sudoku) (p : gmap cell (list Z)) : Sudoku :=
  MkSudoku (self_N s) (self_m s) (self_n s) (self_grid s) (Some p).

(** ** The monad of methods: state [self], exceptions [exn].
    The state reached when an exception is raised is kept, as in Python. *)

Definition M (A : Type) : Type := Sudoku → (exn + A) * Sudoku.

Definition ret {A} (a : A) : M A := λ s, (inr a, s).
Definition raise {A} (e : exn) : M A := λ s, (inl e, s).
Definition bind {A B} (c : M A) (k : A → M B) : M B :=
  λ s, match c s with
       | (inr a, s') => k a s'
       | (inl e, s') => (inl e, s')
       end.

Notation "x <- c ;; k" := (bind c (λ x, k))
  (at level 100, c at next level, right associativity).

(** [for x in l: acc = body x acc], the loop-carried locals being [acc]. *)
Fixpoint for_acc {A B} (l : list A) (acc : B) (body : A → B → M B) : M B :=
  match l with
  | [] => ret acc
  | x :: l' => acc' <- body x acc ;; for_acc l' acc' body
  end.

(** ** Geometry: [row], [col], [region], [all] *)

Definition row (s : Sudoku) (i : nat) : list cell :=
  map (λ j, (i, j)) (seq 0 (self_N s)).

Definition col (s : Sudoku) (j : nat) : list cell :=
  map (λ i, (i, j)) (seq 0 (self_N s)).

(** [i,j = i//m*m, j//n*n]; the cells [(x,y)] for [x] in [range(i, i+m)],
    [y] in [range(j, j+n)].  [m] and [n] are positive in every constructed
    object, so the division never raises. *)
Definition region (s : Sudoku) (i j : nat) : list cell :=
  let i0 := i / self_m s * self_m s in
  let j0 := j / self_n s * self_n s in
  flat_map (λ x, map (λ y, (x, y)) (seq j0 (self_n s))) (seq i0 (self_m s)).

Definition all (s : Sudoku) : list cell :=
  flat_map (λ x, map (λ y, (x, y)) (seq 0 (self_N s))) (seq 0 (self_N s)).

(** ** The grid: [grid[i,j]], [grid[i,:]], [grid[:,j]], [grid[i,j] = v] *)

Definition grid_get (g : ndarray) (i j : nat) : option Z :=
  match shape g with
  | [r; c] => if (i <? r) && (j <? c) then data g !! (i * c + j) else None
  | _ => None
  end.

Definition grid_set (g : ndarray) (i j : nat) (v : Z) : ndarray :=
  match shape g with
  | [r; c] => NdArray (shape g) (<[i * c + j := v]> (data g))
  | _ => g
  end.

Definition grid_row (g : ndarray) (i : nat) : option (list Z) :=
  match shape g with
  | [r; c] => mapM (λ j, grid_get g i j) (seq 0 c)
  | _ => None
  end.

Definition grid_col (g : ndarray) (j : nat) : option (list Z) :=
  match shape g with
  | [r; c] => mapM (λ i, grid_get g i j) (seq 0 r)
  | _ => None
  end.

(** ** Python sets of integers, in iteration order *)

(** [set(range(1, N+1))] *)
Definition entries (N : nat) : list Z := map Z.of_nat (seq 1 N).

(** [c -= set(l)] *)
Definition set_minus (c : list Z) (l : list Z) : list Z := list_difference c l.

(** [c.discard(v)] *)
Definition discard (v : Z) (c : list Z) : list Z := list_difference c [v].

(** ** [possible] *)

Definition possible (s : Sudoku) (i j : nat) : exn + list Z :=
  let g := self_grid s in
  match grid_get g i j with
  | None => inl IndexError
  | Some v =>
      if bool_decide (v ≠ 0%Z) then inr []
      else
        match grid_row g i, grid_col g j,
              mapM (λ xy : cell, grid_get g xy.1 xy.2) (region s i j) with
        | Some r, Some c, Some b =>
            inr (set_minus (set_minus (set_minus (entries (self_N s)) r) c) b)
        | _, _, _ => inl IndexError
        end
  end.

(** ** [make_poss_dict] : the dictionary of [possible] at every cell of [all()] *)

Fixpoint poss_comprehension (s : Sudoku) (ks : list cell)
    (acc : gmap cell (list Z)) : exn + gmap cell (list Z) :=
  match ks with
  | [] => inr acc
  | ij :: ks' =>
      match possible s ij.1 ij.2 with
      | inl e => inl e
      | inr c => poss_comprehension s ks' (<[ij := c]> acc)
      end
  end.

Definition make_poss_dict : M unit :=
  λ s, match poss_comprehension s (all s) ∅ with
       | inl e => (inl e, s)
       | inr d => (inr tt, with_poss s d)
       end.

(** ** [set] *)

(** [self.poss[ij].discard(value)] on the dictionary [p] *)
Definition poss_discard (value : Z) (p : gmap cell (list Z)) (ij : cell)
    : option (gmap cell (list Z)) :=
  match p !! ij with
  | Some c => Some (<[ij := discard value c]> p)
  | None => None
  end.

(** The loops of [set] over the cells [ks]; the flag is [false] when a key
    is missing ([KeyError]), the dictionary being the one reached so far. *)
Fixpoint discard_all (value : Z) (ks : list cell) (p : gmap cell (list Z))
    : bool * gmap cell (list Z) :=
  match ks with
  | [] => (true, p)
  | ij :: ks' =>
      match poss_discard value p ij with
      | Some p' => discard_all value ks' p'
      | None => (false, p)
      end
  end.

(** The cells visited by the two loops of [set], in order:
    [(i,x)], [(x,j)] for [x] in [range(N)], then the region of [(i,j)]. *)
Definition set_targets (s : Sudoku) (i j : nat) : list cell :=
  flat_map (λ x, [(i, x); (x, j)]) (seq 0 (self_N s)) ++ region s i j.

(** [set(i, j, value)] for a [value] that fits the 64-bit cells of the
    grid ([int64]); for any other the store into the grid raises
    [OverflowError] and nothing is written. *)
Definition set (i j : nat) (value : Z) : M unit :=
  λ s,
    match grid_get (self_grid s) i j with
    | None => (inl IndexError, s)
    | Some v =>
        if bool_decide (v = 0%Z) then
          let s1 := with_grid s (grid_set (self_grid s) i j value) in
          match self_poss s1 with
          | None => (inl AttributeError, s1)
          | Some p =>
              let p1 := <[(i, j) := []]> p in
              match discard_all value (set_targets s1 i j) p1 with
              | (true, p2) => (inr tt, with_poss s1 p2)
              | (false, p2) => (inl KeyError, with_poss s1 p2)
              end
          end
        else (inl AssertionError, s)
    end.

(** ** Insertion-ordered dictionaries ([found], and the result of
    [only_in_range]): assigning to a key that is present replaces its value
    in place, assigning to a new key appends it. *)

Section OrderedDict.
Context {K V : Type} `{EqDecision K}.

Fixpoint od_set (d : list (K * V)) (k : K) (v : V) : list (K * V) :=
  match d with
  | [] => [(k, v)]
  | (k', v') :: d' =>
      if decide (k' = k) then (k, v) :: d' else (k', v') :: od_set d' k v
  end.

Fixpoint od_get (d : list (K * V)) (k : K) : option V :=
  match d with
  | [] => None
  | (k', v') :: d' => if decide (k' = k) then Some v' else od_get d' k
  end.

(** [k in d] *)
Definition od_mem (d : list (K * V)) (k : K) : bool :=
  bool_decide (is_Some (od_get d k)).
End OrderedDict.

(** ** [only_in_range] *)

(** [found[val] = 0 if val in found else xy]; the entry [0] is [None]. *)
Definition found_step (xy : cell) (found : list (Z * option cell)) (val : Z)
    : list (Z * option cell) :=
  od_set found val (if od_mem found val then None else Some xy).

(** The two nested loops over [rng] and [self.poss[xy]]. *)
Fixpoint tally (p : gmap cell (list Z)) (rng : list cell)
    (found : list (Z * option cell)) : option (list (Z * option cell)) :=
  match rng with
  | [] => Some found
  | xy :: rng' =>
      match p !! xy with
      | Some c => tally p rng' (fold_left (found_step xy) c found)
      | None => None
      end
  end.

(** [{ found[val]: val for val in found if found[val] }] *)
Definition placements (found : list (Z * option cell)) : list (cell * Z) :=
  fold_left (λ d e, match e.2 with
                    | Some xy => od_set d xy e.1
                    | None => d
                    end) found [].

(** [not getattr(self, 'poss', 0)]: the attribute is absent or is the empty
    dictionary. *)
Definition poss_missing (s : Sudoku) : bool :=
  match self_poss s with
  | None => true
  | Some p => bool_decide (p = ∅)
  end.

Definition get_poss : M (gmap cell (list Z)) :=
  λ s, match self_poss s with
       | Some p => (inr p, s)
       | None => (inl AttributeError, s)
       end.

(** [if not getattr(self,'poss',0): self.make_poss_dict()] *)
Definition ensure_poss : M unit :=
  λ s, (if poss_missing s then make_poss_dict else ret tt) s.

Definition only_in_range (rng : list cell) : M (list (cell * Z)) :=
  _ <- ensure_poss ;;
  p <- get_poss ;;
  match tally p rng [] with
  | Some found => ret (placements found)
  | None => raise KeyError
  end.

(** ** [find_only]: a generator.  [body] is what its consumer does with
    each yielded pair, [acc] the consumer's local variables. *)

Definition scan_ranges_of (s : Sudoku) (k : nat) : list (list cell) :=
  [row s k; col s k; region s k (k mod self_m s * self_n s)].

(** What [find_only] does with one range: scan it, then yield its pairs. *)
Definition scan_range {A} (body : cell * Z → A → M A) (rng : list cell)
    (acc : A) : M A :=
  d <- only_in_range rng ;; for_acc d acc body.

Definition find_only {A} (body : cell * Z → A → M A) (acc : A) : M A :=
  λ s,
    for_acc (seq 0 (self_N s)) acc (λ k acc,
      λ s', for_acc (scan_ranges_of s' k) acc (scan_range body) s') s.

(** ** [solve] *)

(** The body of the [for] loop of [solve]: print, [set], [change = 1].
    The loop's locals are [change] and what has been printed so far. *)
Definition solve_body (xyz : cell * Z) (acc : bool * list (cell * Z))
    : M (bool * list (cell * Z)) :=
  let out := acc.2 ++ [xyz] in
  _ <- set xyz.1.1 xyz.1.2 xyz.2 ;;
  ret (true, out).

(** One turn of the [while] loop: [change = 0], then the [for] loop. *)
Definition solve_round (out : list (cell * Z)) : M (bool * list (cell * Z)) :=
  find_only solve_body (false, out).

(** The [while] loop, with at most [fuel] turns; [None] when they do not
    suffice.  The result is what was printed. *)
Fixpoint solve_loop (fuel : nat) (out : list (cell * Z)) (s : Sudoku)
    : option ((exn + list (cell * Z)) * Sudoku) :=
  match fuel with
  | O => None
  | S fuel' =>
      match solve_round out s with
      | (inl e, s') => Some (inl e, s')
      | (inr (change, out'), s') =>
          if change then solve_loop fuel' out' s' else Some (inr out', s')
      end
  end.

Definition solve (fuel : nat) (s : Sudoku) := solve_loop fuel [] s.

(** ** [__init__] *)

(** The class attribute [default = {'m': 3}]. *)
Definition default : gmap string pyobj := {[ "m" := PyInt 3 ]}.

(** The loop over the positional arguments, [i] being the index that
    [enumerate] gives to the head of [args]. *)
Fixpoint positional (i : nat) (args : list pyobj) (kwargs : gmap string pyobj)
    : exn + gmap string pyobj :=
  match args with
  | [] => inr kwargs
  | arg :: rest =>
      match arg with
      | PyInt _ =>
          if bool_decide (kwargs !! "m" = None) then
            positional (S i) rest (<["m" := arg]> kwargs)
          else if bool_decide (i = 0) then inl (ValueError MSpecifiedTwice)
          else if bool_decide (kwargs !! "n" = None) then
            positional (S i) rest (<["n" := arg]> kwargs)
          else inl (ValueError TooManyIntegers)
      | _ =>
          if bool_decide (kwargs !! "grid" = None) then
            positional (S i) rest (<["grid" := arg]> kwargs)
          else inl (ValueError UnrecognizedPositional)
      end
  end.

(** [isinstance(v, int) and v > 0] *)
Definition positive_int (v : pyobj) : option nat :=
  match v with
  | PyInt z => if (0 <? z)%Z then Some (Z.to_nat z) else None
  | _ => None
  end.

(** The loop [for param in 'mn']: the attributes [m] and [n] it sets. *)
Definition sizes (kwargs : gmap string pyobj) : exn + option nat * option nat :=
  let check param :=
    match kwargs !! param with
    | Some v =>
        match positive_int v with
        | Some k => inr (Some k)
        | None => inl (ValueError (NotPositiveInteger param))
        end
    | None => inr None
    end in
  match check "m" with
  | inl e => inl e
  | inr om =>
      match kwargs !! "n" with
      | Some _ =>
          match check "n" with
          | inl e => inl e
          | inr on => inr (om, on)
          end
      | None => inr (om, om)
      end
  end.

(** [array(obj, dtype=int)] *)
Definition array (obj : pyobj) : option ndarray :=
  match obj with
  | PyInt z => Some (NdArray [] [z])
  | PyArray a => Some a
  | PyOther => None
  end.

(** [zeros((N, N), dtype=int)] *)
Definition zeros (N : nat) : ndarray := NdArray [N; N] (replicate (N * N) 0%Z).

(** [round(k ** .5)]: the integer nearest to the square root of [k] (the
    root of an integer is never half-way between two integers, and the
    double-precision root is accurate enough for any array size). *)
Definition round_sqrt (k : nat) : nat :=
  let r := Nat.sqrt k in
  if r * r + r <? k then r + 1 else r.

(** [while n > 1 and N % n: n -= 1] *)
Fixpoint decrease (N n : nat) : nat :=
  match n with
  | O => O
  | S n' => if (1 <? n) && negb (N mod n =? 0) then decrease N n' else n
  end.

(** The grid as a square 2-dimensional array and its side. *)
Definition square_grid (grid : ndarray) : exn + ndarray * nat :=
  match shape grid with
  | [n; N] =>
      if bool_decide (n ≠ N) then inl (ValueError GridNotSquare)
      else inr (grid, N)
  | [n] =>
      let N := round_sqrt n in
      if bool_decide (n ≠ N * N) then inl (ValueError GridNotSquareTotal)
      else inr (NdArray [N; N] (data grid), N)
  | _ => inl (ValueError GridNotTwoDimensional)
  end.

(** Guessing the block shape [(N // n, n)] of a grid of side [N]. *)
Definition guess (N : nat) : exn + nat * nat :=
  let n := round_sqrt N in
  let n := if N <? n * n then n - 1 else n in
  let n := decrease N n in
  if n <=? 1 then inl (ValueError SizeNotProduct)
  else inr (N / n, n).

(** The part of [__init__] after the loop over ['mn'], [om] and [on] being
    the attributes [m] and [n] set so far.  ['m' in kwargs] holds exactly
    when [om] is set, and then [on] is set as well. *)
Definition build (kwargs : gmap string pyobj) (om on : option nat)
    : exn + Sudoku :=
  match kwargs !! "grid" with
  | Some obj =>
      match array obj with
      | None => inl (ValueError GridNotArray)
      | Some grid =>
          match square_grid grid with
          | inl e => inl e
          | inr (grid, N) =>
              match om, on with
              | Some m, Some n =>
                  if bool_decide (m * n ≠ N)
                  then inl (ValueError SizeDiffers)
                  else inr (MkSudoku (m * n) m n grid None)
              | _, _ =>
                  match guess N with
                  | inl e => inl e
                  | inr (m, n) => inr (MkSudoku N m n grid None)
                  end
              end
          end
      end
  | None =>
      match om, on with
      | Some m, Some n => inr (MkSudoku (m * n) m n (zeros (m * n)) None)
      | _, _ => inl (ValueError SizeOrGridMissing)
      end
  end.

Definition init (args : list pyobj) (kwargs : gmap string pyobj)
    : exn + Sudoku :=
  match positional 0 args kwargs with
  | inl e => inl e
  | inr kwargs =>
      match sizes kwargs with
      | inl e => inl e
      | inr (om, on) => build kwargs om on
      end
  end.

(** ** Well-formed objects and the vocabulary of the properties *)

(** A square N x N array with its N * N entries. *)
Definition grid_ok (g : ndarray) (N : nat) : Prop :=
  shape g = [N; N] ∧ length (data g) = N * N.

(** What [__init__] establishes: [N = m * n] with positive [m], [n], and an
    N x N grid. *)
Definition wf (s : Sudoku) : Prop :=
  self_N s = self_m s * self_n s ∧ 0 < self_m s ∧ 0 < self_n s ∧
  grid_ok (self_grid s) (self_N s).

(** The cells sharing the row, the column or the region of [(i,j)]. *)
Definition peers (s : Sudoku) (i j : nat) : list cell :=
  row s i ++ col s j ++ region s i j.

(** The values found in a list of cells. *)
Definition values_at (g : ndarray) (cs : list cell) : list Z :=
  omap (λ xy : cell, grid_get g xy.1 xy.2) cs.

(** [{1..N}] minus the values of the row, column and region of an empty
    cell, nothing for a filled one: what a full recomputation gives. *)
Definition candidates (s : Sudoku) (i j : nat) : list Z :=
  match grid_get (self_grid s) i j with
  | Some 0%Z => list_difference (entries (self_N s))
                  (values_at (self_grid s) (peers s i j))
  | _ => []
  end.

(** The candidate store agrees with the grid at every cell. *)
Definition consistent (s : Sudoku) : Prop :=
  ∃ p, self_poss s = Some p ∧
    ∀ i j, i < self_N s → j < self_N s →
      p !! (i, j) = Some (candidates s i j).

(** A sequence of [set] calls. *)
Fixpoint set_all (ops : list (cell * Z)) : M unit :=
  match ops with
  | [] => ret tt
  | (xy, v) :: ops' => _ <- set xy.1 xy.2 v ;; set_all ops'
  end.

(** The sizes [N], [m], [n] of two states agree. *)
Definition same_sizes (s s' : Sudoku) : Prop :=
  self_N s = self_N s' ∧ self_m s = self_m s' ∧ self_n s = self_n s'.

(** A computation that never assigns to [self.N], [self.m], [self.n]. *)
Definition keeps_sizes {A} (c : M A) : Prop := ∀ s, same_sizes s (c s).2.

(** The ranges a pass of [find_only] hands to [only_in_range], in order. *)
Definition scan_ranges (s : Sudoku) : list (list cell) :=
  flat_map (scan_ranges_of s) (seq 0 (self_N s)).

(** The stored candidate set of a cell (empty for a missing key). *)
Definition cands (p : gmap cell (list Z)) (c : cell) : list Z :=
  match p !! c with Some vs => vs | None => [] end.

(** The pairs (cell, candidate) the two loops of [only_in_range] visit. *)
Definition pairs (p : gmap cell (list Z)) (R : list cell) : list (cell * Z) :=
  flat_map (λ c, map (λ v, (c, v)) (cands p c)) R.

(** The cells of [R] whose candidate set holds [v]. *)
Definition holders (p : gmap cell (list Z)) (R : list cell) (v : Z)
    : list cell :=
  filter (λ c, v ∈ cands p c) R.

(** How often the value [v] is visited. *)
Definition occ (v : Z) (L : list (cell * Z)) : nat :=
  length (filter (λ e, e.2 = v) L).

(** [found] after visiting the pairs [L]. *)
Definition found_of (L : list (cell * Z)) (found : list (Z * option cell))
    : list (Z * option cell) :=
  fold_left (λ f e, found_step e.1 f e.2) L found.

(** The values recorded in [found] with location [c], in the order of
    [found]. *)
Definition located (c : cell) (found : list (Z * option cell)) : list Z :=
  (filter (λ e, e.2 = Some c) found).*1.

(** The values visited at [c] and nowhere else, in the order of visit. *)
Definition sole (c : cell) (L : list (cell * Z)) : list Z :=
  (filter (λ e, e.1 = c ∧ occ e.2 L = 1) L).*2.

(** The number of empty cells. *)
Definition empties (s : Sudoku) : nat :=
  length (filter (λ v, v = 0%Z) (data (self_grid s))).

(** An object as [__init__] leaves it, or with its candidate store built
    and kept up to date. *)
Definition ready (s : Sudoku) : Prop :=
  wf s ∧ (self_poss s = None ∨ consistent s).

(** The candidate sets of the state, as a function of the cell. *)
Definition poss_of (s : Sudoku) : gmap cell (list Z) :=
  match self_poss s with Some p => p | None => ∅ end.

(** What [only_in_range(R)] returns in a state whose store is built. *)
Definition placements_at (s : Sudoku) (R : list cell) : list (cell * Z) :=
  placements (found_of (pairs (poss_of s) R) []).

(** No value appears twice among the filled cells of a row, a column or a
    region: in each of them the non-zero values are pairwise distinct. *)
Definition grid_unique (s : Sudoku) : Prop :=
  Forall (λ R, NoDup (filter (λ v, v ≠ 0%Z) (values_at (self_grid s) R)))
         (scan_ranges s).

(** Two cells share a row, a column or a region. *)
Definition related (s : Sudoku) (a b : cell) : Prop :=
  a.1 = b.1 ∨ a.2 = b.2 ∨
  (a.1 / self_m s = b.1 / self_m s ∧ a.2 / self_n s = b.2 / self_n s).

(** The same, between two cells: distinct cells that share a row, a
    column or a region do not hold the same non-zero value. *)
Definition no_clash (s : Sudoku) : Prop :=
  ∀ c1 c2 v,
    c1.1 < self_N s → c1.2 < self_N s → c2.1 < self_N s → c2.2 < self_N s →
    related s c1 c2 →
    grid_get (self_grid s) c1.1 c1.2 = Some v →
    grid_get (self_grid s) c2.1 c2.2 = Some v →
    v ≠ 0%Z → c1 = c2.

(** The loop body of [solve] followed by a check of the property [J] of
    the state, which raises when it fails: running [solve] with it audits
    [J] after every assignment. *)
Definition audit (J : Sudoku → bool) (xyz : cell * Z)
    (acc : bool * list (cell * Z)) : M (bool * list (cell * Z)) :=
  r <- solve_body xyz acc ;;
  (λ s, if J s then (inr r, s) else (inl AssertionError, s)).

Definition audited_round (J : Sudoku → bool) (out : list (cell * Z))
    : M (bool * list (cell * Z)) :=
  find_only (audit J) (false, out).

Fixpoint audited_loop (J : Sudoku → bool) (fuel : nat)
    (out : list (cell * Z)) (s : Sudoku)
    : option ((exn + list (cell * Z)) * Sudoku) :=
  match fuel with
  | O => None
  | S fuel' =>
      match audited_round J out s with
      | (inl e, s') => Some (inl e, s')
      | (inr (change, out'), s') =>
          if change then audited_loop J fuel' out' s' else Some (inr out', s')
      end
  end.

(** The pairs of a dictionary returned by [only_in_range]: distinct keys,
    and no value under two keys. *)
Definition separated (d : list (cell * Z)) : Prop :=
  NoDup d.*1 ∧ ∀ c1 c2 v, (c1, v) ∈ d → (c2, v) ∈ d → c1 = c2.

(** All cells of a range lie in the grid. *)
Definition in_grid (s : Sudoku) (R : list cell) : Prop :=
  ∀ c : cell, c ∈ R → c.1 < self_N s ∧ c.2 < self_N s.

(** [list(self.find_only())]: a whole scan collected with nothing applied
    in between. *)
Definition collect_scan : M (list (cell * Z)) :=
  find_only (λ xyz acc, ret (acc ++ [xyz])) [].

(** The audit that checks the uniqueness of the grid's values. *)
Definition unique_check (s : Sudoku) : bool := bool_decide (grid_unique s).

(** The audit that checks nothing. *)
Definition no_check (s : Sudoku) : bool := true.

(** *** Example objects *)

(** [Sudoku(1)]: one cell, empty. *)
Definition sudoku_1x1 : Sudoku :=
  MkSudoku 1 1 1 (NdArray [1; 1] [0%Z]) None.

(** A 4 x 4 grid with 2 x 2 regions, from its 16 entries. *)
Definition sudoku_4x4 (entries16 : list Z) : Sudoku :=
  MkSudoku 4 2 2 (NdArray [4; 4] entries16) None.

(** The top row holds 1, 2, 3 and an empty cell. *)
Definition grid_top_row : Sudoku :=
  sudoku_4x4 [1; 2; 3; 0;  0; 0; 0; 0;  0; 0; 0; 0;  0; 0; 0; 0]%Z.

(** A grid in which the first assignment of a round forces a second one. *)
Definition grid_chain : Sudoku :=
  sudoku_4x4 [0; 0; 0; 0;  0; 0; 2; 0;  0; 2; 0; 0;  0; 1; 0; 0]%Z.

(** The grid [S] that the module builds at its end. *)
Definition source_grid : ndarray :=
  NdArray [9; 9]
    [0; 0; 0;  4; 0; 0;  2; 9; 0;
     7; 0; 2;  0; 5; 0;  0; 8; 0;
     0; 4; 0;  0; 0; 0;  0; 0; 0;
     1; 0; 0;  2; 0; 0;  5; 0; 0;
     0; 5; 0;  8; 0; 3;  0; 1; 0;
     0; 0; 7;  0; 0; 4;  0; 0; 3;
     0; 0; 0;  0; 0; 0;  0; 7; 0;
     0; 7; 0;  0; 4; 0;  1; 0; 6;
     0; 3; 9;  0; 0; 6;  0; 0; 0]%Z.

(** The object [S] ([S] itself is the successor of [nat]). *)
Definition S_instance : Sudoku := MkSudoku 9 3 3 source_grid None.

(** [grid_top_row] with its candidate store built. *)
Definition grid_top_row_built : Sudoku := (make_poss_dict grid_top_row).2.

(** ... and after [set(0, 3, 4)]. *)
Definition grid_top_row_set : Sudoku := (set 0 3 4%Z grid_top_row_built).2.

(** The flag [change] after the loop body has run over the pairs [D]. *)
Definition flag_after (b : bool) (D : list (cell * Z)) : bool :=
  match D with [] => b | _ => true end.

(** A numpy array has as many entries as its shape says. *)
Definition array_ok (a : ndarray) : Prop :=
  length (data a) = foldr Nat.mul 1 (shape a).

(** The grid [sol] agrees with the grid [g] wherever [g] is filled. *)
Definition extends (sol g : ndarray) : Prop :=
  ∀ i j w, grid_get g i j = Some w → w ≠ 0%Z → grid_get sol i j = Some w.

(** [sol] solves the puzzle held by [s]: an N x N grid with a value of 1..N
    in every cell and none twice in a row, a column or a region, which
    agrees with the filled cells of [s]. *)
Definition solution (s : Sudoku) (sol : ndarray) : Prop :=
  grid_ok sol (self_N s) ∧
  Forall (λ v, (1 ≤ v ≤ Z.of_nat (self_N s))%Z) (data sol) ∧
  grid_unique (with_grid s sol) ∧
  extends sol (self_grid s).

(** The entries of the grid are 0 or values of 1..N. *)
Definition entries_in_range (s : Sudoku) : Prop :=
  Forall (λ v, (0 ≤ v ≤ Z.of_nat (self_N s))%Z) (data (self_grid s)).

(** What [solve] keeps true of the pairs [out] printed so far and of the
    state [t], when started on [s0]: the sizes and the shape of the grid
    stay, the printed cells are distinct, the cells filled in [s0] keep
    their value, a printed cell was empty in [s0] and holds the printed
    value, a value of 1..N, and the other empty cells are still empty. *)
Definition trace_inv (s0 : Sudoku) (out : list (cell * Z)) (t : Sudoku)
    : Prop :=
  same_sizes s0 t ∧
  grid_ok (self_grid s0) (self_N s0) ∧
  grid_ok (self_grid t) (self_N s0) ∧
  NoDup out.*1 ∧
  (∀ i j w, grid_get (self_grid s0) i j = Some w → w ≠ 0%Z →
            grid_get (self_grid t) i j = Some w) ∧
  (∀ (c : cell) (v : Z), (c, v) ∈ out →
     grid_get (self_grid s0) c.1 c.2 = Some 0%Z ∧
     grid_get (self_grid t) c.1 c.2 = Some v ∧
     (1 ≤ v ≤ Z.of_nat (self_N s0))%Z) ∧
  (∀ i j, grid_get (self_grid s0) i j = Some 0%Z → (i, j) ∉ out.*1 →
          grid_get (self_grid t) i j = Some 0%Z).

(** A solution of [grid_top_row]. *)
Definition solved_top_row : ndarray :=
  NdArray [4; 4] [1; 2; 3; 4;  3; 4; 1; 2;  2; 1; 4; 3;  4; 3; 2; 1]%Z.

(** A 4 x 4 puzzle with one empty cell in each row. *)
Definition puzzle_4x4 : Sudoku :=
  sudoku_4x4 [1; 2; 3; 0;  3; 4; 0; 2;  2; 0; 4; 3;  0; 3; 2; 1]%Z.

(** The values a cell of the grid, a 64-bit integer array, can hold.
    [self.grid[i,j] = value] raises [OverflowError] for any other value. *)
Definition int64 (v : Z) : Prop := (- 2 ^ 63 ≤ v < 2 ^ 63)%Z.

(** ** The grid *)

Section Grid.
Variables (g : ndarray) (N : nat).
Hypothesis Hg : grid_ok g N.

Lemma grid_get_lt i j v : grid_get g i j = Some v → i < N ∧ j < N.
Proof using Hg.
  destruct Hg as [Hs _]. unfold grid_get. rewrite Hs.
  destruct (i <? N) eqn:E1, (j <? N) eqn:E2; simpl; try discriminate.
  apply Nat.ltb_lt in E1, E2. done.
Qed.

Lemma grid_get_is_Some i j : i < N → j < N → is_Some (grid_get g i j).
Proof using Hg.
  destruct Hg as [Hs Hl]. intros Hi Hj. unfold grid_get. rewrite Hs.
  apply Nat.ltb_lt in Hi as E1. apply Nat.ltb_lt in Hj as E2.
  rewrite E1, E2. simpl. apply lookup_lt_is_Some. nia.
Qed.

Lemma grid_set_ok i j v : grid_ok (grid_set g i j v) N.
Proof using Hg.
  destruct Hg as [Hs Hl]. unfold grid_set, grid_ok. rewrite Hs. simpl.
  by rewrite length_insert.
Qed.

Lemma grid_get_set_eq i j v :
  i < N → j < N → grid_get (grid_set g i j v) i j = Some v.
Proof using Hg.
  destruct Hg as [Hs Hl]. intros Hi Hj. unfold grid_get, grid_set.
  rewrite Hs. simpl.
  apply Nat.ltb_lt in Hi as E1. apply Nat.ltb_lt in Hj as E2.
  rewrite E1, E2. simpl. apply list_lookup_insert_eq. nia.
Qed.

Lemma grid_get_set_ne i j v x y :
  j < N → (x, y) ≠ (i, j) →
  grid_get (grid_set g i j v) x y = grid_get g x y.
Proof using Hg.
  destruct Hg as [Hs Hl]. intros Hj Hne. unfold grid_get, grid_set.
  rewrite Hs. simpl.
  destruct (x <? N) eqn:E1, (y <? N) eqn:E2; simpl; try done.
  apply Nat.ltb_lt in E1, E2.
  apply list_lookup_insert_ne. intros Heq.
  assert (i = x) by nia. assert (j = y) by nia. congruence.
Qed.
End Grid.

(** ** Geometry *)

Lemma div_block_iff (k x i : nat) :
  0 < k → (i / k * k ≤ x < i / k * k + k ↔ x / k = i / k).
Proof.
  intros Hk. split.
  - intros [H1 H2]. symmetry. apply (Nat.div_unique x k (i / k) (x - i / k * k)); lia.
  - intros <-. pose proof (Nat.div_mod_eq x k) as Hd.
    pose proof (Nat.mod_upper_bound x k). lia.
Qed.

Lemma elem_of_row s i x y : (x, y) ∈ row s i ↔ x = i ∧ y < self_N s.
Proof.
  unfold row. rewrite list_elem_of_In, in_map_iff. split.
  - intros (j & [= <- <-] & Hj). apply in_seq in Hj. lia.
  - intros [-> Hy]. exists y. split; [done|]. apply in_seq. lia.
Qed.

Lemma elem_of_col s j x y : (x, y) ∈ col s j ↔ y = j ∧ x < self_N s.
Proof.
  unfold col. rewrite list_elem_of_In, in_map_iff. split.
  - intros (i & [= <- <-] & Hi). apply in_seq in Hi. lia.
  - intros [-> Hx]. exists x. split; [done|]. apply in_seq. lia.
Qed.

Lemma elem_of_block (x y i0 j0 a b : nat) :
  (x, y) ∈ flat_map (λ x, map (λ y, (x, y)) (seq j0 b)) (seq i0 a) ↔
  i0 ≤ x < i0 + a ∧ j0 ≤ y < j0 + b.
Proof.
  rewrite list_elem_of_In, in_flat_map. split.
  - intros (x' & Hx & Hy). apply in_map_iff in Hy as (y' & [= <- <-] & Hy).
    apply in_seq in Hx, Hy. lia.
  - intros [Hx Hy]. exists x. split; [apply in_seq; lia|].
    apply in_map_iff. exists y. split; [done|]. apply in_seq. lia.
Qed.

Lemma elem_of_all s x y : (x, y) ∈ all s ↔ x < self_N s ∧ y < self_N s.
Proof. unfold all. rewrite elem_of_block. lia. Qed.

Lemma elem_of_region s i j x y :
  0 < self_m s → 0 < self_n s →
  (x, y) ∈ region s i j ↔
  x / self_m s = i / self_m s ∧ y / self_n s = j / self_n s.
Proof.
  intros Hm Hn. unfold region. rewrite elem_of_block.
  by rewrite !div_block_iff.
Qed.

Lemma block_lt (m n i x : nat) : 0 < m → i < m * n → x / m = i / m → x < m * n.
Proof.
  intros Hm Hi Hx.
  assert (i / m < n) by (apply Nat.Div0.div_lt_upper_bound; lia).
  pose proof (Nat.div_mod_eq x m). pose proof (Nat.mod_upper_bound x m). nia.
Qed.

Lemma region_in_grid s i j x y :
  wf s → i < self_N s → j < self_N s →
  (x, y) ∈ region s i j → x < self_N s ∧ y < self_N s.
Proof.
  intros (HN & Hm & Hn & _) Hi Hj H. apply elem_of_region in H as [H1 H2]; [|done..].
  rewrite HN in *. split.
  - by apply (block_lt _ _ i).
  - rewrite Nat.mul_comm in *. by apply (block_lt _ _ j).
Qed.

Lemma elem_of_peers s i j x y :
  wf s → i < self_N s → j < self_N s →
  (x, y) ∈ peers s i j ↔
  x < self_N s ∧ y < self_N s ∧ related s (x, y) (i, j).
Proof.
  intros Hwf Hi Hj. pose proof Hwf as (HN & Hm & Hn & _).
  unfold peers, related. simpl.
  rewrite !elem_of_app, elem_of_row, elem_of_col. split.
  - intros [[Hx Hy]|[[Hy Hx]|H]]; [subst; auto..|].
    destruct (region_in_grid _ _ _ _ _ Hwf Hi Hj H) as [Hx Hy].
    apply elem_of_region in H; auto.
  - intros (Hx & Hy & [H|[H|H]]); [auto..|].
    right; right. by apply elem_of_region.
Qed.

Lemma related_sym s a b : related s a b → related s b a.
Proof. unfold related. intuition congruence. Qed.

Lemma peers_sym s i j x y :
  wf s → i < self_N s → j < self_N s → x < self_N s → y < self_N s →
  (x, y) ∈ peers s i j → (i, j) ∈ peers s x y.
Proof.
  intros Hwf Hi Hj Hx Hy H. apply elem_of_peers in H as (_ & _ & H); [|done..].
  apply elem_of_peers; [done..|]. auto using related_sym.
Qed.

(** ** Sets as lists *)

Lemma list_difference_ext (l k k' : list Z) :
  (∀ x, x ∈ l → (x ∈ k ↔ x ∈ k')) →
  list_difference l k = list_difference l k'.
Proof.
  induction l as [|a l IH]; intros H; [done|]. simpl.
  rewrite IH by (intros x Hx; apply H; by right).
  destruct (decide_rel elem_of a k) as [Hk|Hk], (decide_rel elem_of a k') as [Hk'|Hk'];
    try done; exfalso; apply (H a) in Hk || apply (H a) in Hk'; try done; by left.
Qed.

Lemma list_difference_twice (l k1 k2 : list Z) :
  list_difference (list_difference l k1) k2 = list_difference l (k1 ++ k2).
Proof.
  induction l as [|a l IH]; [done|]. simpl.
  destruct (decide_rel elem_of a k1) as [H1|H1].
  - rewrite IH. destruct (decide_rel elem_of a (k1 ++ k2)) as [H|H]; [done|].
    exfalso. apply H, elem_of_app. by left.
  - simpl. rewrite IH.
    destruct (decide_rel elem_of a k2) as [H2|H2],
             (decide_rel elem_of a (k1 ++ k2)) as [H|H];
      try done; rewrite elem_of_app in H; tauto.
Qed.

Lemma elem_of_discard v w c : w ∈ discard v c ↔ w ∈ c ∧ w ≠ v.
Proof.
  unfold discard. rewrite list_elem_of_difference, list_elem_of_singleton. done.
Qed.

Lemma discard_idemp v c : discard v (discard v c) = discard v c.
Proof.
  unfold discard. rewrite list_difference_twice.
  apply list_difference_ext. intros x _.
  rewrite elem_of_app, !list_elem_of_singleton. tauto.
Qed.

Lemma elem_of_entries N v : v ∈ entries N ↔ (1 ≤ v ≤ Z.of_nat N)%Z.
Proof.
  unfold entries. rewrite list_elem_of_In, in_map_iff. split.
  - intros (k & <- & Hk). apply in_seq in Hk. lia.
  - intros Hv. exists (Z.to_nat v). split; [lia|]. apply in_seq. lia.
Qed.

Lemma NoDup_entries N : NoDup (entries N).
Proof.
  unfold entries. apply (NoDup_fmap_2 Z.of_nat). apply NoDup_ListNoDup, seq_NoDup.
Qed.

(** ** [possible] computes [candidates] *)

Lemma mapM_omap {A B} (f : A → option B) (l : list A) :
  (∀ x, x ∈ l → is_Some (f x)) → mapM f l = Some (omap f l).
Proof.
  induction l as [|a l IH]; intros H; [done|].
  destruct (H a) as [b Hb]; [by left|]. simpl. rewrite Hb. simpl.
  rewrite IH by (intros x Hx; apply H; by right). done.
Qed.

Lemma values_at_map {A} (g : ndarray) (h : A → cell) (l : list A) :
  values_at g (map h l) = omap (λ x, grid_get g (h x).1 (h x).2) l.
Proof.
  unfold values_at. induction l as [|a l IH]; [done|].
  change (map h (a :: l)) with (h a :: map h l).
  cbn [omap list_omap]. by rewrite <- IH.
Qed.

Lemma values_at_app g l1 l2 :
  values_at g (l1 ++ l2) = values_at g l1 ++ values_at g l2.
Proof. unfold values_at. apply omap_app. Qed.

Lemma elem_of_values_at g cs v :
  v ∈ values_at g cs ↔ ∃ xy, xy ∈ cs ∧ grid_get g xy.1 xy.2 = Some v.
Proof. unfold values_at. apply list_elem_of_omap. Qed.

Lemma possible_candidates s i j :
  wf s → i < self_N s → j < self_N s →
  possible s i j = inr (candidates s i j).
Proof.
  intros Hwf Hi Hj. pose proof Hwf as (HN & Hm & Hn & Hg).
  unfold possible, candidates.
  destruct (grid_get_is_Some _ _ Hg i j Hi Hj) as [v Hv]. rewrite Hv.
  case_bool_decide as Hv0.
  { destruct v; done. }
  assert (v = 0%Z) as -> by (destruct (decide (v = 0%Z)); [done|by destruct Hv0]).
  pose proof Hg as [Hs _].
  unfold grid_row, grid_col. rewrite Hs.
  rewrite (mapM_omap (λ j0, grid_get (self_grid s) i j0)); last first.
  { intros y Hy. apply list_elem_of_In, in_seq in Hy.
    apply (grid_get_is_Some _ _ Hg); lia. }
  rewrite (mapM_omap (λ i0, grid_get (self_grid s) i0 j)); last first.
  { intros x Hx. apply list_elem_of_In, in_seq in Hx.
    apply (grid_get_is_Some _ _ Hg); lia. }
  rewrite mapM_omap; last first.
  { intros [x y] Hxy. apply region_in_grid in Hxy as [Hx Hy]; [|done..].
    by apply (grid_get_is_Some _ _ Hg). }
  unfold set_minus. rewrite !list_difference_twice. f_equal.
  unfold peers. rewrite !values_at_app. unfold row, col.
  rewrite !values_at_map. done.
Qed.

(** ** [make_poss_dict] *)

Lemma poss_comprehension_ok s ks acc :
  wf s → (∀ xy : cell, xy ∈ ks → xy.1 < self_N s ∧ xy.2 < self_N s) →
  ∃ d, poss_comprehension s ks acc = inr d ∧
       ∀ k : cell, d !! k = if decide (k ∈ ks) then Some (candidates s k.1 k.2)
                            else acc !! k.
Proof.
  intros Hwf. revert acc. induction ks as [|ij ks IH]; intros acc Hks.
  { exists acc. split; [done|]. intros k. by rewrite decide_False by apply not_elem_of_nil. }
  simpl. destruct (Hks ij) as [Hi Hj]; [by left|].
  rewrite possible_candidates by done.
  destruct (IH (<[ij := candidates s ij.1 ij.2]> acc)) as (d & Hd & Hlook).
  { intros xy Hxy. apply Hks. by right. }
  exists d. split; [done|]. intros k. rewrite Hlook.
  destruct (decide (k ∈ ks)) as [Hk|Hk].
  - rewrite decide_True by (by right). done.
  - destruct (decide (k = ij)) as [->|Hne].
    + rewrite decide_True by (by left). by rewrite lookup_insert_eq.
    + rewrite decide_False by (rewrite elem_of_cons; tauto).
      by rewrite lookup_insert_ne.
Qed.

Lemma make_poss_dict_ok s :
  wf s →
  ∃ p, make_poss_dict s = (inr tt, with_poss s p) ∧
       (∀ i j, i < self_N s → j < self_N s →
               p !! (i, j) = Some (candidates s i j)) ∧
       (∀ k, k ∉ all s → p !! k = None).
Proof.
  intros Hwf. unfold make_poss_dict.
  destruct (poss_comprehension_ok s (all s) ∅ Hwf) as (d & Hd & Hlook).
  { intros [x y] H. by apply elem_of_all in H. }
  rewrite Hd. exists d. split; [done|]. split.
  - intros i j Hi Hj. rewrite Hlook. rewrite decide_True; [done|].
    by apply elem_of_all.
  - intros k Hk. rewrite Hlook. by rewrite decide_False.
Qed.

Lemma make_poss_dict_consistent s s' :
  wf s → make_poss_dict s = (inr tt, s') → wf s' ∧ consistent s'.
Proof.
  intros Hwf H. destruct (make_poss_dict_ok s Hwf) as (p & Hp & Hin & _).
  rewrite Hp in H. injection H as <-. split; [done|].
  exists p. split; [done|]. apply Hin.
Qed.

(** ** [set] *)

Lemma discard_all_ok (v : Z) (ks : list cell) (p : gmap cell (list Z)) :
  (∀ k, k ∈ ks → is_Some (p !! k)) →
  ∃ p', discard_all v ks p = (true, p') ∧
        ∀ k, p' !! k = if decide (k ∈ ks) then discard v <$> p !! k else p !! k.
Proof.
  revert p. induction ks as [|ij ks IH]; intros p Hks.
  { exists p. split; [done|]. intros k. by rewrite decide_False by apply not_elem_of_nil. }
  simpl. unfold poss_discard.
  destruct (Hks ij) as [c Hc]; [by left|]. rewrite Hc.
  destruct (IH (<[ij := discard v c]> p)) as (p' & Hp' & Hlook).
  { intros k Hk. destruct (decide (k = ij)) as [->|Hne].
    - rewrite lookup_insert_eq. eauto.
    - rewrite lookup_insert_ne by done. apply Hks. by right. }
  exists p'. split; [done|]. intros k. rewrite Hlook.
  destruct (decide (k = ij)) as [->|Hne].
  - rewrite lookup_insert_eq, Hc. rewrite (decide_True _ _ (list_elem_of_here _ _)).
    destruct (decide (ij ∈ ks)); simpl; [|done]. by rewrite discard_idemp.
  - rewrite lookup_insert_ne by done.
    destruct (decide (k ∈ ks)) as [Hk|Hk].
    + rewrite decide_True by (by right). done.
    + rewrite decide_False by (rewrite elem_of_cons; tauto). done.
Qed.

Lemma elem_of_set_targets (s : Sudoku) (i j : nat) (k : cell) :
  i < self_N s → j < self_N s →
  k ∈ set_targets s i j ↔ k ∈ peers s i j.
Proof.
  intros Hi Hj. destruct k as [x y]. unfold set_targets, peers.
  rewrite !elem_of_app, elem_of_row, elem_of_col.
  rewrite (list_elem_of_In (flat_map _ _)), in_flat_map.
  split.
  - intros [(z & Hz & Hin)|H]; [|tauto].
    apply in_seq in Hz. simpl in Hin.
    destruct Hin as [[= <- <-]|[[= <- <-]|[]]]; [left|right; left]; lia.
  - intros [[-> Hy]|[[-> Hx]|H]]; [left|left|tauto].
    + exists y. split; [apply in_seq; lia|]. by left.
    + exists x. split; [apply in_seq; lia|]. right. by left.
Qed.

Lemma self_in_peers (s : Sudoku) (i j : nat) :
  i < self_N s → j < self_N s → (i, j) ∈ peers s i j.
Proof. intros Hi Hj. unfold peers. rewrite elem_of_app, elem_of_row. by left. Qed.

Lemma set_ok (s : Sudoku) (i j : nat) (v : Z) (p : gmap cell (list Z)) :
  wf s → self_poss s = Some p →
  (∀ x y, x < self_N s → y < self_N s → is_Some (p !! (x, y))) →
  grid_get (self_grid s) i j = Some 0%Z →
  ∃ p', set i j v s =
          (inr tt, with_poss (with_grid s (grid_set (self_grid s) i j v)) p') ∧
        p' !! (i, j) = Some [] ∧
        (∀ k, k ≠ (i, j) → k ∈ peers s i j → p' !! k = discard v <$> p !! k) ∧
        (∀ k, k ∉ peers s i j → p' !! k = p !! k).
Proof.
  intros Hwf Hp Htot Hv. pose proof Hwf as (HN & Hm & Hn & Hg).
  destruct (grid_get_lt _ _ Hg _ _ _ Hv) as [Hi Hj].
  unfold set. rewrite Hv. rewrite bool_decide_eq_true_2 by done.
  simpl. rewrite Hp.
  destruct (discard_all_ok v
              (set_targets (with_grid s (grid_set (self_grid s) i j v)) i j)
              (<[(i, j) := []]> p)) as (p' & Hp' & Hlook).
  { intros [x y] Hk. apply (elem_of_set_targets s) in Hk; [|done..].
    apply elem_of_peers in Hk as (Hx & Hy & _); [|done..].
    destruct (decide ((x, y) = (i, j))) as [->|Hne].
    - rewrite lookup_insert_eq. eauto.
    - rewrite lookup_insert_ne by done. by apply Htot. }
  rewrite Hp'. exists p'. split; [done|].
  assert (∀ k, k ∈ set_targets (with_grid s (grid_set (self_grid s) i j v)) i j
               ↔ k ∈ peers s i j) as Htg.
  { intros k. by apply (elem_of_set_targets s). }
  split; [|split].
  - rewrite Hlook. rewrite decide_True by (apply Htg; by apply self_in_peers).
    by rewrite lookup_insert_eq.
  - intros k Hne Hk. rewrite Hlook. rewrite decide_True by (by apply Htg).
    by rewrite lookup_insert_ne.
  - intros k Hk. rewrite Hlook. rewrite decide_False by (by rewrite Htg).
    rewrite lookup_insert_ne; [done|]. intros <-. apply Hk. by apply self_in_peers.
Qed.

Lemma set_success_inv (s s' : Sudoku) (i j : nat) (v : Z) :
  set i j v s = (inr tt, s') → grid_get (self_grid s) i j = Some 0%Z.
Proof.
  unfold set. destruct (grid_get (self_grid s) i j) as [w|]; [|done].
  case_bool_decide as Hw; [by subst|done].
Qed.

Lemma values_after_set (g : ndarray) (N i j : nat) (v w : Z) (cs : list cell) :
  grid_ok g N → grid_get g i j = Some 0%Z → w ≠ 0%Z →
  w ∈ values_at (grid_set g i j v) cs ↔
  w ∈ values_at g cs ∨ (w = v ∧ (i, j) ∈ cs).
Proof.
  intros Hg H0 Hw. destruct (grid_get_lt _ _ Hg _ _ _ H0) as [Hi Hj].
  rewrite !elem_of_values_at. split.
  - intros ([x y] & Hin & Hget). simpl in Hget.
    destruct (decide ((x, y) = (i, j))) as [[= -> ->]|Hne].
    + rewrite (grid_get_set_eq _ _ Hg) in Hget by done. right. split; congruence.
    + rewrite (grid_get_set_ne _ _ Hg) in Hget by done. left. by exists (x, y).
  - intros [([x y] & Hin & Hget)|[-> Hin]].
    + exists (x, y). split; [done|]. simpl in *.
      rewrite (grid_get_set_ne _ _ Hg); [done..|]. intros [= -> ->]. congruence.
    + exists (i, j). split; [done|]. simpl. by apply (grid_get_set_eq _ _ Hg).
Qed.

Lemma wf_with (s : Sudoku) (i j : nat) (v : Z) (p : gmap cell (list Z)) :
  wf s → wf (with_poss (with_grid s (grid_set (self_grid s) i j v)) p).
Proof.
  intros (HN & Hm & Hn & Hg). repeat split; try done; simpl;
    by apply grid_set_ok.
Qed.

(** The incremental update of [set] agrees with a full recomputation. *)
Lemma candidates_after_set (s : Sudoku) (i j x y : nat) (v : Z)
    (p : gmap cell (list Z)) :
  wf s → grid_get (self_grid s) i j = Some 0%Z → v ≠ 0%Z →
  x < self_N s → y < self_N s →
  candidates (with_poss (with_grid s (grid_set (self_grid s) i j v)) p) x y =
  if decide ((x, y) = (i, j)) then []
  else if decide ((x, y) ∈ peers s i j) then discard v (candidates s x y)
  else candidates s x y.
Proof.
  intros Hwf H0 Hv Hx Hy. pose proof Hwf as (HN & Hm & Hn & Hg).
  destruct (grid_get_lt _ _ Hg _ _ _ H0) as [Hi Hj].
  unfold candidates. simpl.
  change (peers (with_poss (with_grid s (grid_set (self_grid s) i j v)) p) x y)
    with (peers s x y).
  destruct (decide ((x, y) = (i, j))) as [[= -> ->]|Hne].
  { rewrite (grid_get_set_eq _ _ Hg) by done. by destruct v. }
  rewrite (grid_get_set_ne _ _ Hg) by done.
  destruct (grid_get (self_grid s) x y) as [[| |]|] eqn:Hxy;
    try (by destruct (decide ((x, y) ∈ peers s i j))).
  destruct (decide ((x, y) ∈ peers s i j)) as [Hp|Hp].
  - unfold discard. rewrite list_difference_twice.
    apply list_difference_ext. intros w Hw.
    apply elem_of_entries in Hw.
    rewrite (values_after_set _ _ _ _ _ _ _ Hg H0) by lia.
    rewrite elem_of_app, list_elem_of_singleton.
    pose proof (peers_sym _ _ _ _ _ Hwf Hi Hj Hx Hy Hp). tauto.
  - apply list_difference_ext. intros w Hw.
    apply elem_of_entries in Hw.
    rewrite (values_after_set _ _ _ _ _ _ _ Hg H0) by lia.
    assert ((i, j) ∉ peers s x y).
    { intros H. apply Hp. by apply peers_sym. }
    tauto.
Qed.

Lemma set_consistent (s s' : Sudoku) (i j : nat) (v : Z) :
  wf s → consistent s → v ≠ 0%Z →
  set i j v s = (inr tt, s') → wf s' ∧ consistent s'.
Proof.
  intros Hwf (p & Hp & Hcons) Hv Hset.
  pose proof (set_success_inv _ _ _ _ _ Hset) as H0.
  pose proof Hwf as (HN & Hm & Hn & Hg).
  destruct (grid_get_lt _ _ Hg _ _ _ H0) as [Hi Hj].
  destruct (set_ok s i j v p Hwf Hp) as (p' & Hset' & Hself & Hpeer & Hother);
    [by intros x y Hx Hy; rewrite Hcons by done; eauto|done|].
  rewrite Hset' in Hset. injection Hset as <-.
  split; [by apply wf_with|].
  exists p'. split; [done|]. intros x y Hx Hy. simpl in Hx, Hy.
  rewrite candidates_after_set by done.
  destruct (decide ((x, y) = (i, j))) as [[= -> ->]|Hne]; [done|].
  destruct (decide ((x, y) ∈ peers s i j)) as [Hin|Hin].
  - rewrite Hpeer by done. by rewrite Hcons.
  - rewrite Hother by done. by rewrite Hcons.
Qed.

Lemma set_all_consistent (ops : list (cell * Z)) (s s' : Sudoku) :
  wf s → consistent s → Forall (λ op, op.2 ≠ 0%Z) ops →
  set_all ops s = (inr tt, s') → wf s' ∧ consistent s'.
Proof.
  revert s. induction ops as [|[xy v] ops IH]; intros s Hwf Hc Hops Hrun.
  { injection Hrun as <-. done. }
  inversion Hops as [|? ? Hv Hops']; subst.
  simpl in Hrun. unfold bind in Hrun.
  destruct (set xy.1 xy.2 v s) as [[e|[]] s1] eqn:Hset; [done|].
  destruct (set_consistent _ _ _ _ _ Hwf Hc Hv Hset) as [Hwf1 Hc1].
  by apply (IH s1).
Qed.

Lemma elem_of_candidates (s : Sudoku) (i j : nat) (v : Z) :
  grid_get (self_grid s) i j = Some 0%Z →
  v ∈ candidates s i j ↔
  (1 ≤ v ≤ Z.of_nat (self_N s))%Z ∧
  ∀ xy : cell, xy ∈ row s i ∨ xy ∈ col s j ∨ xy ∈ region s i j →
               grid_get (self_grid s) xy.1 xy.2 ≠ Some v.
Proof.
  intros H0. unfold candidates. rewrite H0.
  rewrite list_elem_of_difference, elem_of_entries, elem_of_values_at.
  unfold peers. split.
  - intros [Hr Hn]. split; [done|]. intros xy Hxy Hget. apply Hn.
    exists xy. rewrite !elem_of_app. tauto.
  - intros [Hr Hn]. split; [done|]. intros (xy & Hxy & Hget).
    rewrite !elem_of_app in Hxy. by apply (Hn xy).
Qed.

Lemma candidates_filled (s : Sudoku) (i j : nat) (w : Z) :
  grid_get (self_grid s) i j = Some w → w ≠ 0%Z → candidates s i j = [].
Proof. intros H Hw. unfold candidates. rewrite H. by destruct w. Qed.

(** C1 (candidate-store correctness).  Build the candidate dictionary with
    [make_poss_dict] from any well-formed grid and perform any sequence of
    [set] calls that succeed and whose values are legal (non-zero, as every
    value of 1..N is).  Then at every cell [(i,j)] of the grid the stored set
    [poss[(i,j)]] is exactly what the full recomputation [possible(i,j)]
    returns; it is empty when the cell is filled, and when the cell is empty
    it holds exactly the values of 1..N that occur nowhere in the cell's
    row, column and region. *)
Theorem candidate_store_correct (s0 s1 s2 : Sudoku) (ops : list (cell * Z)) :
  wf s0 →
  make_poss_dict s0 = (inr tt, s1) →
  Forall (λ op, op.2 ≠ 0%Z) ops →
  set_all ops s1 = (inr tt, s2) →
  ∀ i j, i < self_N s2 → j < self_N s2 →
    ∃ c, (self_poss s2 ≫= (.!! (i, j))) = Some c ∧
         possible s2 i j = inr c ∧
         (∀ w, grid_get (self_grid s2) i j = Some w → w ≠ 0%Z → c = []) ∧
         (grid_get (self_grid s2) i j = Some 0%Z →
          ∀ v, v ∈ c ↔
               (1 ≤ v ≤ Z.of_nat (self_N s2))%Z ∧
               ∀ xy : cell,
                 xy ∈ row s2 i ∨ xy ∈ col s2 j ∨ xy ∈ region s2 i j →
                 grid_get (self_grid s2) xy.1 xy.2 ≠ Some v).
Proof.
  intros Hwf0 Hmk Hops Hrun i j Hi Hj.
  destruct (make_poss_dict_consistent _ _ Hwf0 Hmk) as [Hwf1 Hc1].
  destruct (set_all_consistent _ _ _ Hwf1 Hc1 Hops Hrun) as [Hwf2 (p & Hp & Hc2)].
  exists (candidates s2 i j). rewrite Hp. simpl. split; [by apply Hc2|].
  split; [by apply possible_candidates|]. split.
  - apply candidates_filled.
  - intros H0 v. by apply elem_of_candidates.
Qed.

(** ** The contract of [set] *)

Lemma grid_get_set_same (g : ndarray) (i j : nat) (w v : Z) :
  grid_get g i j = Some w → grid_get (grid_set g i j v) i j = Some v.
Proof.
  unfold grid_get, grid_set.
  destruct (shape g) as [|r [|c [|]]] eqn:Hs; try done. simpl.
  destruct ((i <? r) && (j <? c)); [|done]. intros H.
  apply lookup_lt_Some in H. by apply list_lookup_insert_eq.
Qed.


(** ** [__init__] *)

Lemma floor_sqrt (N : nat) :
  (let n := round_sqrt N in if N <? n * n then n - 1 else n) = Nat.sqrt N.
Proof.
  cbv zeta. unfold round_sqrt. pose proof (Nat.sqrt_specif N) as [H1 H2].
  set (r := Nat.sqrt N) in *.
  destruct (r * r + r <? N) eqn:E.
  - apply Nat.ltb_lt in E.
    rewrite (proj2 (Nat.ltb_lt N ((r + 1) * (r + 1)))) by nia. lia.
  - apply Nat.ltb_ge in E.
    rewrite (proj2 (Nat.ltb_ge N (r * r))) by nia. done.
Qed.

Lemma decrease_spec (N n0 : nat) :
  decrease N n0 ≤ n0 ∧
  (1 < decrease N n0 → N mod decrease N n0 = 0) ∧
  (∀ d, decrease N n0 < d ≤ n0 → N mod d ≠ 0).
Proof.
  induction n0 as [|n' IH].
  { simpl. split; [lia|]. split; [lia|]. intros d Hd. lia. }
  cbn [decrease].
  destruct (1 <? S n') eqn:E1; cbn [andb negb].
  - destruct (N mod S n' =? 0) eqn:E2; cbn [andb negb].
    + apply Nat.eqb_eq in E2. split; [lia|]. split; [done|]. intros d Hd. lia.
    + apply Nat.eqb_neq in E2. destruct IH as (I1 & I2 & I3).
      split; [lia|]. split; [done|]. intros d Hd.
      destruct (decide (d = S n')) as [->|]; [done|]. apply I3. lia.
  - apply Nat.ltb_ge in E1. split; [lia|]. split; [lia|]. intros d Hd. lia.
Qed.

(** What [guess] returns: the block width is the largest divisor of [N]
    that is at most the integer square root of [N], provided it exceeds 1. *)
Lemma guess_spec (N : nat) :
  match guess N with
  | inr (m, n) =>
      1 < n ∧ n ≤ Nat.sqrt N ∧ N mod n = 0 ∧ m = N / n ∧ m * n = N ∧
      ∀ d, d ≤ Nat.sqrt N → N mod d = 0 → d ≤ n
  | inl e =>
      e = ValueError SizeNotProduct ∧
      ∀ d, 1 < d → d ≤ Nat.sqrt N → N mod d ≠ 0
  end.
Proof.
  unfold guess. rewrite floor_sqrt.
  destruct (decrease_spec N (Nat.sqrt N)) as (H1 & H2 & H3).
  destruct (decrease N (Nat.sqrt N) <=? 1) eqn:E.
  - apply Nat.leb_le in E. split; [done|]. intros d Hd1 Hd2. apply H3. lia.
  - apply Nat.leb_gt in E. specialize (H2 E).
    repeat split; try done.
    + pose proof (Nat.div_mod_eq N (decrease N (Nat.sqrt N))). lia.
    + intros d Hd Hdiv.
      destruct (decide (d ≤ decrease N (Nat.sqrt N))); [done|].
      exfalso. apply (H3 d); [lia|done].
Qed.

Lemma guess_prime (N : nat) :
  (∀ d, 1 < d < N → N mod d ≠ 0) → guess N = inl (ValueError SizeNotProduct).
Proof.
  intros Hprime. pose proof (guess_spec N) as H.
  destruct (guess N) as [e|[m n]]; [by destruct H as [-> _]|].
  destruct H as (H1 & H2 & H3 & _). exfalso. apply (Hprime n); [|done].
  pose proof (Nat.sqrt_specif N) as [Hs _]. nia.
Qed.

Lemma init_unsized (args : list pyobj) (kwargs0 kwargs : gmap string pyobj)
    (obj : pyobj) (a g : ndarray) (N : nat) :
  positional 0 args kwargs0 = inr kwargs →
  kwargs !! "m" = None → kwargs !! "n" = None →
  kwargs !! "grid" = Some obj → array obj = Some a →
  square_grid a = inr (g, N) →
  init args kwargs0 =
    match guess N with
    | inl e => inl e
    | inr (m, n) => inr (MkSudoku N m n g None)
    end.
Proof.
  intros Hpos Hm Hn Hgrid Harr Hsq. unfold init. rewrite Hpos.
  unfold sizes, build. rewrite Hm, Hn, Hgrid, Harr, Hsq. done.
Qed.

Lemma init_sized (args : list pyobj) (kwargs0 kwargs : gmap string pyobj)
    (m n : Z) (obj : pyobj) (a g : ndarray) (N : nat) :
  positional 0 args kwargs0 = inr kwargs →
  kwargs !! "m" = Some (PyInt m) → kwargs !! "n" = Some (PyInt n) →
  (0 < m)%Z → (0 < n)%Z →
  kwargs !! "grid" = Some obj → array obj = Some a →
  square_grid a = inr (g, N) →
  init args kwargs0 =
    if bool_decide (Z.to_nat m * Z.to_nat n ≠ N)
    then inl (ValueError SizeDiffers)
    else inr (MkSudoku (Z.to_nat m * Z.to_nat n) (Z.to_nat m) (Z.to_nat n) g None).
Proof.
  intros Hpos Hm Hn Hm0 Hn0 Hgrid Harr Hsq. unfold init. rewrite Hpos.
  unfold sizes. rewrite Hm, Hn. simpl.
  rewrite (proj2 (Z.ltb_lt 0 m)), (proj2 (Z.ltb_lt 0 n)) by done.
  unfold build. rewrite Hgrid, Harr, Hsq. done.
Qed.

(** *** Every constructed object is well formed *)

Lemma positive_int_pos (v : pyobj) (k : nat) : positive_int v = Some k → 0 < k.
Proof.
  destruct v as [z| |]; try done. simpl.
  destruct (0 <? z)%Z eqn:E; [|done]. apply Z.ltb_lt in E.
  intros [= <-]. lia.
Qed.

Lemma sizes_pos (kwargs : gmap string pyobj) (om on : option nat) :
  sizes kwargs = inr (om, on) →
  match om, on with
  | Some m, Some n => 0 < m ∧ 0 < n
  | Some _, None => False
  | None, _ => True
  end.
Proof.
  unfold sizes.
  destruct (kwargs !! "m") as [vm|];
    [destruct (positive_int vm) as [m|] eqn:Em; [|done]|];
    (destruct (kwargs !! "n") as [vn|];
     [destruct (positive_int vn) as [n|] eqn:En; [|done]|]);
    intros [= <- <-]; eauto using positive_int_pos.
Qed.

Lemma square_grid_ok (a g : ndarray) (N : nat) :
  array_ok a → square_grid a = inr (g, N) → grid_ok g N.
Proof.
  unfold array_ok, square_grid, grid_ok. intros Ha.
  destruct (shape a) as [|n [|n' [|]]] eqn:Hs; try done.
  - case_bool_decide as Hn; [done|]. intros [= <- <-]. simpl in *.
    split; [done|]. lia.
  - case_bool_decide as Hn; [done|]. intros [= <- <-].
    subst n'. split; [done|]. simpl in Ha. lia.
Qed.

Lemma positional_grid (args : list pyobj) (i : nat)
    (kwargs kwargs' : gmap string pyobj) (a : ndarray) :
  positional i args kwargs = inr kwargs' →
  kwargs' !! "grid" = Some (PyArray a) →
  PyArray a ∈ args ∨ kwargs !! "grid" = Some (PyArray a).
Proof.
  revert i kwargs. induction args as [|arg args IH]; intros i kwargs Hpos Hg.
  { simpl in Hpos. injection Hpos as <-. by right. }
  simpl in Hpos.
  assert (∀ k v, k ≠ "grid" →
            positional (S i) args (<[k := v]> kwargs) = inr kwargs' →
            PyArray a ∈ arg :: args ∨ kwargs !! "grid" = Some (PyArray a))
    as Hother.
  { intros k v Hk H. destruct (IH _ _ H Hg) as [Hin|Hin]; [left; by right|].
    rewrite lookup_insert_ne in Hin by done. by right. }
  assert (positional (S i) args (<["grid" := arg]> kwargs) = inr kwargs' →
          PyArray a ∈ arg :: args ∨ kwargs !! "grid" = Some (PyArray a))
    as Hgrid.
  { intros H. destruct (IH _ _ H Hg) as [Hin|Hin]; [left; by right|].
    rewrite lookup_insert_eq in Hin. injection Hin as ->. left. left. }
  destruct arg as [z|b|].
  - case_bool_decide; [by apply (Hother "m" (PyInt z))|].
    case_bool_decide; [done|].
    case_bool_decide; [by apply (Hother "n" (PyInt z))|done].
  - case_bool_decide; [by apply Hgrid|done].
  - case_bool_decide; [by apply Hgrid|done].
Qed.

Lemma guess_wf (N m n : nat) (g : ndarray) :
  guess N = inr (m, n) → grid_ok g N → wf (MkSudoku N m n g None).
Proof.
  intros Hguess Hg. pose proof (guess_spec N) as H. rewrite Hguess in H.
  destruct H as (Hn & _ & _ & _ & Hmn & _).
  assert (0 < m) as Hm.
  { destruct m; [|lia]. simpl in Hmn. subst N. by vm_compute in Hguess. }
  unfold wf. simpl. split; [done|]. split; [done|]. split; [lia|done].
Qed.

(** [__init__] leaves a well-formed object without candidate store. *)
Lemma init_ready (args : list pyobj) (kwargs : gmap string pyobj) (s : Sudoku) :
  (∀ a, PyArray a ∈ args ∨ kwargs !! "grid" = Some (PyArray a) → array_ok a) →
  init args kwargs = inr s → ready s.
Proof.
  intros Harr. unfold init.
  destruct (positional 0 args kwargs) as [e|kw] eqn:Hpos; [done|].
  destruct (sizes kw) as [e|[om on]] eqn:Hsz; [done|].
  apply sizes_pos in Hsz. unfold build.
  destruct (kw !! "grid") as [obj|] eqn:Hgrid.
  - destruct (array obj) as [a|] eqn:Ha; [|done].
    destruct (square_grid a) as [e|[g N]] eqn:Hsq; [done|].
    assert (grid_ok g N) as Hg.
    { destruct obj as [z|b|]; simpl in Ha; try done.
      - injection Ha as <-. done.
      - injection Ha as <-. apply (square_grid_ok b); [|done].
        apply Harr. by apply (positional_grid args 0 kwargs kw). }
    destruct om as [m|], on as [n|]; try done.
    + case_bool_decide as Hmn; [done|].
      intros [= <-]. split; [|by left]. destruct Hsz as [Hm Hn].
      unfold wf. simpl. rewrite Hmn. by do 3 (split; [done|]).
    + destruct (guess N) as [e|[m n']] eqn:Hguess; [done|].
      intros [= <-]. split; [by apply guess_wf|by left].
    + destruct (guess N) as [e|[m n']] eqn:Hguess; [done|].
      intros [= <-]. split; [by apply guess_wf|by left].
  - destruct om as [m|], on as [n|]; try done.
    intros [= <-]. split; [|by left]. destruct Hsz as [Hm Hn].
    unfold wf, grid_ok, zeros. simpl.
    rewrite length_replicate. by repeat split.
Qed.

(** C7 (size inference and validation).  When a matrix of side [N] is given
    without [m] and [n], construction succeeds exactly when [N] has a
    divisor [n] with [1 < n <= floor(sqrt N)]; it then takes the largest one
    and [m = N / n], so [m * n = N]; otherwise, in particular for every
    prime [N], it fails with the size error "can't be written as m*n".  A
    flat matrix of 36 entries gives [N = 6], [(m, n) = (3, 2)]; a flat
    matrix of 49 entries fails.  When [m] and [n] are given with a matrix,
    construction fails with the size error "different from the given grid's
    size" whenever [m * n] is not the side of the matrix. *)
Theorem init_size_inference :
  (∀ args kwargs0 kwargs obj a g N,
     positional 0 args kwargs0 = inr kwargs →
     kwargs !! "m" = None → kwargs !! "n" = None →
     kwargs !! "grid" = Some obj → array obj = Some a →
     square_grid a = inr (g, N) →
     match init args kwargs0 with
     | inr s =>
         self_N s = N ∧ self_grid s = g ∧
         1 < self_n s ∧ self_n s ≤ Nat.sqrt N ∧ N mod self_n s = 0 ∧
         (∀ d, d ≤ Nat.sqrt N → N mod d = 0 → d ≤ self_n s) ∧
         self_m s = N / self_n s ∧ self_m s * self_n s = N
     | inl e =>
         e = ValueError SizeNotProduct ∧
         ∀ d, 1 < d → d ≤ Nat.sqrt N → N mod d ≠ 0
     end) ∧
  (∀ N, (∀ d, 1 < d < N → N mod d ≠ 0) →
        guess N = inl (ValueError SizeNotProduct)) ∧
  (∀ entries36 : list Z,
     init [PyArray (NdArray [36] entries36)] ∅ =
       inr (MkSudoku 6 3 2 (NdArray [6; 6] entries36) None)) ∧
  (∀ entries49 : list Z,
     init [PyArray (NdArray [49] entries49)] ∅ =
       inl (ValueError SizeNotProduct)) ∧
  (∀ args kwargs0 kwargs m n obj a g N,
     positional 0 args kwargs0 = inr kwargs →
     kwargs !! "m" = Some (PyInt m) → kwargs !! "n" = Some (PyInt n) →
     (0 < m)%Z → (0 < n)%Z →
     kwargs !! "grid" = Some obj → array obj = Some a →
     square_grid a = inr (g, N) →
     Z.to_nat m * Z.to_nat n ≠ N →
     init args kwargs0 = inl (ValueError SizeDiffers)).
Proof.
  split; [|split; [|split; [|split]]].
  - intros args kwargs0 kwargs obj a g N Hpos Hm Hn Hgrid Harr Hsq.
    rewrite (init_unsized _ _ _ _ _ _ _ Hpos Hm Hn Hgrid Harr Hsq).
    pose proof (guess_spec N) as H.
    destruct (guess N) as [e|[m n]]; [done|]. simpl. tauto.
  - apply guess_prime.
  - intros data. vm_compute. done.
  - intros data. vm_compute. done.
  - intros args kwargs0 kwargs m n obj a g N Hpos Hm Hn Hm0 Hn0 Hgrid Harr Hsq Hne.
    rewrite (init_sized _ _ _ _ _ _ _ _ _ Hpos Hm Hn Hm0 Hn0 Hgrid Harr Hsq).
    by rewrite bool_decide_eq_true_2.
Qed.

Lemma positional_no_int (args : list pyobj) (i : nat)
    (kwargs kwargs' : gmap string pyobj) :
  Forall (λ a, ∀ z, a ≠ PyInt z) args → kwargs !! "m" = None →
  positional i args kwargs = inr kwargs' → kwargs' !! "m" = None.
Proof.
  revert i kwargs. induction args as [|a args IH]; intros i kwargs Hargs Hm Hpos.
  { simpl in Hpos. by injection Hpos as <-. }
  inversion Hargs as [|? ? Ha Hargs']; subst. simpl in Hpos.
  destruct a as [z| |]; [by destruct (Ha z)| |];
    (case_bool_decide; [|done]);
    apply IH in Hpos; try done; by rewrite lookup_insert_ne.
Qed.

(** C10 (no default block size).  [Sudoku()] with no argument at all fails
    with "Either the size or the grid must be given."; the class attribute
    [default = {'m': 3}] plays no part: whenever no integer is passed
    positionally and no [m] by keyword, construction either fails or takes
    the block shape guessed from the side of the given grid. *)
Theorem init_no_default :
  init [] ∅ = inl (ValueError SizeOrGridMissing) ∧
  message SizeOrGridMissing = "Either the size or the grid must be given." ∧
  default !! "m" = Some (PyInt 3) ∧
  (∀ args kwargs,
     Forall (λ a, ∀ z, a ≠ PyInt z) args → kwargs !! "m" = None →
     match init args kwargs with
     | inl _ => True
     | inr s => guess (self_N s) = inr (self_m s, self_n s)
     end).
Proof.
  split; [done|]. split; [done|]. split; [done|].
  intros args kwargs Hargs Hm. unfold init.
  destruct (positional 0 args kwargs) as [e|kw] eqn:Hpos; [done|].
  pose proof (positional_no_int _ _ _ _ Hargs Hm Hpos) as Hm'.
  unfold sizes. rewrite Hm'.
  assert (∀ on : option nat,
    match build kw None on with
    | inl _ => True
    | inr s => guess (self_N s) = inr (self_m s, self_n s)
    end) as Hrest.
  { intros on. unfold build. destruct (kw !! "grid") as [obj|]; [|done].
    destruct (array obj) as [grid|]; [|done].
    destruct (square_grid grid) as [e|[g N]]; [done|].
    destruct (guess N) as [e|[m n]] eqn:Hg; done. }
  destruct (kw !! "n") as [v|].
  - destruct (positive_int v) as [k|]; [|done]. apply Hrest.
  - apply Hrest.
Qed.

(** ** The passes of [find_only] *)

Lemma same_sizes_refl (s : Sudoku) : same_sizes s s.
Proof. done. Qed.

Lemma same_sizes_trans (s1 s2 s3 : Sudoku) :
  same_sizes s1 s2 → same_sizes s2 s3 → same_sizes s1 s3.
Proof. unfold same_sizes. intuition congruence. Qed.

Lemma keeps_sizes_ret {A} (a : A) : keeps_sizes (ret a).
Proof. intros s. apply same_sizes_refl. Qed.

Lemma keeps_sizes_raise {A} (e : exn) : keeps_sizes (raise (A:=A) e).
Proof. intros s. apply same_sizes_refl. Qed.

Lemma keeps_sizes_bind {A B} (c : M A) (k : A → M B) :
  keeps_sizes c → (∀ a, keeps_sizes (k a)) → keeps_sizes (bind c k).
Proof.
  intros Hc Hk s. unfold bind. specialize (Hc s).
  destruct (c s) as [[e|a] s1]; [done|].
  eapply same_sizes_trans; [exact Hc|apply Hk].
Qed.

Lemma keeps_sizes_for_acc {A B} (l : list A) (acc : B) (body : A → B → M B) :
  (∀ x a, keeps_sizes (body x a)) → keeps_sizes (for_acc l acc body).
Proof.
  intros Hb. revert acc. induction l as [|x l IH]; intros acc; simpl.
  - apply keeps_sizes_ret.
  - apply keeps_sizes_bind; auto.
Qed.

Lemma keeps_sizes_make_poss_dict : keeps_sizes make_poss_dict.
Proof.
  intros s. unfold make_poss_dict.
  by destruct (poss_comprehension s (all s) ∅).
Qed.

Lemma keeps_sizes_make_poss_dict_eq (s s1 : Sudoku) (r : exn + unit) :
  make_poss_dict s = (r, s1) → same_sizes s s1.
Proof.
  intros H. pose proof (keeps_sizes_make_poss_dict s) as Hk.
  by rewrite H in Hk.
Qed.

Lemma keeps_sizes_only_in_range (rng : list cell) :
  keeps_sizes (only_in_range rng).
Proof.
  unfold only_in_range. apply keeps_sizes_bind.
  { intros s. unfold ensure_poss. destruct (poss_missing s);
      [apply keeps_sizes_make_poss_dict|apply keeps_sizes_ret]. }
  intros _. apply keeps_sizes_bind.
  { intros t. unfold get_poss. by destruct (self_poss t). }
  intros p. destruct (tally p rng []);
    [apply keeps_sizes_ret|apply keeps_sizes_raise].
Qed.

Lemma keeps_sizes_set (i j : nat) (v : Z) : keeps_sizes (set i j v).
Proof.
  intros s. unfold set.
  destruct (grid_get (self_grid s) i j) as [w|]; [|done].
  destruct (bool_decide (w = 0%Z)); [|done]. simpl.
  destruct (self_poss s); [|done].
  by destruct (discard_all _ _ _) as [[] ?].
Qed.

Lemma keeps_sizes_scan_range {A} (body : cell * Z → A → M A) rng acc :
  (∀ x a, keeps_sizes (body x a)) → keeps_sizes (scan_range body rng acc).
Proof.
  intros Hb. apply keeps_sizes_bind; [apply keeps_sizes_only_in_range|].
  intros d. by apply keeps_sizes_for_acc.
Qed.

Lemma scan_ranges_of_sizes (s s' : Sudoku) (k : nat) :
  same_sizes s s' → scan_ranges_of s k = scan_ranges_of s' k.
Proof.
  intros (HN & Hm & Hn). unfold scan_ranges_of, row, col, region.
  by rewrite HN, Hm, Hn.
Qed.

Lemma for_acc_app {A B} (l1 l2 : list A) (acc : B) (body : A → B → M B) s :
  for_acc (l1 ++ l2) acc body s =
  (acc' <- for_acc l1 acc body ;; for_acc l2 acc' body) s.
Proof.
  revert acc s. induction l1 as [|x l1 IH]; intros acc s; [done|].
  simpl. unfold bind. destruct (body x acc s) as [[e|a] s1]; [done|].
  rewrite IH. done.
Qed.

(** A pass of [find_only] hands the ranges of [scan_ranges], in that order
    and each once, to [only_in_range], whatever the consumer does with the
    pairs, as long as it leaves the sizes alone. *)
Lemma find_only_ranges {A} (body : cell * Z → A → M A) (acc : A) (s : Sudoku) :
  (∀ x a, keeps_sizes (body x a)) →
  find_only body acc s = for_acc (scan_ranges s) acc (scan_range body) s.
Proof.
  intros Hb. unfold find_only, scan_ranges.
  assert (∀ ks t a, same_sizes s t →
    for_acc ks a (λ k acc0 s',
      for_acc (scan_ranges_of s' k) acc0 (scan_range body) s') t =
    for_acc (flat_map (scan_ranges_of s) ks) a (scan_range body) t) as H.
  { induction ks as [|k ks IH]; intros t a Ht; [done|].
    cbn [for_acc flat_map]. rewrite for_acc_app. unfold bind.
    rewrite <- (scan_ranges_of_sizes s t k Ht).
    pose proof (keeps_sizes_for_acc (scan_ranges_of s k) a (scan_range body)
                  (λ r a0, keeps_sizes_scan_range body r a0 Hb) t) as Hk.
    destruct (for_acc (scan_ranges_of s k) a (scan_range body) t)
      as [[e|a'] t']; [done|].
    apply IH. by eapply same_sizes_trans. }
  apply H, same_sizes_refl.
Qed.

Lemma anchor_region (s : Sudoku) (k x y : nat) :
  0 < self_m s → 0 < self_n s →
  (x, y) ∈ region s k (k mod self_m s * self_n s) ↔
  x / self_m s = k / self_m s ∧ y / self_n s = k mod self_m s.
Proof.
  intros Hm Hn. rewrite elem_of_region by done.
  rewrite Nat.div_mul by lia. done.
Qed.

Lemma region_of_cell (s : Sudoku) (x y : nat) :
  wf s → x < self_N s → y < self_N s →
  ∃ k, (k < self_N s ∧ (x, y) ∈ region s k (k mod self_m s * self_n s)) ∧
       ∀ k', k' < self_N s ∧ (x, y) ∈ region s k' (k' mod self_m s * self_n s)
             → k' = k.
Proof.
  intros (HN & Hm & Hn & _) Hx Hy.
  set (m := self_m s) in *. set (n := self_n s) in *.
  assert (x / m < n) as Hxm by (apply Nat.Div0.div_lt_upper_bound; lia).
  assert (y / n < m) as Hyn by (apply Nat.Div0.div_lt_upper_bound; lia).
  exists (x / m * m + y / n). split; [split|].
  - rewrite HN. nia.
  - apply anchor_region; [done..|]. fold m n. split.
    + apply (Nat.div_unique _ m (x / m) (y / n)); lia.
    + apply (Nat.mod_unique _ m (x / m) (y / n)); lia.
  - intros k' [Hk' Hin]. apply anchor_region in Hin as [H1 H2]; [|done..].
    fold m n in H1, H2. pose proof (Nat.div_mod_eq k' m). lia.
Qed.

(** C5 (scan coverage).  On a well-formed object a pass of [find_only]
    hands to [only_in_range] exactly the ranges [row(k)], [col(k)],
    [region(k, k % m * n)] for [k = 0 .. N-1], in this order and each once:
    3N ranges; a pass is the loop over these ranges that calls
    [only_in_range] on the range and runs the consumer on each pair of
    the dictionary returned.  Every cell of the grid lies in exactly one
    of the N rows, in exactly one of the N columns and in exactly one of
    the N regions so scanned; the region scanned for [k] is the m x n block
    whose top-left corner is [(k // m * m, k % m * n)], and it lies inside
    the grid. *)
Theorem scan_coverage (s : Sudoku) :
  wf s →
  (∀ (A : Type) (body : cell * Z → A → M A) (acc : A),
     (∀ x a, keeps_sizes (body x a)) →
     find_only body acc s =
     for_acc (scan_ranges s) acc
       (λ rng acc, d <- only_in_range rng ;; for_acc d acc body) s) ∧
  scan_ranges s =
    flat_map (λ k, [row s k; col s k;
                    region s k (k mod self_m s * self_n s)])
             (seq 0 (self_N s)) ∧
  length (scan_ranges s) = 3 * self_N s ∧
  (∀ x y, x < self_N s → y < self_N s →
     (∃ k, (k < self_N s ∧ (x, y) ∈ row s k) ∧
           ∀ k', k' < self_N s ∧ (x, y) ∈ row s k' → k' = k) ∧
     (∃ k, (k < self_N s ∧ (x, y) ∈ col s k) ∧
           ∀ k', k' < self_N s ∧ (x, y) ∈ col s k' → k' = k) ∧
     (∃ k, (k < self_N s ∧
            (x, y) ∈ region s k (k mod self_m s * self_n s)) ∧
           ∀ k', k' < self_N s ∧
                 (x, y) ∈ region s k' (k' mod self_m s * self_n s) → k' = k)) ∧
  (∀ k x y, k < self_N s →
     ((x, y) ∈ region s k (k mod self_m s * self_n s) ↔
      k / self_m s * self_m s ≤ x < k / self_m s * self_m s + self_m s ∧
      k mod self_m s * self_n s ≤ y < k mod self_m s * self_n s + self_n s) ∧
     ((x, y) ∈ region s k (k mod self_m s * self_n s) →
      x < self_N s ∧ y < self_N s)).
Proof.
  intros Hwf. pose proof Hwf as (HN & Hm & Hn & _).
  split; [|split; [|split; [|split]]].
  - intros A body acc Hb. by rewrite find_only_ranges.
  - done.
  - unfold scan_ranges.
    assert (∀ l, length (flat_map (scan_ranges_of s) l) = 3 * length l) as H.
    { induction l as [|k l IH]; [done|]. simpl. rewrite IH. lia. }
    rewrite H. f_equal. apply length_seq.
  - intros x y Hx Hy. split; [|split].
    + exists x. split; [by rewrite elem_of_row|].
      intros k' [_ H]. apply elem_of_row in H. lia.
    + exists y. split; [by rewrite elem_of_col|].
      intros k' [_ H]. apply elem_of_col in H. lia.
    + by apply region_of_cell.
  - intros k x y Hk. split.
    + unfold region at 1. rewrite elem_of_block.
      rewrite Nat.div_mul by lia. done.
    + intros H. apply anchor_region in H as [H1 H2]; [|done..].
      assert (k mod self_m s < self_m s) by (apply Nat.mod_upper_bound; lia).
      rewrite HN in *. split.
      * by apply (block_lt _ _ k).
      * pose proof (Nat.div_mod_eq y (self_n s)).
        pose proof (Nat.mod_upper_bound y (self_n s)). nia.
Qed.

(** ** Insertion-ordered dictionaries *)

Section OrderedDictFacts.
Context {K V : Type} `{EqDecision K}.
Implicit Types (d : list (K * V)) (k : K) (v : V).

Lemma od_get_set d k v k' :
  od_get (od_set d k v) k' = if decide (k = k') then Some v else od_get d k'.
Proof.
  induction d as [|[k0 v0] d IH]; simpl.
  - destruct (decide (k = k')); done.
  - destruct (decide (k0 = k)) as [->|Hne]; simpl.
    + destruct (decide (k = k')); done.
    + destruct (decide (k0 = k')) as [->|Hne'].
      * by rewrite decide_False by done.
      * done.
Qed.

Lemma od_get_None d k : od_get d k = None ↔ k ∉ d.*1.
Proof.
  induction d as [|[k0 v0] d IH]; simpl.
  - split; [intros _; apply not_elem_of_nil|done].
  - rewrite not_elem_of_cons. destruct (decide (k0 = k)) as [->|Hne].
    + split; [done|]. intros [H _]. done.
    + rewrite IH. split; [|tauto]. intros H. split; [congruence|done].
Qed.

Lemma od_mem_true d k : od_mem d k = true ↔ k ∈ d.*1.
Proof.
  unfold od_mem. rewrite bool_decide_eq_true.
  rewrite <- not_eq_None_Some, od_get_None.
  destruct (decide (k ∈ d.*1)); tauto.
Qed.

Lemma od_set_fresh d k v : k ∉ d.*1 → od_set d k v = d ++ [(k, v)].
Proof.
  induction d as [|[k0 v0] d IH]; simpl; [done|].
  rewrite not_elem_of_cons. intros [H1 H2].
  rewrite decide_False by congruence. by rewrite IH.
Qed.

Lemma od_set_keys d k v :
  (od_set d k v).*1 = if decide (k ∈ d.*1) then d.*1 else d.*1 ++ [k].
Proof.
  induction d as [|[k0 v0] d IH].
  - done.
  - cbn [od_set]. rewrite !fmap_cons.
    destruct (decide (k0 = k)) as [->|Hne]; rewrite ?fmap_cons; cbn [fst].
    + by rewrite decide_True by left.
    + rewrite IH. destruct (decide (k ∈ d.*1)) as [Hin|Hin].
      * by rewrite decide_True by (by right).
      * rewrite decide_False; [done|].
        rewrite not_elem_of_cons. split; [congruence|done].
Qed.

Lemma od_set_NoDup d k v : NoDup d.*1 → NoDup (od_set d k v).*1.
Proof.
  intros Hd. rewrite od_set_keys. destruct (decide (k ∈ d.*1)); [done|].
  apply NoDup_app. split; [done|]. split.
  - intros x Hx Hx'. apply list_elem_of_singleton in Hx'. by subst.
  - apply NoDup_singleton.
Qed.

Lemma od_get_Some_elem_of d k v :
  NoDup d.*1 → od_get d k = Some v ↔ (k, v) ∈ d.
Proof.
  induction d as [|[k0 v0] d IH]; simpl; intros Hd.
  - split; [done|]. intros H. by apply elem_of_nil in H.
  - apply NoDup_cons in Hd as [Hk0 Hd]. rewrite elem_of_cons.
    destruct (decide (k0 = k)) as [->|Hne].
    + split; [intros [= ->]; by left|].
      intros [[= ->]|Hin]; [done|]. exfalso. apply Hk0.
      apply list_elem_of_fmap. by exists (k, v).
    + rewrite IH by done. split; [by right|].
      intros [[= -> ->]|Hin]; done.
Qed.
End OrderedDictFacts.

(** ** The tally of [only_in_range] *)

Lemma filter_ext_in {A} (P Q : A → Prop) `{∀ x, Decision (P x)}
    `{∀ x, Decision (Q x)} (l : list A) :
  (∀ x, x ∈ l → (P x ↔ Q x)) → filter P l = filter Q l.
Proof.
  induction l as [|a l IH]; intros Hl; [done|].
  rewrite !filter_cons. rewrite IH by (intros x Hx; apply Hl; by right).
  destruct (decide (P a)) as [HP|HP], (decide (Q a)) as [HQ|HQ]; try done;
    exfalso; apply (Hl a) in HP || apply (Hl a) in HQ; try done; by left.
Qed.

Lemma filter_all {A} (P : A → Prop) `{∀ x, Decision (P x)} (l : list A) :
  (∀ x, x ∈ l → P x) → filter P l = l.
Proof.
  induction l as [|a l IH]; intros Hl; [done|].
  rewrite filter_cons_True by (apply Hl; by left).
  by rewrite IH by (intros x Hx; apply Hl; by right).
Qed.

Lemma filter_fmap_snd {A} (Q : Z → Prop) `{∀ x, Decision (Q x)}
    (l : list (A * Z)) :
  (filter (λ e, Q e.2) l).*2 = filter Q l.*2.
Proof.
  induction l as [|a l IH]; [done|]. rewrite fmap_cons, !filter_cons.
  destruct (decide (Q a.2)); by rewrite ?fmap_cons, IH.
Qed.

Lemma found_of_app L1 L2 f : found_of (L1 ++ L2) f = found_of L2 (found_of L1 f).
Proof. unfold found_of. apply fold_left_app. Qed.

Lemma fold_found_step xy (vs : list Z) f :
  fold_left (found_step xy) vs f = found_of (map (λ v, (xy, v)) vs) f.
Proof. revert f. induction vs as [|v vs IH]; intros f; [done|]. simpl. apply IH. Qed.

Lemma tally_pairs (p : gmap cell (list Z)) (R : list cell) f :
  (∀ c, c ∈ R → is_Some (p !! c)) →
  tally p R f = Some (found_of (pairs p R) f).
Proof.
  revert f. induction R as [|c R IH]; intros f HR; [done|].
  cbn [tally]. destruct (HR c) as [vs Hvs]; [by left|]. rewrite Hvs.
  rewrite IH by (intros c' Hc'; apply HR; by right).
  change (pairs p (c :: R))
    with (map (λ v, (c, v)) (cands p c) ++ pairs p R).
  rewrite found_of_app. unfold cands. rewrite Hvs.
  by rewrite fold_found_step.
Qed.

Lemma found_step_keys xy f v w :
  w ∈ (found_step xy f v).*1 ↔ w ∈ f.*1 ∨ w = v.
Proof.
  unfold found_step. rewrite od_set_keys.
  destruct (decide (v ∈ f.*1)) as [Hv|Hv].
  - split; [by left|]. intros [H|H]; [done|by subst].
  - by rewrite elem_of_app, list_elem_of_singleton.
Qed.

Lemma found_of_keys L f w :
  w ∈ (found_of L f).*1 ↔ w ∈ f.*1 ∨ w ∈ L.*2.
Proof.
  revert f. induction L as [|[xy v] L IH]; intros f.
  - simpl. split; [by left|]. intros [?|H]; [done|]. by apply elem_of_nil in H.
  - change (found_of ((xy, v) :: L) f) with (found_of L (found_step xy f v)).
    rewrite IH, found_step_keys, fmap_cons, elem_of_cons. simpl. tauto.
Qed.

Lemma found_of_NoDup L f : NoDup f.*1 → NoDup (found_of L f).*1.
Proof.
  revert f. induction L as [|[xy v] L IH]; intros f Hf; [done|].
  change (found_of ((xy, v) :: L) f) with (found_of L (found_step xy f v)).
  apply IH. by apply od_set_NoDup.
Qed.

Lemma located_app c f1 f2 : located c (f1 ++ f2) = located c f1 ++ located c f2.
Proof. unfold located. by rewrite filter_app, fmap_app. Qed.

Lemma located_subseteq c f w : w ∈ located c f → w ∈ f.*1.
Proof.
  unfold located. intros H. apply list_elem_of_fmap in H as (e & -> & He).
  apply list_elem_of_filter in He as [_ He]. apply list_elem_of_fmap. eauto.
Qed.

Lemma located_cons c v (o : option cell) f :
  located c ((v, o) :: f) =
    if decide (o = Some c) then v :: located c f else located c f.
Proof.
  unfold located. rewrite filter_cons. simpl.
  by destruct (decide (o = Some c)).
Qed.

Lemma located_set_None c (f : list (Z * option cell)) v :
  NoDup f.*1 → located c (od_set f v None) = filter (λ w, w ≠ v) (located c f).
Proof.
  induction f as [|[v0 o0] f IH]; intros Hf.
  - done.
  - rewrite fmap_cons in Hf. apply NoDup_cons in Hf as [Hv0 Hf].
    cbn [od_set]. destruct (decide (v0 = v)) as [->|Hne].
    + rewrite !located_cons. rewrite decide_False by done.
      assert (filter (λ w, w ≠ v) (located c f) = located c f) as Hid.
      { apply filter_all. intros w Hw ->. apply Hv0.
        by apply (located_subseteq c). }
      destruct (decide (o0 = Some c)).
      * rewrite filter_cons_False by (intros H; by apply H). by rewrite Hid.
      * by rewrite Hid.
    + rewrite !located_cons.
      destruct (decide (o0 = Some c)).
      * rewrite filter_cons_True by done. by rewrite IH.
      * by rewrite IH.
Qed.

Lemma located_step c xy (f : list (Z * option cell)) v :
  NoDup f.*1 →
  located c (found_step xy f v) =
    if decide (v ∈ f.*1) then filter (λ w, w ≠ v) (located c f)
    else located c f ++ (if decide (xy = c) then [v] else []).
Proof.
  intros Hf. unfold found_step.
  destruct (decide (v ∈ f.*1)) as [Hv|Hv].
  - rewrite (proj2 (od_mem_true f v) Hv). by apply located_set_None.
  - destruct (od_mem f v) eqn:E; [by apply od_mem_true in E|].
    rewrite od_set_fresh by done. rewrite located_app. f_equal.
    rewrite located_cons.
    destruct (decide (xy = c)) as [->|Hne].
    + by rewrite decide_True.
    + rewrite decide_False; [done|]. congruence.
Qed.

Lemma occ_app v L1 L2 : occ v (L1 ++ L2) = occ v L1 + occ v L2.
Proof. unfold occ. by rewrite filter_app, length_app. Qed.

Lemma occ_single v xy w : occ v [(xy, w)] = if decide (w = v) then 1 else 0.
Proof.
  unfold occ. rewrite filter_cons, filter_nil. simpl.
  by destruct (decide (w = v)).
Qed.

Lemma occ_zero v L : occ v L = 0 ↔ v ∉ L.*2.
Proof.
  unfold occ. rewrite length_zero_iff_nil. split.
  - intros Hnil Hin. apply list_elem_of_fmap in Hin as ([xy w] & -> & Hin).
    by apply (filter_nil_not_elem_of _ _ (xy, w) Hnil).
  - intros Hv. destruct (filter _ L) as [|e l] eqn:E; [done|].
    assert (e ∈ filter (λ e : cell * Z, e.2 = v) L) as He by (rewrite E; left).
    apply list_elem_of_filter in He as [<- He]. exfalso. apply Hv.
    apply list_elem_of_fmap. eauto.
Qed.

Lemma sole_snoc c L xy v :
  sole c (L ++ [(xy, v)]) =
    if decide (v ∈ L.*2) then filter (λ w, w ≠ v) (sole c L)
    else sole c L ++ (if decide (xy = c) then [v] else []).
Proof.
  unfold sole. rewrite filter_app, fmap_app.
  destruct (decide (v ∈ L.*2)) as [Hv|Hv].
  - assert (occ v L ≠ 0) as Hocc by (by rewrite occ_zero; intros H; apply H).
    rewrite filter_cons_False, filter_nil, app_nil_r; last first.
    { simpl. rewrite occ_app, occ_single, decide_True by done. lia. }
    rewrite <- (filter_fmap_snd (λ w, w ≠ v)), list_filter_filter. f_equal.
    apply filter_ext_in. intros [xy' w] Hin. simpl.
    rewrite occ_app, occ_single. destruct (decide (v = w)) as [->|Hne].
    + split; [intros [_ H]; lia|]. intros [H _]. done.
    + rewrite Nat.add_0_r. split; [intros [? ?]|tauto].
      split; [congruence|done].
  - assert (occ v L = 0) as Hocc by (by apply occ_zero).
    f_equal.
    + f_equal. apply filter_ext_in. intros [xy' w] Hin. simpl.
      rewrite occ_app, occ_single. rewrite decide_False; [by rewrite Nat.add_0_r|].
      intros ->. apply Hv. apply list_elem_of_fmap. exists (xy', w). by split.
    + rewrite filter_cons, filter_nil. simpl.
      rewrite occ_app, occ_single, Hocc.
      destruct (decide (v = v)); [|done].
      destruct (decide (xy = c)) as [->|Hne].
      * by rewrite decide_True.
      * rewrite decide_False; [done|]. tauto.
Qed.

(** The values that [found] records with location [c] are those visited
    at [c] and nowhere else, in the order of their visit. *)
Lemma located_found_of c L : located c (found_of L []) = sole c L.
Proof.
  induction L as [|[xy v] L IH] using rev_ind; [done|].
  rewrite found_of_app, sole_snoc.
  change (found_of [(xy, v)] (found_of L []))
    with (found_step xy (found_of L []) v).
  rewrite located_step by (apply found_of_NoDup, NoDup_nil_2).
  rewrite IH.
  destruct (decide (v ∈ (found_of L []).*1)) as [Hv|Hv],
           (decide (v ∈ L.*2)) as [Hv'|Hv']; try done;
    rewrite found_of_keys in Hv; exfalso.
  - destruct Hv as [Hv|Hv]; [|done]. by apply elem_of_nil in Hv.
  - apply Hv. by right.
Qed.

Lemma placements_from_get c (found : list (Z * option cell)) (d0 : list (cell * Z)) :
  od_get (fold_left (λ d e, match e.2 with
                            | Some xy => od_set d xy e.1
                            | None => d
                            end) found d0) c =
  match last (located c found) with
  | Some v => Some v
  | None => od_get d0 c
  end.
Proof.
  revert d0. induction found as [|[v o] found IH]; intros d0; [done|].
  cbn [fold_left]. rewrite IH, located_cons. simpl.
  destruct o as [xy|].
  - destruct (decide (Some xy = Some c)) as [[= ->]|Hne].
    + rewrite last_cons, od_get_set, decide_True by done.
      by destruct (last (located c found)).
    + rewrite od_get_set, decide_False by congruence. done.
  - by rewrite decide_False.
Qed.

Lemma placements_get c found : od_get (placements found) c = last (located c found).
Proof.
  unfold placements. rewrite placements_from_get.
  by destruct (last (located c found)).
Qed.

Lemma placements_NoDup found : NoDup (placements found).*1.
Proof.
  unfold placements.
  assert (∀ d0 : list (cell * Z), NoDup d0.*1 →
    NoDup (fold_left (λ d e, match e.2 with
                             | Some xy => od_set d xy e.1
                             | None => d
                             end) found d0).*1) as H.
  { induction found as [|[v o] found IH]; intros d0 Hd0; [done|].
    cbn [fold_left]. apply IH. simpl. destruct o; [|done].
    by apply od_set_NoDup. }
  apply H, NoDup_nil_2.
Qed.

Lemma elem_of_pairs (p : gmap cell (list Z)) (R : list cell) c v :
  (c, v) ∈ pairs p R ↔ c ∈ R ∧ v ∈ cands p c.
Proof.
  unfold pairs. rewrite list_elem_of_In, in_flat_map. split.
  - intros (c' & Hc' & Hin). apply in_map_iff in Hin as (v' & [= <- <-] & Hv').
    by rewrite !list_elem_of_In.
  - intros [Hc Hv]. exists c. rewrite <- list_elem_of_In. split; [done|].
    apply in_map_iff. exists v. by rewrite <- list_elem_of_In.
Qed.

Lemma filter_pairs_at (p : gmap cell (list Z)) (R : list cell) c
    (Q : Z → Prop) `{∀ v, Decision (Q v)} :
  NoDup R →
  (filter (λ e : cell * Z, e.1 = c ∧ Q e.2) (pairs p R)).*2 =
    if decide (c ∈ R) then filter Q (cands p c) else [].
Proof.
  assert (∀ a (vs : list Z),
    (filter (λ e : cell * Z, e.1 = c ∧ Q e.2) (map (λ v, (a, v)) vs)).*2 =
      if decide (a = c) then filter Q vs else []) as Hone.
  { intros a vs. induction vs as [|v vs IH].
    - by destruct (decide (a = c)).
    - cbn [map]. rewrite filter_cons. simpl. destruct (decide (a = c)) as [->|Hne].
      + rewrite filter_cons. destruct (decide (Q v)) as [HQ|HQ].
        * rewrite decide_True by done. by rewrite fmap_cons, IH.
        * rewrite decide_False by tauto. done.
      + rewrite decide_False by tauto. done. }
  induction R as [|a R IH]; intros HR; [done|].
  apply NoDup_cons in HR as [Ha HR].
  change (pairs p (a :: R)) with (map (λ v, (a, v)) (cands p a) ++ pairs p R).
  rewrite filter_app, fmap_app, Hone, IH by done.
  destruct (decide (a = c)) as [->|Hne].
  - destruct (decide (c ∈ R)) as [Hc|Hc]; [done|].
    destruct (decide (c ∈ c :: R)) as [_|Hc']; [by rewrite app_nil_r|].
    exfalso. apply Hc'. left.
  - simpl. destruct (decide (c ∈ R)) as [Hc|Hc],
                    (decide (c ∈ a :: R)) as [Hc'|Hc']; try done.
    + exfalso. apply Hc'. by right.
    + apply elem_of_cons in Hc' as [->|Hc']; done.
Qed.

Lemma occ_pairs (p : gmap cell (list Z)) (R : list cell) v :
  (∀ c, c ∈ R → NoDup (cands p c)) →
  occ v (pairs p R) = length (holders p R v).
Proof.
  assert (∀ a (vs : list Z), NoDup vs →
    occ v (map (λ w, (a, w)) vs) = if decide (v ∈ vs) then 1 else 0) as Hone.
  { intros a vs. induction vs as [|w vs IH]; intros Hvs; [done|].
    apply NoDup_cons in Hvs as [Hw Hvs]. cbn [map].
    change ((a, w) :: map (λ w, (a, w)) vs) with ([(a, w)] ++ map (λ w, (a, w)) vs).
    rewrite occ_app, occ_single, IH by done.
    destruct (decide (w = v)) as [->|Hne].
    - destruct (decide (v ∈ vs)) as [Hv|Hv]; [done|].
      destruct (decide (v ∈ v :: vs)) as [_|Hv']; [done|].
      exfalso. apply Hv'. left.
    - destruct (decide (v ∈ vs)) as [Hv|Hv],
               (decide (v ∈ w :: vs)) as [Hv'|Hv']; try done.
      + exfalso. apply Hv'. by right.
      + apply elem_of_cons in Hv' as [->|Hv']; done. }
  induction R as [|a R IH]; intros HR; [done|].
  change (pairs p (a :: R)) with (map (λ v, (a, v)) (cands p a) ++ pairs p R).
  rewrite occ_app, Hone, IH by (first [apply HR; by left | intros c Hc; apply HR; by right]).
  unfold holders. rewrite filter_cons.
  destruct (decide (v ∈ cands p a)); simpl; lia.
Qed.

Lemma placements_pairs_get (p : gmap cell (list Z)) (R : list cell) c :
  NoDup R → (∀ c, c ∈ R → NoDup (cands p c)) →
  od_get (placements (found_of (pairs p R) [])) c =
    if decide (c ∈ R)
    then last (filter (λ v, length (holders p R v) = 1) (cands p c))
    else None.
Proof.
  intros HR Hsets. rewrite placements_get, located_found_of. unfold sole.
  pose proof (filter_pairs_at p R c (λ v, occ v (pairs p R) = 1) HR) as E.
  cbv beta in E. rewrite E.
  destruct (decide (c ∈ R)); [|done]. f_equal.
  apply filter_ext_in. intros v _. by rewrite occ_pairs.
Qed.

Lemma only_in_range_ready (s : Sudoku) (p : gmap cell (list Z)) (R : list cell) :
  poss_missing s = false → self_poss s = Some p →
  (∀ c, c ∈ R → is_Some (p !! c)) →
  only_in_range R s = (inr (placements (found_of (pairs p R) [])), s).
Proof.
  intros Hmiss Hp HR. unfold only_in_range, bind, ensure_poss. rewrite Hmiss.
  unfold ret, get_poss. rewrite Hp. by rewrite tally_pairs.
Qed.

Lemma holders_single (p : gmap cell (list Z)) (R : list cell) c v :
  c ∈ R → v ∈ cands p c → length (holders p R v) = 1 → holders p R v = [c].
Proof.
  intros Hc Hv Hlen.
  assert (c ∈ holders p R v) as Hin by (by apply list_elem_of_filter).
  destruct (holders p R v) as [|a [|b l]]; try done.
  apply list_elem_of_singleton in Hin. by subst.
Qed.

(** C4 (unique-placement scan).  Let [R] be a range of distinct cells (such
    as a row, a column or a region), each with a candidate set in the
    store.  [only_in_range(R)] returns a dictionary [D] from cells to
    values with: a pair [c -> v] in [D] only if [c] is the one and only
    cell of [R] whose candidate set holds [v]; every value held by exactly
    one cell [c] of [R] makes [c] a key of [D]; a value held by no cell or
    by two or more cells of [R] occurs nowhere in [D]; and [D[c]] is, among
    the values whose only cell is [c], the one met last when iterating the
    candidate set of [c]. *)
Theorem only_in_range_correct (s : Sudoku) (p : gmap cell (list Z))
    (R : list cell) :
  poss_missing s = false → self_poss s = Some p →
  NoDup R →
  (∀ c, c ∈ R → is_Some (p !! c) ∧ NoDup (cands p c)) →
  ∃ D, only_in_range R s = (inr D, s) ∧
       NoDup D.*1 ∧
       (∀ c, od_get D c =
             if decide (c ∈ R)
             then last (filter (λ v, length (holders p R v) = 1) (cands p c))
             else None) ∧
       (∀ c v, (c, v) ∈ D → holders p R v = [c]) ∧
       (∀ c v, holders p R v = [c] →
               ∃ v', (c, v') ∈ D ∧ holders p R v' = [c]) ∧
       (∀ c v, length (holders p R v) ≠ 1 → (c, v) ∉ D).
Proof.
  intros Hmiss Hp HR Hsets.
  exists (placements (found_of (pairs p R) [])).
  pose proof (placements_NoDup (found_of (pairs p R) [])) as Hnd.
  assert (∀ c, od_get (placements (found_of (pairs p R) [])) c =
            if decide (c ∈ R)
            then last (filter (λ v, length (holders p R v) = 1) (cands p c))
            else None) as Hget.
  { intros c. apply placements_pairs_get; [done|]. intros c' Hc'. by apply Hsets. }
  assert (∀ c v, (c, v) ∈ placements (found_of (pairs p R) []) →
            c ∈ R ∧ v ∈ cands p c ∧ length (holders p R v) = 1) as Hsound.
  { intros c v Hin. apply od_get_Some_elem_of in Hin; [|done].
    rewrite Hget in Hin. destruct (decide (c ∈ R)) as [Hc|Hc]; [|done].
    apply last_Some_elem_of, list_elem_of_filter in Hin. tauto. }
  split; [|split; [done|split; [done|split; [|split]]]].
  - apply only_in_range_ready; [done..|]. intros c Hc. by apply Hsets.
  - intros c v Hin. apply Hsound in Hin as (Hc & Hv & Hlen).
    by apply holders_single.
  - intros c v Hh.
    assert (c ∈ holders p R v) as Hin by (rewrite Hh; left).
    apply list_elem_of_filter in Hin as [Hv Hc].
    destruct (last (filter (λ v, length (holders p R v) = 1) (cands p c)))
      as [v'|] eqn:Hlast.
    + exists v'. split.
      * apply od_get_Some_elem_of; [done|]. rewrite Hget.
        by rewrite decide_True.
      * apply last_Some_elem_of, list_elem_of_filter in Hlast as [Hl Hv'].
        by apply holders_single.
    + apply last_None in Hlast. exfalso.
      apply (filter_nil_not_elem_of _ _ v Hlast); [by rewrite Hh|done].
  - intros c v Hlen Hin. apply Hsound in Hin. tauto.
Qed.

(** ** Applying the placements of a range *)

Lemma candidates_empty_cell (s : Sudoku) (i j : nat) (v : Z) :
  v ∈ candidates s i j → grid_get (self_grid s) i j = Some 0%Z.
Proof.
  unfold candidates.
  destruct (grid_get (self_grid s) i j) as [[| |]|]; try done;
    intros H; by apply elem_of_nil in H.
Qed.

Lemma candidates_nonzero (s : Sudoku) (i j : nat) (v : Z) :
  v ∈ candidates s i j → v ≠ 0%Z.
Proof.
  intros H. pose proof (candidates_empty_cell _ _ _ _ H) as H0.
  apply elem_of_candidates in H as [H _]; [lia|done].
Qed.

Lemma filter_insert_length (l : list Z) (k : nat) (v : Z) :
  l !! k = Some 0%Z → v ≠ 0%Z →
  length (filter (λ w, w = 0%Z) (<[k := v]> l)) + 1 =
  length (filter (λ w, w = 0%Z) l).
Proof.
  revert k. induction l as [|a l IH]; intros k Hk Hv; [done|].
  destruct k as [|k]; simpl in Hk.
  - injection Hk as ->. change (<[0 := v]> (0%Z :: l)) with (v :: l).
    rewrite filter_cons_False by done.
    rewrite filter_cons_True by done. simpl. lia.
  - change (<[S k := v]> (a :: l)) with (a :: <[k := v]> l).
    rewrite !filter_cons. specialize (IH k Hk Hv).
    destruct (decide (a = 0%Z)); simpl; lia.
Qed.

Lemma empties_set (s : Sudoku) (i j : nat) (v : Z) (p : gmap cell (list Z)) :
  grid_get (self_grid s) i j = Some 0%Z → v ≠ 0%Z →
  empties (with_poss (with_grid s (grid_set (self_grid s) i j v)) p) + 1 =
  empties s.
Proof.
  intros H0 Hv. unfold empties. simpl. unfold grid_get, grid_set in *.
  destruct (shape (self_grid s)) as [|r [|c [|]]]; try done. simpl.
  destruct ((i <? r) && (j <? c)); [|done].
  by apply filter_insert_length.
Qed.

Lemma empties_le (s : Sudoku) : wf s → empties s ≤ self_N s * self_N s.
Proof.
  intros (_ & _ & _ & _ & Hlen). unfold empties. rewrite <- Hlen.
  apply length_filter.
Qed.

Lemma placements_elem (found : list (Z * option cell)) c v :
  (c, v) ∈ placements found → (v, Some c) ∈ found.
Proof.
  intros Hin. apply od_get_Some_elem_of in Hin; [|apply placements_NoDup].
  rewrite placements_get in Hin. apply last_Some_elem_of in Hin.
  unfold located in Hin. apply list_elem_of_fmap in Hin as ([v' o] & -> & Hin).
  apply list_elem_of_filter in Hin as [Ho Hin]. simpl in *. by subst.
Qed.

Lemma found_of_elem (L : list (cell * Z)) c v :
  (v, Some c) ∈ found_of L [] → (c, v) ∈ L.
Proof.
  intros Hin.
  assert (v ∈ located c (found_of L [])) as Hloc.
  { unfold located. apply list_elem_of_fmap. exists (v, Some c).
    split; [done|]. by apply list_elem_of_filter. }
  rewrite located_found_of in Hloc. unfold sole in Hloc.
  apply list_elem_of_fmap in Hloc as ([c' v'] & -> & Hloc).
  apply list_elem_of_filter in Hloc as [[Hc _] Hloc]. simpl in *. by subst.
Qed.

Lemma placements_separated (L : list (cell * Z)) :
  separated (placements (found_of L [])).
Proof.
  split; [apply placements_NoDup|]. intros c1 c2 v H1 H2.
  apply placements_elem in H1, H2.
  pose proof (found_of_NoDup L [] (NoDup_nil_2)) as Hnd.
  apply od_get_Some_elem_of in H1, H2; try done. congruence.
Qed.

Lemma placements_at_sound (s : Sudoku) (R : list cell) c v :
  (c, v) ∈ placements_at s R → c ∈ R ∧ v ∈ cands (poss_of s) c.
Proof.
  unfold placements_at. intros H.
  by apply placements_elem, found_of_elem, elem_of_pairs in H.
Qed.

Lemma consistent_not_missing (s : Sudoku) :
  wf s → consistent s → poss_missing s = false.
Proof.
  intros (HN & Hm & Hn & _) (p & Hp & Hc). unfold poss_missing. rewrite Hp.
  apply bool_decide_eq_false. intros ->.
  specialize (Hc 0 0). rewrite lookup_empty in Hc.
  assert (0 < self_N s) by nia. by specialize (Hc ltac:(done) ltac:(done)).
Qed.

Lemma only_in_range_consistent (s : Sudoku) (R : list cell) :
  wf s → consistent s → in_grid s R →
  only_in_range R s = (inr (placements_at s R), s).
Proof.
  intros Hwf Hc HR. pose proof (consistent_not_missing _ Hwf Hc) as Hmiss.
  destruct Hc as (p & Hp & Hc). unfold placements_at, poss_of. rewrite Hp.
  apply only_in_range_ready; [done..|]. intros [x y] Hin.
  destruct (HR _ Hin) as [Hx Hy]. rewrite Hc by done. eauto.
Qed.

Lemma cands_consistent (s : Sudoku) (i j : nat) :
  consistent s → i < self_N s → j < self_N s →
  cands (poss_of s) (i, j) = candidates s i j.
Proof.
  intros (p & Hp & Hc) Hi Hj. unfold cands, poss_of. rewrite Hp.
  by rewrite Hc.
Qed.

Lemma scan_ranges_in_grid (s : Sudoku) :
  wf s → Forall (in_grid s) (scan_ranges s).
Proof.
  intros Hwf. pose proof Hwf as (HN & Hm & Hn & _).
  apply Forall_forall. intros R HR.
  unfold scan_ranges in HR. apply list_elem_of_In, in_flat_map in HR
    as (k & Hk & HR).
  apply in_seq in Hk. unfold scan_ranges_of in HR. simpl in HR.
  assert (k mod self_m s * self_n s < self_N s) as Hcol.
  { pose proof (Nat.mod_upper_bound k (self_m s)). nia. }
  destruct HR as [<-|[<-|[<-|[]]]]; intros [x y] Hin; simpl.
  - apply elem_of_row in Hin. lia.
  - apply elem_of_col in Hin. lia.
  - apply region_in_grid in Hin; [done..|lia|done].
Qed.

Lemma scan_ranges_sizes (s s' : Sudoku) :
  same_sizes s s' → scan_ranges s = scan_ranges s'.
Proof.
  intros Hsz. unfold scan_ranges. destruct Hsz as (HN & Hm & Hn).
  rewrite <- HN. apply flat_map_ext. intros k.
  by apply scan_ranges_of_sizes.
Qed.

Lemma scan_ranges_cons (s : Sudoku) :
  wf s → ∃ R Rs, scan_ranges s = R :: Rs.
Proof.
  intros (HN & Hm & Hn & _). unfold scan_ranges.
  destruct (self_N s) as [|N'] eqn:E; [nia|].
  simpl. eauto.
Qed.

Lemma keeps_sizes_solve_body xyz acc : keeps_sizes (solve_body xyz acc).
Proof.
  unfold solve_body. apply keeps_sizes_bind; [apply keeps_sizes_set|].
  intros _. apply keeps_sizes_ret.
Qed.

Lemma keeps_sizes_audit J xyz acc : keeps_sizes (audit J xyz acc).
Proof.
  unfold audit. apply keeps_sizes_bind; [apply keeps_sizes_solve_body|].
  intros r s. by destruct (J s).
Qed.

(** On an object without candidate store the first scan builds it, and
    the pass goes on as from the object with the store built. *)
Lemma only_in_range_fresh (s s1 : Sudoku) (R : list cell) :
  wf s → self_poss s = None → make_poss_dict s = (inr tt, s1) →
  only_in_range R s = only_in_range R s1.
Proof.
  intros Hwf Hnone Hmk.
  destruct (make_poss_dict_consistent _ _ Hwf Hmk) as [Hwf1 Hc1].
  unfold only_in_range, bind, ensure_poss. unfold poss_missing at 1.
  rewrite Hnone, Hmk. rewrite (consistent_not_missing _ Hwf1 Hc1). done.
Qed.

Lemma pass_fresh {A} (body : cell * Z → A → M A) (acc : A)
    (R : list cell) (Rs : list (list cell)) (s s1 : Sudoku) :
  wf s → self_poss s = None → make_poss_dict s = (inr tt, s1) →
  for_acc (R :: Rs) acc (scan_range body) s =
  for_acc (R :: Rs) acc (scan_range body) s1.
Proof.
  intros Hwf Hnone Hmk. cbn [for_acc]. unfold bind, scan_range. unfold bind.
  by rewrite (only_in_range_fresh s s1 R Hwf Hnone Hmk).
Qed.

Lemma find_only_fresh {A} (body : cell * Z → A → M A) (acc : A)
    (s s1 : Sudoku) :
  (∀ x a, keeps_sizes (body x a)) →
  wf s → self_poss s = None → make_poss_dict s = (inr tt, s1) →
  find_only body acc s = find_only body acc s1.
Proof.
  intros Hb Hwf Hnone Hmk. rewrite !find_only_ranges by done.
  rewrite <- (scan_ranges_sizes s s1)
    by (by eapply keeps_sizes_make_poss_dict_eq).
  destruct (scan_ranges_cons s Hwf) as (R & Rs & ->).
  by apply pass_fresh.
Qed.

(** *** A grid without any filled cell *)

Lemma length_block (i0 j0 a b : nat) :
  length (flat_map (λ x, map (λ y, (x, y)) (seq j0 b)) (seq i0 a)) = a * b.
Proof.
  revert i0. induction a as [|a IH]; intros i0; [done|].
  cbn [seq flat_map]. rewrite length_app, length_map, length_seq, IH. lia.
Qed.

Lemma scan_ranges_length (s : Sudoku) (R : list cell) :
  wf s → R ∈ scan_ranges s → length R = self_N s.
Proof.
  intros (HN & _) HR. unfold scan_ranges in HR.
  apply list_elem_of_In, in_flat_map in HR as (k & _ & HR).
  unfold scan_ranges_of in HR. simpl in HR.
  destruct HR as [<-|[<-|[<-|[]]]].
  - unfold row. by rewrite length_map, length_seq.
  - unfold col. by rewrite length_map, length_seq.
  - unfold region. by rewrite length_block.
Qed.

Lemma list_difference_nil_r (l : list Z) : list_difference l [] = l.
Proof.
  induction l as [|a l IH]; [done|]. simpl.
  destruct (decide_rel elem_of a []) as [H|H]; [by apply elem_of_nil in H|].
  by rewrite IH.
Qed.

Lemma all_empty_get (s : Sudoku) (i j : nat) :
  wf s → empties s = self_N s * self_N s →
  i < self_N s → j < self_N s → grid_get (self_grid s) i j = Some 0%Z.
Proof.
  intros (_ & _ & _ & Hg) Hall Hi Hj.
  destruct (grid_get_is_Some _ _ Hg i j Hi Hj) as [v Hv]. rewrite Hv. f_equal.
  destruct Hg as [Hs Hlen]. unfold grid_get in Hv. rewrite Hs in Hv.
  destruct ((i <? self_N s) && (j <? self_N s)); [|done].
  apply list_elem_of_lookup_2 in Hv.
  destruct (decide (v = 0%Z)) as [|Hne]; [done|]. exfalso.
  pose proof (length_filter_lt (λ v, v = 0%Z) _ _ Hv Hne) as Hlt.
  unfold empties in Hall. lia.
Qed.

Lemma all_empty_candidates (s : Sudoku) (i j : nat) :
  wf s → empties s = self_N s * self_N s →
  i < self_N s → j < self_N s → candidates s i j = entries (self_N s).
Proof.
  intros Hwf Hall Hi Hj. unfold candidates.
  rewrite all_empty_get by done.
  rewrite <- (list_difference_nil_r (entries (self_N s))) at 2.
  apply list_difference_ext. intros v Hv. apply elem_of_entries in Hv.
  split; [|intros H; by apply elem_of_nil in H].
  rewrite elem_of_values_at. intros ([x y] & Hin & Hget). exfalso.
  apply elem_of_peers in Hin as (Hx & Hy & _); [|done..].
  simpl in Hget. rewrite all_empty_get in Hget by done.
  injection Hget as <-. lia.
Qed.

Lemma placements_occ (L : list (cell * Z)) c v :
  (c, v) ∈ placements (found_of L []) → occ v L = 1.
Proof.
  intros Hin. apply placements_elem in Hin.
  assert (v ∈ located c (found_of L [])) as Hloc.
  { unfold located. apply list_elem_of_fmap. exists (v, Some c).
    split; [done|]. by apply list_elem_of_filter. }
  rewrite located_found_of in Hloc. unfold sole in Hloc.
  apply list_elem_of_fmap in Hloc as ([c' v'] & -> & Hloc).
  by apply list_elem_of_filter in Hloc as [[_ Hocc] _].
Qed.

(** On a grid of side at least 2 without any filled cell, no scan finds a
    placement: every value is possible in every cell of every range. *)
Lemma all_empty_stalled (s : Sudoku) (R : list cell) :
  wf s → consistent s → empties s = self_N s * self_N s → 2 ≤ self_N s →
  R ∈ scan_ranges s → placements_at s R = [].
Proof.
  intros Hwf Hc Hall HN HR.
  pose proof (scan_ranges_in_grid s Hwf) as Hgrid.
  rewrite Forall_forall in Hgrid. specialize (Hgrid R HR).
  assert (∀ c, c ∈ R → cands (poss_of s) c = entries (self_N s)) as Hcands.
  { intros [x y] Hin. destruct (Hgrid _ Hin) as [Hx Hy].
    rewrite cands_consistent by done. by apply all_empty_candidates. }
  destruct (placements_at s R) as [|[c v] D] eqn:HD; [done|]. exfalso.
  assert ((c, v) ∈ placements_at s R) as Hin by (rewrite HD; left).
  pose proof (placements_at_sound _ _ _ _ Hin) as [Hc' Hv].
  unfold placements_at in Hin. apply placements_occ in Hin.
  rewrite occ_pairs in Hin; last first.
  { intros c' Hin'. rewrite Hcands by done. apply NoDup_entries. }
  rewrite Hcands in Hv by done.
  unfold holders in Hin. rewrite filter_all in Hin.
  - rewrite (scan_ranges_length s R Hwf HR) in Hin. lia.
  - intros c' Hin'. by rewrite Hcands.
Qed.

Section Pass.
(** [J] is a property of the state that every legal assignment keeps and
    that does not depend on the candidate store. *)
Variable J : Sudoku → bool.
Hypothesis J_set : ∀ s i j v s',
  wf s → consistent s → J s = true → v ∈ candidates s i j →
  set i j v s = (inr tt, s') → J s' = true.
Hypothesis J_poss : ∀ s p, J (with_poss s p) = J s.

Lemma flag_after_app b D1 D2 :
  flag_after (flag_after b D1) D2 = flag_after b (D1 ++ D2).
Proof. by destruct D1, D2. Qed.

Lemma apply_items (D : list (cell * Z)) (s : Sudoku) :
  wf s → consistent s → J s = true → separated D →
  (∀ c v, (c, v) ∈ D →
          c.1 < self_N s ∧ c.2 < self_N s ∧ v ∈ candidates s c.1 c.2) →
  ∃ s', (∀ b out,
           for_acc D (b, out) (audit J) s =
             (inr (flag_after b D, out ++ D), s') ∧
           for_acc D (b, out) solve_body s =
             (inr (flag_after b D, out ++ D), s')) ∧
        wf s' ∧ consistent s' ∧ J s' = true ∧ same_sizes s s' ∧
        empties s' + length D = empties s ∧
        (D = [] → s' = s).
Proof using J_set.
  revert s. induction D as [|[c v] D IH];
    intros s Hwf Hc HJ [Hnd Hsep] Hleg.
  { exists s. split; [intros b out; by rewrite app_nil_r|].
    do 3 (split; [done|]). split; [apply same_sizes_refl|].
    split; [simpl; lia|done]. }
  destruct (Hleg c v) as (Hi & Hj & Hv); [left|].
  pose proof (candidates_empty_cell _ _ _ _ Hv) as H0.
  pose proof (candidates_nonzero _ _ _ _ Hv) as Hv0.
  pose proof Hc as (p & Hp & Hcons).
  destruct (set_ok s c.1 c.2 v p Hwf Hp) as (p' & Hset & _);
    [by intros x y Hx Hy; rewrite Hcons by done; eauto|done|].
  set (s1 := with_poss (with_grid s (grid_set (self_grid s) c.1 c.2 v)) p') in *.
  destruct (set_consistent _ _ _ _ _ Hwf Hc Hv0 Hset) as [Hwf1 Hc1].
  pose proof (J_set _ _ _ _ _ Hwf Hc HJ Hv Hset) as HJ1.
  rewrite fmap_cons in Hnd. apply NoDup_cons in Hnd as [Hhead Hnd].
  destruct (IH s1 Hwf1 Hc1 HJ1)
    as (s' & Hrun & Hwf' & Hc' & HJ' & Hsz & Hemp & _).
  { split; [done|]. intros c1 c2 w H1 H2. apply (Hsep c1 c2 w); by right. }
  { intros c' v' Hin.
    destruct (Hleg c' v') as (Hi' & Hj' & Hv'); [by right|].
    split; [done|]. split; [done|].
    assert (c' ≠ c) as Hne.
    { intros ->. apply Hhead. apply list_elem_of_fmap. by exists (c, v'). }
    assert (v' ≠ v) as Hnv.
    { intros ->. apply Hne. apply (Hsep c' c v); [by right|left]. }
    unfold s1. rewrite candidates_after_set by done.
    destruct c as [i j], c' as [i' j']. simpl in *.
    rewrite decide_False by done.
    destruct (decide ((i', j') ∈ peers s i j)); [|done].
    by apply elem_of_discard. }
  exists s'. split.
  - intros b out. destruct (Hrun true (out ++ [(c, v)])) as [Hrun1 Hrun2].
    assert (out ++ (c, v) :: D = (out ++ [(c, v)]) ++ D) as Hout
      by (by rewrite <- app_assoc).
    assert (flag_after b ((c, v) :: D) = flag_after true D) as Hflag
      by (by destruct D).
    rewrite Hout, Hflag. split.
    + cbn [for_acc]. unfold bind at 1. unfold audit at 1.
      unfold solve_body, bind, ret. cbn [fst snd]. rewrite Hset, HJ1.
      exact Hrun1.
    + cbn [for_acc]. unfold bind at 1. unfold solve_body at 1.
      unfold bind, ret. cbn [fst snd]. rewrite Hset. exact Hrun2.
  - split; [done|]. split; [done|]. split; [done|]. split.
    { eapply same_sizes_trans; [|exact Hsz]. by unfold s1. }
    split; [|done]. simpl.
    pose proof (empties_set s c.1 c.2 v p' H0 Hv0). fold s1 in H. lia.
Qed.

Lemma scan_range_spec (R : list cell) (s : Sudoku) :
  wf s → consistent s → J s = true → in_grid s R →
  ∃ s', (∀ b out,
           scan_range (audit J) R (b, out) s =
             (inr (flag_after b (placements_at s R),
                   out ++ placements_at s R), s') ∧
           scan_range solve_body R (b, out) s =
             (inr (flag_after b (placements_at s R),
                   out ++ placements_at s R), s')) ∧
        wf s' ∧ consistent s' ∧ J s' = true ∧ same_sizes s s' ∧
        empties s' + length (placements_at s R) = empties s ∧
        (placements_at s R = [] → s' = s).
Proof using J_set.
  intros Hwf Hc HJ HR.
  destruct (apply_items (placements_at s R) s Hwf Hc HJ)
    as (s' & Hrun & Hrest).
  { apply placements_separated. }
  { intros c v Hin. apply placements_at_sound in Hin as [Hin Hv].
    destruct (HR _ Hin) as [Hx Hy]. split; [done|]. split; [done|].
    destruct c as [x y]. by rewrite <- cands_consistent. }
  exists s'. split; [|done]. intros b out. unfold scan_range, bind.
  rewrite only_in_range_consistent by done. apply Hrun.
Qed.

Lemma in_grid_sizes (s s' : Sudoku) (R : list cell) :
  same_sizes s s' → in_grid s R → in_grid s' R.
Proof. intros (HN & _) H c Hc. rewrite <- HN. by apply H. Qed.

(** A pass over the ranges [Rs] from a state whose store is built. *)
Lemma pass_spec (Rs : list (list cell)) (s : Sudoku) :
  wf s → consistent s → J s = true → Forall (in_grid s) Rs →
  ∃ s' app,
    (∀ b out,
       for_acc Rs (b, out) (scan_range (audit J)) s =
         (inr (flag_after b app, out ++ app), s') ∧
       for_acc Rs (b, out) (scan_range solve_body) s =
         (inr (flag_after b app, out ++ app), s')) ∧
    wf s' ∧ consistent s' ∧ J s' = true ∧ same_sizes s s' ∧
    empties s' + length app = empties s ∧
    (app = [] → s' = s) ∧
    ((∀ R, R ∈ Rs → placements_at s R = []) → app = []).
Proof using J_set.
  revert s. induction Rs as [|R Rs IH]; intros s Hwf Hc HJ HRs.
  { exists s, []. split; [intros b out; by rewrite app_nil_r|].
    do 3 (split; [done|]). split; [apply same_sizes_refl|].
    split; [simpl; lia|done]. }
  inversion HRs as [|? ? HR HRs']; subst.
  destruct (scan_range_spec R s Hwf Hc HJ HR)
    as (s1 & Hrun1 & Hwf1 & Hc1 & HJ1 & Hsz1 & Hemp1 & Hfix1).
  destruct (IH s1 Hwf1 Hc1 HJ1)
    as (s' & app & Hrun & Hwf' & Hc' & HJ' & Hsz & Hemp & Hfix & Hstall).
  { eapply Forall_impl; [exact HRs'|]. intros R'. by apply in_grid_sizes. }
  exists s', (placements_at s R ++ app). split.
  - intros b out. destruct (Hrun1 b out) as [H1 H2].
    destruct (Hrun (flag_after b (placements_at s R))
                   (out ++ placements_at s R)) as [H3 H4].
    rewrite flag_after_app, <- app_assoc in H3, H4.
    split; cbn [for_acc]; unfold bind; [by rewrite H1|by rewrite H2].
  - do 3 (split; [done|]). split; [by eapply same_sizes_trans|].
    split; [rewrite length_app; lia|]. split.
    + intros Happ. apply app_eq_nil in Happ as [HD Happ].
      rewrite (Hfix Happ). by apply Hfix1.
    + intros Hall. assert (placements_at s R = []) as HD
        by (apply Hall; left).
      rewrite HD. simpl. apply Hstall. intros R' HR'.
      rewrite (Hfix1 HD). apply Hall. by right.
Qed.

Lemma round_spec (s : Sudoku) :
  wf s → consistent s → J s = true →
  ∃ s' app,
    (∀ out,
       audited_round J out s = (inr (flag_after false app, out ++ app), s') ∧
       solve_round out s = (inr (flag_after false app, out ++ app), s')) ∧
    wf s' ∧ consistent s' ∧ J s' = true ∧
    empties s' + length app = empties s ∧
    (app = [] → s' = s) ∧
    ((∀ R, R ∈ scan_ranges s → placements_at s R = []) → app = []).
Proof using J_set.
  intros Hwf Hc HJ.
  destruct (pass_spec (scan_ranges s) s Hwf Hc HJ (scan_ranges_in_grid s Hwf))
    as (s' & app & Hrun & Hwf' & Hc' & HJ' & _ & Hemp & Hfix).
  exists s', app. split; [|done]. intros out.
  unfold audited_round, solve_round.
  rewrite !find_only_ranges
    by first [apply keeps_sizes_audit | apply keeps_sizes_solve_body].
  apply Hrun.
Qed.

(** The state a round really starts from: the object itself when its
    store is built, the object with the store just built otherwise. *)
Lemma round_ready (s : Sudoku) :
  ready s → J s = true →
  ∃ s0, wf s0 ∧ consistent s0 ∧ J s0 = true ∧ empties s0 = empties s ∧
        self_grid s0 = self_grid s ∧ same_sizes s s0 ∧
        (consistent s → s0 = s) ∧
        ∀ out, audited_round J out s = audited_round J out s0 ∧
               solve_round out s = solve_round out s0.
Proof using J_poss.
  intros [Hwf [Hnone|Hc]] HJ.
  - destruct (make_poss_dict_ok s Hwf) as (p & Hmk & _).
    destruct (make_poss_dict_consistent _ _ Hwf Hmk) as [Hwf1 Hc1].
    exists (with_poss s p). rewrite J_poss.
    do 6 (split; [done|]). split.
    { intros (p' & Hp' & _). congruence. }
    intros out. unfold audited_round, solve_round. split.
    + apply find_only_fresh; [apply keeps_sizes_audit|done..].
    + apply find_only_fresh; [apply keeps_sizes_solve_body|done..].
  - exists s. do 5 (split; [done|]). split; [apply same_sizes_refl|].
    split; [done|]. by intros out.
Qed.

Lemma loop_spec (n : nat) (s : Sudoku) (out : list (cell * Z)) :
  empties s ≤ n → wf s → consistent s → J s = true →
  ∃ rounds app s',
    1 ≤ rounds ≤ length app + 1 ∧
    audited_loop J rounds out s = Some (inr (out ++ app), s') ∧
    solve_loop rounds out s = Some (inr (out ++ app), s') ∧
    (∀ f, f < rounds →
          audited_loop J f out s = None ∧ solve_loop f out s = None) ∧
    wf s' ∧ consistent s' ∧ J s' = true ∧
    empties s' + length app = empties s ∧
    (∀ out2, solve_round out2 s' = (inr (false, out2), s') ∧
             audited_round J out2 s' = (inr (false, out2), s')) ∧
    ((∀ R, R ∈ scan_ranges s → placements_at s R = []) → app = []).
Proof using J_set.
  revert s out. induction n as [|n IH]; intros s out Hn Hwf Hc HJ;
    destruct (round_spec s Hwf Hc HJ)
      as (s1 & app1 & Hrun & Hwf1 & Hc1 & HJ1 & Hemp1 & Hfix1 & Hstall1);
    destruct app1 as [|a app1]; simpl in Hemp1; try lia.
  1, 2: (specialize (Hfix1 eq_refl); subst s1;
    exists 1, [], s; split; [simpl; lia|];
    destruct (Hrun out) as [Ha Hs]; simpl in Ha, Hs;
    split; [by simpl; rewrite Ha|]; split; [by simpl; rewrite Hs|];
    split; [intros f Hf; by replace f with 0 by lia|];
    do 3 (split; [done|]); split; [simpl; lia|]; split; [|done];
    intros out2; destruct (Hrun out2) as [Ha2 Hs2];
    simpl in Ha2, Hs2; rewrite app_nil_r in Ha2, Hs2; done).
  destruct (IH s1 (out ++ a :: app1)) as
    (rounds & app2 & s' & Hr & Ha & Hs & Hmin & Hwf' & Hc' & HJ' & Hemp & Hfix & _);
    [lia|done..|].
  destruct (Hrun out) as [Ha1 Hs1]. simpl in Ha1, Hs1.
  exists (S rounds), ((a :: app1) ++ app2), s'.
  rewrite app_assoc. split; [simpl; rewrite length_app; simpl; lia|].
  split; [by simpl; rewrite Ha1|]. split; [by simpl; rewrite Hs1|].
  split.
  { intros [|f] Hf; [done|]. simpl. rewrite Ha1, Hs1. apply Hmin. lia. }
  do 3 (split; [done|]). split; [rewrite length_app; simpl in *; lia|].
  split; [done|]. intros Hall. by specialize (Hstall1 Hall).
Qed.

Lemma loop_ready (s s0 : Sudoku) :
  (∀ out, audited_round J out s = audited_round J out s0 ∧
          solve_round out s = solve_round out s0) →
  ∀ fuel out, audited_loop J fuel out s = audited_loop J fuel out s0 ∧
              solve_loop fuel out s = solve_loop fuel out s0.
Proof.
  intros H [|fuel] out; [done|]. simpl.
  destruct (H out) as [-> ->]. done.
Qed.

(** [solve] on an object fresh from [__init__] or with an up-to-date
    store: it returns after [rounds] turns of the [while] loop, no fewer;
    every turn but the last applies an assignment; the audit of [J]
    never fails; the state reached is a fixpoint of the round. *)
Lemma solve_spec (s : Sudoku) :
  ready s → J s = true →
  ∃ rounds app s',
    1 ≤ rounds ≤ length app + 1 ∧
    audited_loop J rounds [] s = Some (inr app, s') ∧
    solve rounds s = Some (inr app, s') ∧
    (∀ f, f < rounds → audited_loop J f [] s = None ∧ solve f s = None) ∧
    wf s' ∧ consistent s' ∧ J s' = true ∧
    empties s' + length app = empties s ∧
    (∀ out2, solve_round out2 s' = (inr (false, out2), s') ∧
             audited_round J out2 s' = (inr (false, out2), s')) ∧
    (empties s = self_N s * self_N s → 2 ≤ self_N s → app = []).
Proof using J_set J_poss.
  intros Hready HJ.
  destruct (round_ready s Hready HJ)
    as (s0 & Hwf0 & Hc0 & HJ0 & Hemp0 & _ & (HN0 & _) & _ & Hsame).
  destruct (loop_spec (empties s0) s0 [] (le_n _) Hwf0 Hc0 HJ0)
    as (rounds & app & s' & Hr & Ha & Hs & Hmin & Hwf' & Hc' & HJ' & Hemp & Hfix & Hstall).
  exists rounds, app, s'. unfold solve.
  pose proof (loop_ready s s0 Hsame) as Heq.
  split; [done|]. split; [by rewrite (proj1 (Heq _ _))|].
  split; [by rewrite (proj2 (Heq _ _))|]. split.
  { intros f Hf. rewrite (proj1 (Heq _ _)), (proj2 (Heq _ _)). by apply Hmin. }
  do 3 (split; [done|]). split; [by rewrite <- Hemp0|]. split; [done|].
  intros Hall HN. apply Hstall. intros R HR.
  apply all_empty_stalled; try done; rewrite <- HN0; lia.
Qed.
End Pass.

Lemma solve_loop_mono (fuel fuel' : nat) (out : list (cell * Z)) (s : Sudoku) r :
  solve_loop fuel out s = Some r → fuel ≤ fuel' →
  solve_loop fuel' out s = Some r.
Proof.
  revert fuel' out s. induction fuel as [|fuel IH]; intros fuel' out s H Hle;
    [done|].
  destruct fuel' as [|fuel']; [lia|]. simpl in *.
  destruct (solve_round out s) as [[e|[[] out']] s1]; try done.
  apply IH; [done|lia].
Qed.

Lemma audited_loop_mono J (fuel fuel' : nat) (out : list (cell * Z))
    (s : Sudoku) r :
  audited_loop J fuel out s = Some r → fuel ≤ fuel' →
  audited_loop J fuel' out s = Some r.
Proof.
  revert fuel' out s. induction fuel as [|fuel IH]; intros fuel' out s H Hle;
    [done|].
  destruct fuel' as [|fuel']; [lia|]. simpl in *.
  destruct (audited_round J out s) as [[e|[[] out']] s1]; try done.
  apply IH; [done|lia].
Qed.

(** ** Uniqueness of the values of a row, column or region *)

Lemma NoDup_block (i0 j0 a b : nat) :
  NoDup (flat_map (λ x, map (λ y, (x, y)) (seq j0 b)) (seq i0 a)).
Proof.
  revert i0. induction a as [|a IH]; intros i0; [apply NoDup_nil_2|].
  cbn [seq flat_map]. apply NoDup_app. split; [|split; [|apply IH]].
  - apply (NoDup_fmap_2 (λ y, (i0, y))). apply NoDup_ListNoDup, seq_NoDup.
  - intros [x y] H1 H2. apply elem_of_block in H2.
    apply list_elem_of_In, in_map_iff in H1 as (y' & [= <- <-] & _). lia.
Qed.

Lemma scan_ranges_elem (s : Sudoku) (R : list cell) :
  R ∈ scan_ranges s ↔
  ∃ k, k < self_N s ∧
       (R = row s k ∨ R = col s k ∨
        R = region s k (k mod self_m s * self_n s)).
Proof.
  unfold scan_ranges. rewrite list_elem_of_In, in_flat_map. split.
  - intros (k & Hk & HR). apply in_seq in Hk. exists k. split; [lia|].
    unfold scan_ranges_of in HR. simpl in HR.
    destruct HR as [<-|[<-|[<-|[]]]]; auto.
  - intros (k & Hk & HR). exists k. split; [apply in_seq; lia|].
    unfold scan_ranges_of. simpl. destruct HR as [-> | [-> | ->]]; auto.
Qed.

Lemma scan_ranges_NoDup (s : Sudoku) (R : list cell) :
  R ∈ scan_ranges s → NoDup R.
Proof.
  intros HR. apply scan_ranges_elem in HR as (k & _ & [-> | [-> | ->]]).
  - apply (NoDup_fmap_2 (λ j, (k, j))). apply NoDup_ListNoDup, seq_NoDup.
  - assert (Inj (=) (=) (λ i : nat, (i, k))) by (intros x y [= ->]; done).
    apply (NoDup_fmap_2 (λ i, (i, k))). apply NoDup_ListNoDup, seq_NoDup.
  - apply NoDup_block.
Qed.

Lemma scan_ranges_related (s : Sudoku) (R : list cell) (c1 c2 : cell) :
  wf s → R ∈ scan_ranges s → c1 ∈ R → c2 ∈ R → related s c1 c2.
Proof.
  intros (_ & Hm & Hn & _) HR H1 H2. destruct c1 as [x1 y1], c2 as [x2 y2].
  apply scan_ranges_elem in HR as (k & _ & [-> | [-> | ->]]); unfold related; simpl.
  - apply elem_of_row in H1, H2. lia.
  - apply elem_of_col in H1, H2. lia.
  - apply anchor_region in H1, H2; try done. right; right. lia.
Qed.

Lemma related_in_range (s : Sudoku) (c1 c2 : cell) :
  wf s → c1.1 < self_N s → c1.2 < self_N s →
  c2.1 < self_N s → c2.2 < self_N s → related s c1 c2 →
  ∃ R, R ∈ scan_ranges s ∧ c1 ∈ R ∧ c2 ∈ R.
Proof.
  intros Hwf Hx1 Hy1 Hx2 Hy2 Hrel. pose proof Hwf as (_ & Hm & Hn & _).
  destruct c1 as [x1 y1], c2 as [x2 y2]. simpl in *.
  destruct Hrel as [Hr|[Hr|[Hr1 Hr2]]]; simpl in *.
  - exists (row s x1). split; [apply scan_ranges_elem; eauto|].
    rewrite !elem_of_row. lia.
  - exists (col s y1). split; [apply scan_ranges_elem; eauto|].
    rewrite !elem_of_col. lia.
  - destruct (region_of_cell s x1 y1 Hwf Hx1 Hy1) as (k & [Hk Hin] & _).
    exists (region s k (k mod self_m s * self_n s)).
    split; [apply scan_ranges_elem; eauto 6|]. split; [done|].
    apply anchor_region in Hin; [|done..]. apply anchor_region; [done..|]. lia.
Qed.

Lemma values_at_cons g c R :
  values_at g (c :: R) =
    match grid_get g c.1 c.2 with
    | Some v => v :: values_at g R
    | None => values_at g R
    end.
Proof. unfold values_at. simpl. by destruct (grid_get g c.1 c.2). Qed.

Lemma NoDup_values_inj g (R : list cell) (c1 c2 : cell) (v : Z) :
  NoDup (filter (λ v, v ≠ 0%Z) (values_at g R)) →
  c1 ∈ R → c2 ∈ R →
  grid_get g c1.1 c1.2 = Some v → grid_get g c2.1 c2.2 = Some v →
  v ≠ 0%Z → c1 = c2.
Proof.
  intros Hnd H1 H2 Hg1 Hg2 Hv. induction R as [|a R IH].
  { by apply elem_of_nil in H1. }
  rewrite values_at_cons in Hnd.
  assert (∀ c, c ∈ R → grid_get g c.1 c.2 = Some v →
            v ∈ filter (λ v, v ≠ 0%Z) (values_at g R)) as Hmem.
  { intros c Hc Hg. apply list_elem_of_filter. split; [done|].
    apply elem_of_values_at. eauto. }
  apply elem_of_cons in H1 as [->|H1], H2 as [->|H2]; try done.
  - rewrite Hg1 in Hnd. rewrite filter_cons_True in Hnd by done.
    apply NoDup_cons in Hnd as [Hnot _]. destruct Hnot. by apply (Hmem c2).
  - rewrite Hg2 in Hnd. rewrite filter_cons_True in Hnd by done.
    apply NoDup_cons in Hnd as [Hnot _]. destruct Hnot. by apply (Hmem c1).
  - apply IH; try done. destruct (grid_get g a.1 a.2) as [w|]; [|done].
    rewrite filter_cons in Hnd. destruct (decide (w ≠ 0%Z)); [|done].
    by apply NoDup_cons in Hnd as [_ Hnd].
Qed.

Lemma grid_unique_no_clash (s : Sudoku) : wf s → grid_unique s → no_clash s.
Proof.
  intros Hwf Hu c1 c2 v Hx1 Hy1 Hx2 Hy2 Hrel Hg1 Hg2 Hv.
  destruct (related_in_range s c1 c2 Hwf Hx1 Hy1 Hx2 Hy2 Hrel)
    as (R & HR & H1 & H2).
  unfold grid_unique in Hu. rewrite Forall_forall in Hu.
  by apply (NoDup_values_inj (self_grid s) R c1 c2 v (Hu R HR)).
Qed.

Lemma no_clash_grid_unique (s : Sudoku) : wf s → no_clash s → grid_unique s.
Proof.
  intros Hwf Hnc. apply Forall_forall. intros R HR.
  pose proof (scan_ranges_NoDup s R HR) as Hnd.
  pose proof (scan_ranges_in_grid s Hwf) as Hgrid.
  rewrite Forall_forall in Hgrid. specialize (Hgrid R HR).
  assert (∀ c1 c2, c1 ∈ R → c2 ∈ R → related s c1 c2) as Hrel
    by (intros c1 c2; by apply scan_ranges_related).
  clear HR. induction R as [|a R IH]; [apply NoDup_nil_2|].
  apply NoDup_cons in Hnd as [Ha Hnd]. rewrite values_at_cons.
  assert (NoDup (filter (λ v, v ≠ 0%Z) (values_at (self_grid s) R))) as HR.
  { apply IH; [done| |].
    - intros c Hc. apply Hgrid. by right.
    - intros c1 c2 H1 H2. apply Hrel; by right. }
  destruct (grid_get (self_grid s) a.1 a.2) as [w|] eqn:Hw; [|done].
  rewrite filter_cons. destruct (decide (w ≠ 0%Z)) as [Hw0|]; [|done].
  apply NoDup_cons. split; [|done]. intros Hin.
  apply list_elem_of_filter in Hin as [_ Hin].
  apply elem_of_values_at in Hin as (c & Hc & Hgc).
  assert (a = c) as ->; [|done].
  destruct (Hgrid a) as [? ?]; [left|]. destruct (Hgrid c) as [? ?]; [by right|].
  apply (Hnc a c w); try done. apply Hrel; [left|by right].
Qed.

Lemma no_clash_set (s : Sudoku) (i j : nat) (v : Z) (p : gmap cell (list Z)) :
  wf s → no_clash s → v ∈ candidates s i j →
  no_clash (with_poss (with_grid s (grid_set (self_grid s) i j v)) p).
Proof.
  intros Hwf Hnc Hv. pose proof Hwf as (_ & _ & _ & Hg).
  pose proof (candidates_empty_cell _ _ _ _ Hv) as H0.
  destruct (grid_get_lt _ _ Hg _ _ _ H0) as [Hi Hj].
  apply elem_of_candidates in Hv as [_ Hfree]; [|done].
  assert (∀ c : cell, c.1 < self_N s → c.2 < self_N s → related s c (i, j) →
            grid_get (self_grid s) c.1 c.2 ≠ Some v) as Hfree'.
  { intros [x y] Hx Hy Hrel. apply (Hfree (x, y)).
    assert ((x, y) ∈ peers s i j) as Hin by (by apply elem_of_peers).
    unfold peers in Hin. rewrite !elem_of_app in Hin. tauto. }
  intros [x1 y1] [x2 y2] w Hx1 Hy1 Hx2 Hy2 Hrel Hg1 Hg2 Hw. simpl in *.
  change (related s (x1, y1) (x2, y2)) in Hrel.
  destruct (decide ((x1, y1) = (i, j))) as [[= -> ->]|Hne1],
           (decide ((x2, y2) = (i, j))) as [[= -> ->]|Hne2]; try done.
  - rewrite (grid_get_set_eq _ _ Hg) in Hg1 by done.
    rewrite (grid_get_set_ne _ _ Hg) in Hg2 by done.
    injection Hg1 as <-. exfalso.
    apply (Hfree' (x2, y2)); [done..|by apply related_sym|done].
  - rewrite (grid_get_set_ne _ _ Hg) in Hg1 by done.
    rewrite (grid_get_set_eq _ _ Hg) in Hg2 by done.
    injection Hg2 as <-. exfalso. by apply (Hfree' (x1, y1)).
  - rewrite (grid_get_set_ne _ _ Hg) in Hg1, Hg2 by done.
    by apply (Hnc (x1, y1) (x2, y2) w).
Qed.

(** An assignment drawn from the candidate set of its cell keeps the
    values of every row, column and region distinct. *)
Lemma grid_unique_set (s : Sudoku) (i j : nat) (v : Z) (s' : Sudoku) :
  wf s → consistent s → unique_check s = true →
  v ∈ candidates s i j → set i j v s = (inr tt, s') →
  unique_check s' = true.
Proof.
  unfold unique_check.
  intros Hwf Hc Hu Hv Hset. apply bool_decide_eq_true in Hu.
  apply bool_decide_eq_true.
  pose proof (candidates_empty_cell _ _ _ _ Hv) as H0.
  destruct Hc as (p & Hp & Hc).
  destruct (set_ok s i j v p Hwf Hp) as (p' & Hset' & _);
    [by intros x y Hx Hy; rewrite Hc by done; eauto|done|].
  rewrite Hset' in Hset. injection Hset as <-.
  apply no_clash_grid_unique; [by apply wf_with|].
  apply no_clash_set; [done| |done]. by apply grid_unique_no_clash.
Qed.

(** ** The solver loop *)

Lemma no_check_set (s : Sudoku) (i j : nat) (v : Z) (s' : Sudoku) :
  wf s → consistent s → no_check s = true → v ∈ candidates s i j →
  set i j v s = (inr tt, s') → no_check s' = true.
Proof. done. Qed.

Lemma no_check_poss (s : Sudoku) (p : gmap cell (list Z)) :
  no_check (with_poss s p) = no_check s.
Proof. done. Qed.

Lemma unique_check_poss (s : Sudoku) (p : gmap cell (list Z)) :
  unique_check (with_poss s p) = unique_check s.
Proof. done. Qed.

(** C2 (grid uniqueness).  Start [solve] on an object fresh from
    [__init__] (or with an up-to-date candidate store) whose filled cells
    hold no value twice in any row, column or region.  Then: a single
    assignment of a value drawn from the candidate set of its cell
    succeeds and keeps that property; [solve] run with a check of the
    property after every assignment behaves exactly as [solve] itself,
    for every number of turns, so the check never fails; [solve] returns,
    without raising, and in the state it returns the property holds. *)
Theorem solve_keeps_unique (s : Sudoku) :
  ready s → grid_unique s →
  (∀ t i j v,
     wf t → consistent t → grid_unique t →
     i < self_N t → j < self_N t → v ∈ cands (poss_of t) (i, j) →
     ∃ t', set i j v t = (inr tt, t') ∧ grid_unique t') ∧
  (∀ fuel, audited_loop unique_check fuel [] s = solve fuel s) ∧
  (∀ fuel r s', solve fuel s = Some (r, s') →
                ∃ out, r = inr out ∧ grid_unique s') ∧
  (∃ fuel out s', solve fuel s = Some (inr out, s')).
Proof.
  intros Hready Hu.
  destruct (solve_spec unique_check grid_unique_set unique_check_poss s Hready)
    as (rounds & app & s' & Hr & Ha & Hs & Hmin & Hwf' & Hc' & HJ' & _);
    [by apply bool_decide_eq_true|].
  split; [|split; [|split]].
  - intros t i j v Hwf Hc Hut Hi Hj Hv.
    rewrite cands_consistent in Hv by done.
    pose proof (candidates_empty_cell _ _ _ _ Hv) as H0.
    pose proof Hc as (p & Hp & Hcons).
    destruct (set_ok t i j v p Hwf Hp) as (p' & Hset & _);
      [by intros x y Hx Hy; rewrite Hcons by done; eauto|done|].
    eexists. split; [exact Hset|].
    assert (unique_check t = true) as HJt by (by apply bool_decide_eq_true).
    pose proof (grid_unique_set t i j v _ Hwf Hc HJt Hv Hset) as HJt'.
    by apply bool_decide_eq_true in HJt'.
  - intros fuel. destruct (decide (fuel < rounds)) as [Hlt|Hge].
    + destruct (Hmin fuel Hlt) as [-> ->]. done.
    + rewrite (audited_loop_mono _ _ fuel _ _ _ Ha) by lia.
      unfold solve in *. by rewrite (solve_loop_mono _ fuel _ _ _ Hs) by lia.
  - intros fuel r s'' Hsolve. destruct (decide (fuel < rounds)) as [Hlt|Hge].
    + destruct (Hmin fuel Hlt) as [_ Hnone]. congruence.
    + unfold solve in *. rewrite (solve_loop_mono _ fuel _ _ _ Hs) in Hsolve by lia.
      injection Hsolve as <- <-. exists app. split; [done|].
      by apply bool_decide_eq_true in HJ'.
  - eauto.
Qed.

Lemma ensure_ready (s : Sudoku) :
  ready s →
  ∃ s0, ensure_poss s = (inr tt, s0) ∧ wf s0 ∧ consistent s0 ∧
        same_sizes s s0 ∧
        ∀ out, solve_round out s = solve_round out s0.
Proof.
  intros [Hwf [Hnone|Hc]].
  - destruct (make_poss_dict_ok s Hwf) as (p & Hmk & _).
    destruct (make_poss_dict_consistent _ _ Hwf Hmk) as [Hwf1 Hc1].
    exists (with_poss s p). unfold ensure_poss, poss_missing. rewrite Hnone.
    do 4 (split; [done|]). intros out. unfold solve_round.
    apply find_only_fresh; [apply keeps_sizes_solve_body|done..].
  - exists s. unfold ensure_poss. rewrite consistent_not_missing by done.
    do 3 (split; [done|]). split; [apply same_sizes_refl|done].
Qed.

(** C3, as the code has it.  In a round, the placements of a range [R] are
    all computed, by one call of [only_in_range], from the candidate store
    as it is when the scan reaches [R], that is after the assignments
    found in the ranges scanned before [R] in the same round have been
    applied; only then are the placements of [R] applied, one by one, and
    the scan goes on with the next range. *)
Theorem round_scans_current_state (s : Sudoku) (out : list (cell * Z))
    (Rs1 : list (list cell)) (R : list cell) (Rs2 : list (list cell)) :
  ready s → scan_ranges s = Rs1 ++ R :: Rs2 →
  solve_round out s =
    (_ <- ensure_poss ;;
     acc1 <- for_acc Rs1 (false, out) (scan_range solve_body) ;;
     (λ t, (acc2 <- for_acc (placements_at t R) acc1 solve_body ;;
            for_acc Rs2 acc2 (scan_range solve_body)) t)) s.
Proof.
  intros Hready HRs.
  destruct (ensure_ready s Hready) as (s0 & Hens & Hwf0 & Hc0 & Hsz & Hround).
  rewrite Hround. unfold bind at 1. rewrite Hens.
  unfold solve_round. rewrite find_only_ranges by apply keeps_sizes_solve_body.
  rewrite <- (scan_ranges_sizes s s0 Hsz), HRs, for_acc_app.
  pose proof (scan_ranges_in_grid s0 Hwf0) as Hgrid.
  rewrite <- (scan_ranges_sizes s s0 Hsz), HRs in Hgrid.
  apply Forall_app in Hgrid as [Hgrid1 Hgrid2].
  inversion Hgrid2 as [|? ? HR _]; subst.
  destruct (pass_spec no_check no_check_set Rs1 s0 Hwf0 Hc0 eq_refl Hgrid1)
    as (t & app & Hrun & Hwft & Hct & _ & Hszt & _).
  destruct (Hrun false out) as [_ Hrun1].
  unfold bind at 1 3. rewrite Hrun1. cbn [for_acc]. unfold bind at 1.
  unfold scan_range at 1. unfold bind at 1.
  rewrite only_in_range_consistent; [|done|done|by apply (in_grid_sizes s0 t)].
  unfold bind. by rewrite Hrun1.
Qed.

(** C6, as the code has it.  A round that applies at least one assignment
    strictly decreases the number of empty cells, and a round that applies
    none leaves it unchanged.  On every well-formed object [solve]
    terminates: it returns after a definite number of turns of its
    [while] loop, all but the last of which apply an assignment; every
    assignment fills one empty cell; the number of turns is at most
    N * N + 1, and at most N * N when N is at least 2. *)
Theorem solve_terminates :
  (∀ t out, ready t →
     ∃ change out' t',
       solve_round out t = (inr (change, out'), t') ∧
       (change = true → empties t' < empties t) ∧
       (change = false → empties t' = empties t ∧ out' = out)) ∧
  (∀ s, ready s →
     ∃ rounds out s',
       solve rounds s = Some (inr out, s') ∧
       (∀ fuel, fuel < rounds → solve fuel s = None) ∧
       (∀ fuel, rounds ≤ fuel → solve fuel s = Some (inr out, s')) ∧
       1 ≤ rounds ≤ length out + 1 ∧
       empties s' + length out = empties s ∧
       rounds ≤ self_N s * self_N s + 1 ∧
       (2 ≤ self_N s → rounds ≤ self_N s * self_N s)).
Proof.
  split.
  - intros t out Hready.
    destruct (round_ready no_check no_check_poss t Hready eq_refl)
      as (t0 & Hwf0 & Hc0 & _ & Hemp0 & _ & _ & _ & Hsame).
    destruct (round_spec no_check no_check_set t0 Hwf0 Hc0 eq_refl)
      as (t' & app & Hrun & _ & _ & _ & Hemp & _).
    exists (flag_after false app), (out ++ app), t'.
    rewrite (proj2 (Hsame out)). split; [apply Hrun|].
    destruct app as [|a app]; simpl in *.
    + split; [done|]. intros _. rewrite app_nil_r. split; [lia|done].
    + split; [lia|done].
  - intros s Hready.
    destruct (solve_spec no_check no_check_set no_check_poss s Hready eq_refl)
      as (rounds & app & s' & Hr & _ & Hs & Hmin & _ & _ & _ & Hemp & _ & Hstall).
    exists rounds, app, s'. pose proof (empties_le s (proj1 Hready)) as Hle.
    split; [done|]. split; [intros f Hf; by apply Hmin|].
    split; [intros f Hf; unfold solve in *; by apply (solve_loop_mono rounds)|].
    split; [done|]. split; [done|]. split; [lia|].
    intros HN. destruct (decide (empties s = self_N s * self_N s)) as [Hall|Hn].
    + rewrite (Hstall Hall HN) in Hr. simpl in Hr. nia.
    + lia.
Qed.

(** C9 (idempotence).  When [solve] has returned, running [solve] again on
    the state it left applies no assignment and leaves the state, grid
    and candidate store, as it is. *)
Theorem solve_idempotent (s s' : Sudoku) (fuel : nat) (out : list (cell * Z)) :
  ready s → solve fuel s = Some (inr out, s') →
  ∀ fuel', 0 < fuel' → solve fuel' s' = Some (inr [], s').
Proof.
  intros Hready Hsolve fuel' Hfuel.
  destruct (solve_spec no_check no_check_set no_check_poss s Hready eq_refl)
    as (rounds & app & s'' & Hr & _ & Hs & Hmin & _ & _ & _ & _ & Hfix & _).
  assert (s' = s'') as ->.
  { destruct (decide (fuel < rounds)) as [Hlt|Hge].
    - destruct (Hmin fuel Hlt) as [_ Hnone]. congruence.
    - unfold solve in *.
      rewrite (solve_loop_mono _ fuel _ _ _ Hs) in Hsolve by lia. congruence. }
  destruct fuel' as [|fuel']; [lia|]. unfold solve. simpl.
  by rewrite (proj1 (Hfix [])).
Qed.

(** ** The claims that fail as stated *)

(** C3 as stated fails.  On [grid_chain] the first round applies
    [(1,0) = 1], which no scan of the state at the start of the round
    finds: it is found in column 0 only after [(0,0) = 2], found in row 0,
    has been applied. *)
Lemma round_is_not_a_snapshot :
  ready grid_chain ∧
  ∃ scanned applied,
    (collect_scan grid_chain).1 = inr scanned ∧
    (solve_round [] grid_chain).1 = inr (true, applied) ∧
    ((1, 0), 1%Z) ∈ applied ∧ ((1, 0), 1%Z) ∉ scanned.
Proof.
  split.
  { split; [|by left]. unfold wf, grid_ok. simpl. repeat split; lia. }
  exists [((0, 0), 2%Z); ((0, 0), 2%Z); ((0, 0), 2%Z);
          ((3, 3), 2%Z); ((3, 3), 2%Z); ((3, 3), 2%Z)],
         [((0, 0), 2%Z); ((1, 0), 1%Z); ((3, 3), 2%Z)].
  split; [by vm_compute|]. split; [by vm_compute|]. split.
  - apply (bool_decide_unpack _). by vm_compute.
  - apply (bool_decide_unpack _). by vm_compute.
Qed.

(** C6 as stated fails.  On the grid of [Sudoku(1)], whose single cell is
    empty, [solve] needs two turns of its loop: the first fills the cell,
    the second finds nothing to do.  One turn, that is N * N turns, does
    not reach the end. *)
Lemma one_cell_needs_two_rounds :
  init [PyInt 1] ∅ = inr sudoku_1x1 ∧
  ready sudoku_1x1 ∧
  solve (self_N sudoku_1x1 * self_N sudoku_1x1) sudoku_1x1 = None ∧
  solve 0 sudoku_1x1 = None ∧
  fst <$> solve 2 sudoku_1x1 = Some (inr [((0, 0), 1%Z)]).
Proof.
  split; [by vm_compute|]. split.
  { split; [|by left]. unfold wf, grid_ok. simpl. repeat split; lia. }
  split; [by vm_compute|]. split; by vm_compute.
Qed.

(** ** The theorems at concrete inputs *)

Lemma wf_grid_top_row : wf grid_top_row.
Proof. unfold wf, grid_ok. simpl. repeat split; lia. Defined.

Lemma ready_grid_top_row : ready grid_top_row.
Proof. split; [apply wf_grid_top_row|by left]. Defined.

Lemma candidate_store_correct_witness :
  wf grid_top_row ∧
  make_poss_dict grid_top_row = (inr tt, grid_top_row_built) ∧
  Forall (λ op : cell * Z, op.2 ≠ 0%Z) [((0, 3), 4%Z)] ∧
  set_all [((0, 3), 4%Z)] grid_top_row_built = (inr tt, grid_top_row_set) ∧
  ∀ i j, i < self_N grid_top_row_set → j < self_N grid_top_row_set →
    ∃ c, (self_poss grid_top_row_set ≫= (.!! (i, j))) = Some c ∧
         possible grid_top_row_set i j = inr c ∧
         (∀ w, grid_get (self_grid grid_top_row_set) i j = Some w →
               w ≠ 0%Z → c = []) ∧
         (grid_get (self_grid grid_top_row_set) i j = Some 0%Z →
          ∀ v, v ∈ c ↔
               (1 ≤ v ≤ Z.of_nat (self_N grid_top_row_set))%Z ∧
               ∀ xy : cell,
                 xy ∈ row grid_top_row_set i ∨ xy ∈ col grid_top_row_set j ∨
                 xy ∈ region grid_top_row_set i j →
                 grid_get (self_grid grid_top_row_set) xy.1 xy.2 ≠ Some v).
Proof.
  assert (Forall (λ op : cell * Z, op.2 ≠ 0%Z) [((0, 3), 4%Z)]) as Hops
    by (by repeat constructor).
  assert (make_poss_dict grid_top_row = (inr tt, grid_top_row_built)) as Hmk
    by (vm_compute; reflexivity).
  assert (set_all [((0, 3), 4%Z)] grid_top_row_built
          = (inr tt, grid_top_row_set)) as Hrun
    by (vm_compute; reflexivity).
  split; [apply wf_grid_top_row|]. split; [exact Hmk|].
  split; [exact Hops|]. split; [exact Hrun|].
  exact (candidate_store_correct grid_top_row grid_top_row_built
           grid_top_row_set [((0, 3), 4%Z)] wf_grid_top_row Hmk Hops Hrun).
Defined.

Lemma solve_keeps_unique_witness :
  ready grid_top_row ∧ grid_unique grid_top_row ∧
  (∀ fuel, audited_loop unique_check fuel [] grid_top_row
           = solve fuel grid_top_row) ∧
  (∃ fuel out s', solve fuel grid_top_row = Some (inr out, s')).
Proof.
  assert (grid_unique grid_top_row) as Hu
    by (apply (bool_decide_unpack _); vm_compute; exact I).
  split; [apply ready_grid_top_row|]. split; [exact Hu|].
  destruct (solve_keeps_unique grid_top_row ready_grid_top_row Hu)
    as (_ & Haudit & _ & Hret).
  split; [exact Haudit|exact Hret].
Defined.

Lemma round_scans_current_state_witness :
  ready grid_top_row ∧
  scan_ranges grid_top_row =
    take 3 (scan_ranges grid_top_row) ++
    row grid_top_row 1 :: drop 4 (scan_ranges grid_top_row) ∧
  solve_round [] grid_top_row =
    (_ <- ensure_poss ;;
     acc1 <- for_acc (take 3 (scan_ranges grid_top_row)) (false, [])
               (scan_range solve_body) ;;
     (λ t, (acc2 <- for_acc (placements_at t (row grid_top_row 1)) acc1
                      solve_body ;;
            for_acc (drop 4 (scan_ranges grid_top_row)) acc2
              (scan_range solve_body)) t)) grid_top_row.
Proof.
  assert (scan_ranges grid_top_row =
            take 3 (scan_ranges grid_top_row) ++
            row grid_top_row 1 :: drop 4 (scan_ranges grid_top_row)) as HRs
    by (vm_compute; reflexivity).
  split; [apply ready_grid_top_row|]. split; [exact HRs|].
  exact (round_scans_current_state grid_top_row [] _ _ _
           ready_grid_top_row HRs).
Defined.

Lemma only_in_range_correct_witness :
  poss_missing grid_top_row_built = false ∧
  self_poss grid_top_row_built = Some (poss_of grid_top_row_built) ∧
  NoDup (row grid_top_row_built 0) ∧
  (∀ c, c ∈ row grid_top_row_built 0 →
        is_Some (poss_of grid_top_row_built !! c) ∧
        NoDup (cands (poss_of grid_top_row_built) c)) ∧
  ∃ D, only_in_range (row grid_top_row_built 0) grid_top_row_built
         = (inr D, grid_top_row_built) ∧
       NoDup D.*1 ∧
       (∀ c v, (c, v) ∈ D →
               holders (poss_of grid_top_row_built)
                       (row grid_top_row_built 0) v = [c]).
Proof.
  assert (poss_missing grid_top_row_built = false) as Hmiss
    by (vm_compute; reflexivity).
  assert (self_poss grid_top_row_built = Some (poss_of grid_top_row_built))
    as Hp by (vm_compute; reflexivity).
  assert (NoDup (row grid_top_row_built 0)) as HR
    by (apply (bool_decide_unpack _); vm_compute; exact I).
  assert (∀ c, c ∈ row grid_top_row_built 0 →
            is_Some (poss_of grid_top_row_built !! c) ∧
            NoDup (cands (poss_of grid_top_row_built) c)) as Hsets.
  { apply Forall_forall. apply (bool_decide_unpack _). vm_compute. exact I. }
  split; [exact Hmiss|]. split; [exact Hp|]. split; [exact HR|].
  split; [exact Hsets|].
  destruct (only_in_range_correct grid_top_row_built
              (poss_of grid_top_row_built) (row grid_top_row_built 0)
              Hmiss Hp HR Hsets) as (D & Hrun & Hnd & _ & Hsound & _).
  exists D. split; [exact Hrun|]. split; [exact Hnd|exact Hsound].
Defined.

Lemma scan_coverage_witness :
  wf grid_top_row ∧
  find_only solve_body (false, []) grid_top_row =
    for_acc (scan_ranges grid_top_row) (false, [])
      (λ rng acc, d <- only_in_range rng ;; for_acc d acc solve_body)
      grid_top_row ∧
  length (scan_ranges grid_top_row) = 3 * self_N grid_top_row.
Proof.
  split; [apply wf_grid_top_row|].
  destruct (scan_coverage grid_top_row wf_grid_top_row)
    as (Hpass & _ & Hlen & _).
  split; [|exact Hlen].
  exact (Hpass _ solve_body (false, []) keeps_sizes_solve_body).
Defined.

Lemma solve_terminates_witness :
  ready grid_top_row ∧
  (∃ change out' t',
     solve_round [] grid_top_row = (inr (change, out'), t') ∧
     (change = true → empties t' < empties grid_top_row) ∧
     (change = false → empties t' = empties grid_top_row ∧ out' = [])) ∧
  (∃ rounds out s',
     solve rounds grid_top_row = Some (inr out, s') ∧
     (∀ fuel, fuel < rounds → solve fuel grid_top_row = None) ∧
     (∀ fuel, rounds ≤ fuel → solve fuel grid_top_row = Some (inr out, s')) ∧
     1 ≤ rounds ≤ length out + 1 ∧
     empties s' + length out = empties grid_top_row ∧
     rounds ≤ self_N grid_top_row * self_N grid_top_row + 1 ∧
     (2 ≤ self_N grid_top_row →
      rounds ≤ self_N grid_top_row * self_N grid_top_row)).
Proof.
  split; [apply ready_grid_top_row|]. split.
  - exact (proj1 solve_terminates grid_top_row [] ready_grid_top_row).
  - exact (proj2 solve_terminates grid_top_row ready_grid_top_row).
Defined.

Lemma init_size_inference_witness :
  positional 0 [] {[ "grid" := PyArray (zeros 4) ]}
    = inr {[ "grid" := PyArray (zeros 4) ]} ∧
  match init [] {[ "grid" := PyArray (zeros 4) ]} with
  | inr s => self_N s = 4 ∧ self_grid s = zeros 4 ∧
             1 < self_n s ∧ self_n s ≤ Nat.sqrt 4 ∧ 4 mod self_n s = 0 ∧
             (∀ d, d ≤ Nat.sqrt 4 → 4 mod d = 0 → d ≤ self_n s) ∧
             self_m s = 4 / self_n s ∧ self_m s * self_n s = 4
  | inl e => e = ValueError SizeNotProduct ∧
             ∀ d, 1 < d → d ≤ Nat.sqrt 4 → 4 mod d ≠ 0
  end ∧
  guess 7 = inl (ValueError SizeNotProduct) ∧
  init [PyInt 2; PyInt 3; PyArray (zeros 4)] ∅ = inl (ValueError SizeDiffers).
Proof.
  destruct init_size_inference as (Hinfer & Hprime & _ & _ & Hdiffer).
  split; [reflexivity|]. split; [|split].
  - apply (Hinfer [] {[ "grid" := PyArray (zeros 4) ]}
             {[ "grid" := PyArray (zeros 4) ]} (PyArray (zeros 4))
             (zeros 4) (zeros 4) 4); reflexivity.
  - apply Hprime. intros d Hd.
    assert (d = 2 ∨ d = 3 ∨ d = 4 ∨ d = 5 ∨ d = 6) as Hcases by lia.
    destruct Hcases as [-> | [-> | [-> | [-> | ->]]]]; vm_compute; lia.
  - apply (Hdiffer [PyInt 2; PyInt 3; PyArray (zeros 4)] ∅
             (<["grid" := PyArray (zeros 4)]>
                (<["n" := PyInt 3]> (<["m" := PyInt 2]> ∅)))
             2%Z 3%Z (PyArray (zeros 4)) (zeros 4) (zeros 4) 4);
      try reflexivity; try lia.
Defined.


Lemma solve_idempotent_witness :
  ready grid_top_row ∧
  solve 2 grid_top_row = Some (inr [((0, 3), 4%Z)], grid_top_row_set) ∧
  ∀ fuel', 0 < fuel' →
    solve fuel' grid_top_row_set = Some (inr [], grid_top_row_set).
Proof.
  assert (solve 2 grid_top_row
          = Some (inr [((0, 3), 4%Z)], grid_top_row_set)) as Hsolve
    by (vm_compute; reflexivity).
  split; [apply ready_grid_top_row|]. split; [exact Hsolve|].
  exact (solve_idempotent grid_top_row grid_top_row_set 2 [((0, 3), 4%Z)]
           ready_grid_top_row Hsolve).
Defined.

Lemma init_no_default_witness :
  Forall (λ a, ∀ z, a ≠ PyInt z) [PyArray (zeros 4)] ∧
  (∅ : gmap string pyobj) !! "m" = None ∧
  match init [PyArray (zeros 4)] ∅ with
  | inl _ => True
  | inr s => guess (self_N s) = inr (self_m s, self_n s)
  end.
Proof.
  assert (Forall (λ a, ∀ z, a ≠ PyInt z) [PyArray (zeros 4)]) as Hargs
    by (by repeat constructor).
  split; [exact Hargs|]. split; [reflexivity|].
  exact (proj2 (proj2 (proj2 init_no_default)) [PyArray (zeros 4)] ∅
           Hargs eq_refl).
Defined.

(** ** The module's own grid, and two small ones *)

Example init_source_grid : init [PyArray source_grid] ∅ = inr S_instance.
Proof. by vm_compute. Qed.

(** [S.solve()] takes seven turns, fills 22 cells, leaves 33 empty and
    stops with the rows, columns and regions free of repeated values. *)
Example solve_source_grid :
  solve 6 S_instance = None ∧
  match solve 7 S_instance with
  | Some (inr out, s') =>
      Some (length out, empties s', bool_decide (grid_unique s'))
  | _ => None
  end = Some (22, 33, true).
Proof. split; by vm_compute. Qed.

Example solve_grid_top_row :
  solve 1 grid_top_row = None ∧
  fst <$> solve 2 grid_top_row = Some (inr [((0, 3), 4%Z)]).
Proof. split; by vm_compute. Qed.

Example init_sizes :
  init [PyInt 2; PyInt 3] ∅ = inr (MkSudoku 6 2 3 (zeros 6) None) ∧
  init [PyInt 3] ∅ = inr (MkSudoku 9 3 3 (zeros 9) None) ∧
  init [PyInt 0] ∅ = inl (ValueError (NotPositiveInteger "m")) ∧
  init [PyArray (NdArray [2; 3] (replicate 6 0%Z))] ∅
    = inl (ValueError GridNotSquare) ∧
  init [PyArray (NdArray [2; 2; 2] (replicate 8 0%Z))] ∅
    = inl (ValueError GridNotTwoDimensional) ∧
  init [PyArray (NdArray [8] (replicate 8 0%Z))] ∅
    = inl (ValueError GridNotSquareTotal) ∧
  init [PyOther] ∅ = inl (ValueError GridNotArray).
Proof. repeat split; by vm_compute. Qed.

(** * Further properties of the code *)

(** ** Geometry: [region], [all] *)

Lemma region_same (s : Sudoku) (i j x y : nat) :
  x / self_m s = i / self_m s → y / self_n s = j / self_n s →
  region s x y = region s i j.
Proof. intros H1 H2. unfold region. by rewrite H1, H2. Qed.

(** X1.  The regions tile the grid: the region of a cell of the grid
    contains the cell, has [N] distinct cells, all in the grid, and is the
    region of each of its cells; the regions of two cells are the same or
    have no cell in common. *)
Theorem region_partition (s : Sudoku) (i j : nat) :
  wf s → i < self_N s → j < self_N s →
  (i, j) ∈ region s i j ∧
  length (region s i j) = self_N s ∧
  NoDup (region s i j) ∧
  in_grid s (region s i j) ∧
  (∀ x y, (x, y) ∈ region s i j → region s x y = region s i j) ∧
  (∀ x y, (x, y) ∉ region s i j →
          ∀ c, c ∈ region s x y → c ∉ region s i j).
Proof.
  intros Hwf Hi Hj. pose proof Hwf as (HN & Hm & Hn & _).
  split; [by apply elem_of_region|].
  split; [unfold region; by rewrite length_block|].
  split; [apply NoDup_block|]. split.
  { intros [x y] Hin. by apply (region_in_grid s i j). }
  split.
  - intros x y Hin. apply elem_of_region in Hin as [H1 H2]; [|done..].
    by apply region_same.
  - intros x y Hout [a b] Hc Hc'. apply Hout.
    apply elem_of_region in Hc as [H1 H2], Hc' as [H3 H4]; try done.
    apply elem_of_region; [done..|]. split; congruence.
Qed.

Lemma region_partition_witness :
  wf grid_top_row ∧ 1 < self_N grid_top_row ∧ 2 < self_N grid_top_row ∧
  (1, 2) ∈ region grid_top_row 1 2 ∧
  length (region grid_top_row 1 2) = self_N grid_top_row.
Proof.
  assert (1 < self_N grid_top_row) as H1 by (simpl; lia).
  assert (2 < self_N grid_top_row) as H2 by (simpl; lia).
  destruct (region_partition grid_top_row 1 2 wf_grid_top_row H1 H2)
    as (Hin & Hlen & _).
  split; [apply wf_grid_top_row|]. split; [exact H1|]. split; [exact H2|].
  split; [exact Hin|exact Hlen].
Defined.

(** X2.  [all()] lists the cells of the grid, each once, row after row:
    its members are the pairs of indices below [N], it has no repetition,
    [N * N] members, and it is the rows [row(0)], ..., [row(N-1)] one after
    the other. *)
Theorem all_cells (s : Sudoku) :
  (∀ x y, (x, y) ∈ all s ↔ x < self_N s ∧ y < self_N s) ∧
  NoDup (all s) ∧
  length (all s) = self_N s * self_N s ∧
  all s = concat (map (row s) (seq 0 (self_N s))).
Proof.
  split; [apply elem_of_all|]. split; [apply NoDup_block|].
  split; [apply length_block|].
  unfold all, row. by rewrite flat_map_concat_map.
Qed.

(** ** [possible] *)

Lemma grid_get_None (g : ndarray) (N i j : nat) :
  grid_ok g N → N ≤ i ∨ N ≤ j → grid_get g i j = None.
Proof.
  intros [Hs _] Hout. unfold grid_get. rewrite Hs.
  destruct (i <? N) eqn:E1, (j <? N) eqn:E2; try done.
  apply Nat.ltb_lt in E1, E2. lia.
Qed.

(** X3.  On an N x N grid, [possible(i,j)] with an index that is not below
    [N] raises [IndexError]. *)
Theorem possible_out_of_range (s : Sudoku) (i j : nat) :
  grid_ok (self_grid s) (self_N s) → self_N s ≤ i ∨ self_N s ≤ j →
  possible s i j = inl IndexError.
Proof.
  intros Hg Hout. unfold possible. by rewrite (grid_get_None _ _ _ _ Hg Hout).
Qed.

Lemma possible_out_of_range_witness :
  grid_ok (self_grid grid_top_row) (self_N grid_top_row) ∧
  (self_N grid_top_row ≤ 4 ∨ self_N grid_top_row ≤ 0) ∧
  possible grid_top_row 4 0 = inl IndexError.
Proof.
  assert (grid_ok (self_grid grid_top_row) (self_N grid_top_row)) as Hg
    by (by split).
  assert (self_N grid_top_row ≤ 4 ∨ self_N grid_top_row ≤ 0) as Hout
    by (left; simpl; lia).
  split; [exact Hg|]. split; [exact Hout|].
  exact (possible_out_of_range grid_top_row 4 0 Hg Hout).
Defined.

Lemma grid_unique_with_poss (s : Sudoku) (p : gmap cell (list Z)) :
  grid_unique (with_poss s p) ↔ grid_unique s.
Proof. done. Qed.

Lemma candidates_iff_legal (s : Sudoku) (i j : nat) (v : Z) :
  wf s → grid_unique s → grid_get (self_grid s) i j = Some 0%Z →
  (1 ≤ v ≤ Z.of_nat (self_N s))%Z →
  v ∈ candidates s i j ↔
  grid_unique (with_grid s (grid_set (self_grid s) i j v)).
Proof.
  intros Hwf Hu H0 Hv. pose proof Hwf as (HN & Hm & Hn & Hg).
  destruct (grid_get_lt _ _ Hg _ _ _ H0) as [Hi Hj].
  assert (wf (with_grid s (grid_set (self_grid s) i j v))) as Hwf'.
  { repeat split; try done; simpl; by apply grid_set_ok. }
  split.
  - intros Hin. apply no_clash_grid_unique; [done|].
    apply (no_clash_set s i j v ∅); [done| |done].
    by apply grid_unique_no_clash.
  - intros Hu'. apply grid_unique_no_clash in Hu'; [|done].
    destruct (decide (v ∈ candidates s i j)) as [|Hnot]; [done|]. exfalso.
    unfold candidates in Hnot. rewrite H0 in Hnot.
    rewrite list_elem_of_difference, elem_of_entries in Hnot.
    assert (v ∈ values_at (self_grid s) (peers s i j)) as Hused.
    { destruct (decide (v ∈ values_at (self_grid s) (peers s i j))); tauto. }
    apply elem_of_values_at in Hused as ([x y] & Hin & Hget). simpl in Hget.
    apply elem_of_peers in Hin as (Hx & Hy & Hrel); [|done..].
    assert ((x, y) ≠ (i, j)) as Hne.
    { intros [= -> ->]. rewrite H0 in Hget. injection Hget as <-. lia. }
    apply Hne. apply (Hu' (x, y) (i, j) v); simpl; try done; try lia.
    + by rewrite (grid_get_set_ne _ _ Hg).
    + by apply (grid_get_set_eq _ _ Hg).
Qed.

(** X4.  [possible] gives the legal moves.  On a well-formed object whose
    rows, columns and regions hold no value twice, for an empty cell
    [(i,j)] and a value [v] of 1..N: [v] is in [possible(i,j)] exactly when
    the grid with [v] written at [(i,j)] still holds no value twice in any
    row, column or region. *)
Theorem possible_iff_legal (s : Sudoku) (i j : nat) (v : Z) :
  wf s → grid_unique s → grid_get (self_grid s) i j = Some 0%Z →
  (1 ≤ v ≤ Z.of_nat (self_N s))%Z →
  ∃ c, possible s i j = inr c ∧
       (v ∈ c ↔ grid_unique (with_grid s (grid_set (self_grid s) i j v))).
Proof.
  intros Hwf Hu H0 Hv. pose proof Hwf as (HN & Hm & Hn & Hg).
  destruct (grid_get_lt _ _ Hg _ _ _ H0) as [Hi Hj].
  exists (candidates s i j). split; [by apply possible_candidates|].
  by apply candidates_iff_legal.
Qed.

Lemma possible_iff_legal_witness :
  wf grid_top_row ∧ grid_unique grid_top_row ∧
  grid_get (self_grid grid_top_row) 0 3 = Some 0%Z ∧
  (1 ≤ 4 ≤ Z.of_nat (self_N grid_top_row))%Z ∧
  ∃ c, possible grid_top_row 0 3 = inr c ∧
       (4%Z ∈ c ↔
        grid_unique (with_grid grid_top_row
                       (grid_set (self_grid grid_top_row) 0 3 4%Z))).
Proof.
  assert (grid_unique grid_top_row) as Hu
    by (apply (bool_decide_unpack _); vm_compute; exact I).
  assert (grid_get (self_grid grid_top_row) 0 3 = Some 0%Z) as H0
    by reflexivity.
  assert (1 ≤ 4 ≤ Z.of_nat (self_N grid_top_row))%Z as Hv by (simpl; lia).
  split; [apply wf_grid_top_row|]. split; [exact Hu|]. split; [exact H0|].
  split; [exact Hv|].
  exact (possible_iff_legal grid_top_row 0 3 4%Z wf_grid_top_row Hu H0 Hv).
Defined.

(** ** [set]: errors and frame *)

(** X5.  On an N x N grid, [set(i,j,value)] with an index that is not below
    [N] raises [IndexError] and changes nothing. *)
Theorem set_out_of_range (s : Sudoku) (i j : nat) (v : Z) :
  grid_ok (self_grid s) (self_N s) → self_N s ≤ i ∨ self_N s ≤ j →
  set i j v s = (inl IndexError, s).
Proof.
  intros Hg Hout. unfold set. by rewrite (grid_get_None _ _ _ _ Hg Hout).
Qed.

Lemma set_out_of_range_witness :
  grid_ok (self_grid grid_top_row) (self_N grid_top_row) ∧
  (self_N grid_top_row ≤ 0 ∨ self_N grid_top_row ≤ 7) ∧
  set 0 7 1%Z grid_top_row = (inl IndexError, grid_top_row).
Proof.
  assert (grid_ok (self_grid grid_top_row) (self_N grid_top_row)) as Hg
    by (by split).
  assert (self_N grid_top_row ≤ 0 ∨ self_N grid_top_row ≤ 7) as Hout
    by (right; simpl; lia).
  split; [exact Hg|]. split; [exact Hout|].
  exact (set_out_of_range grid_top_row 0 7 1%Z Hg Hout).
Defined.

(** X6.  [set] is not atomic.  On an empty cell, with a value that fits
    the 64-bit cells of the grid, it can only fail with [AttributeError]
    (exactly when the object has no candidate store yet) or [KeyError] (a
    key of the store is missing), and in both cases the value has already
    been written to the grid. *)
Theorem set_failure_writes (s s' : Sudoku) (i j : nat) (v : Z) (e : exn) :
  grid_get (self_grid s) i j = Some 0%Z → int64 v →
  set i j v s = (inl e, s') →
  (e = AttributeError ∨ e = KeyError) ∧
  (e = AttributeError ↔ self_poss s = None) ∧
  self_grid s' = grid_set (self_grid s) i j v ∧
  grid_get (self_grid s') i j = Some v.
Proof.
  intros H0 _ Hset. unfold set in Hset. rewrite H0 in Hset.
  rewrite bool_decide_eq_true_2 in Hset by done. simpl in Hset.
  pose proof (grid_get_set_same _ _ _ _ v H0) as Hv.
  destruct (self_poss s) as [p|] eqn:Hp.
  - destruct (discard_all _ _ _) as [[] p2]; [done|].
    injection Hset as <- <-. simpl. repeat split; try done; auto.
  - injection Hset as <- <-. simpl. repeat split; try done; auto.
Qed.

Lemma set_failure_writes_witness :
  grid_get (self_grid grid_top_row) 0 3 = Some 0%Z ∧ int64 4 ∧
  set 0 3 4%Z grid_top_row =
    (inl AttributeError, (set 0 3 4%Z grid_top_row).2) ∧
  grid_get (self_grid (set 0 3 4%Z grid_top_row).2) 0 3 = Some 4%Z.
Proof.
  assert (grid_get (self_grid grid_top_row) 0 3 = Some 0%Z) as H0
    by reflexivity.
  assert (int64 4) as H64 by (unfold int64; lia).
  assert (set 0 3 4%Z grid_top_row =
          (inl AttributeError, (set 0 3 4%Z grid_top_row).2)) as Hset
    by reflexivity.
  split; [exact H0|]. split; [exact H64|]. split; [exact Hset|].
  exact (proj2 (proj2 (proj2
    (set_failure_writes grid_top_row _ 0 3 4%Z AttributeError H0 H64 Hset)))).
Defined.

Lemma grid_get_set_other (g : ndarray) (i j x y : nat) (w v : Z) :
  grid_get g i j = Some w → (x, y) ≠ (i, j) →
  grid_get (grid_set g i j v) x y = grid_get g x y.
Proof.
  unfold grid_get, grid_set. intros Hget Hne.
  destruct (shape g) as [|r [|c [|]]] eqn:Hs; try done.
  simpl.
  destruct (i <? r) eqn:E1, (j <? c) eqn:E2; try done.
  destruct (x <? r) eqn:E3, (y <? c) eqn:E4; simpl; try done.
  apply Nat.ltb_lt in E1, E2, E3, E4.
  apply list_lookup_insert_ne. intros Heq.
  assert (i = x) by nia. assert (j = y) by nia. congruence.
Qed.

Lemma discard_all_total (v : Z) (ks : list cell) (p p' : gmap cell (list Z)) :
  discard_all v ks p = (true, p') → ∀ k, k ∈ ks → is_Some (p !! k).
Proof.
  revert p. induction ks as [|ij ks IH]; intros p Hd k Hk.
  { by apply not_elem_of_nil in Hk. }
  simpl in Hd. unfold poss_discard in Hd.
  destruct (p !! ij) as [c|] eqn:Hc; [|done].
  apply elem_of_cons in Hk as [->|Hk]; [by eauto|].
  specialize (IH _ Hd k Hk).
  destruct (decide (k = ij)) as [->|Hne]; [by eauto|].
  by rewrite lookup_insert_ne in IH.
Qed.

Lemma discard_all_inv (v : Z) (ks : list cell) (p p' : gmap cell (list Z)) :
  discard_all v ks p = (true, p') →
  ∀ k : cell, p' !! k = if decide (k ∈ ks) then discard v <$> p !! k else p !! k.
Proof.
  intros Hd. destruct (discard_all_ok v ks p) as (q & Hq & Hlook).
  { by apply (discard_all_total v ks p p'). }
  rewrite Hd in Hq. by injection Hq as <-.
Qed.

Lemma set_inv (s s' : Sudoku) (i j : nat) (v : Z) :
  set i j v s = (inr tt, s') →
  grid_get (self_grid s) i j = Some 0%Z ∧
  ∃ p p' : gmap cell (list Z), self_poss s = Some p ∧
    s' = with_poss (with_grid s (grid_set (self_grid s) i j v)) p' ∧
    ∀ k : cell, p' !! k = if decide (k ∈ set_targets s i j)
                   then discard v <$> <[(i, j) := []]> p !! k
                   else <[(i, j) := []]> p !! k.
Proof.
  intros Hset. pose proof (set_success_inv _ _ _ _ _ Hset) as H0.
  split; [done|]. unfold set in Hset. rewrite H0 in Hset.
  rewrite bool_decide_eq_true_2 in Hset by done. simpl in Hset.
  destruct (self_poss s) as [p|] eqn:Hp; [|done].
  destruct (discard_all _ _ _) as [[] p2] eqn:Hd; [|done].
  injection Hset as <-. exists p, p2. split; [done|]. split; [done|].
  apply (discard_all_inv _ _ _ _ Hd).
Qed.

(** X7.  The frame of a successful [set(i,j,value)], on any object: the
    sizes are kept, the cell now holds [value], every other cell of the
    grid is unchanged; in the candidate store the set of [(i,j)] is empty,
    the keys are those of before and [(i,j)], and every other set is the
    old one or the old one without [value]: candidate sets only shrink. *)
Theorem set_frame (s s' : Sudoku) (i j : nat) (v : Z) :
  set i j v s = (inr tt, s') →
  same_sizes s s' ∧
  grid_get (self_grid s') i j = Some v ∧
  (∀ x y, (x, y) ≠ (i, j) →
          grid_get (self_grid s') x y = grid_get (self_grid s) x y) ∧
  ∃ p p' : gmap cell (list Z),
    self_poss s = Some p ∧ self_poss s' = Some p' ∧
    p' !! (i, j) = Some [] ∧
    (∀ k : cell, is_Some (p' !! k) ↔ k = (i, j) ∨ is_Some (p !! k)) ∧
    (∀ (k : cell) (c' : list Z), k ≠ (i, j) → p' !! k = Some c' →
             ∃ c, p !! k = Some c ∧ (c' = c ∨ c' = discard v c) ∧ c' ⊆ c).
Proof.
  intros Hset. apply set_inv in Hset as (H0 & p & p' & Hp & -> & Hlook).
  split; [done|]. simpl.
  split; [by apply (grid_get_set_same _ _ _ 0%Z)|].
  split; [intros x y Hne; by apply (grid_get_set_other _ _ _ _ _ 0%Z)|].
  exists p, p'. split; [done|]. split; [done|]. split; [|split].
  - rewrite Hlook. destruct (decide _); by rewrite lookup_insert_eq.
  - intros k. rewrite Hlook. destruct (decide (k = (i, j))) as [->|Hne].
    + destruct (decide _); rewrite lookup_insert_eq; simpl; split; eauto.
    + destruct (decide _); rewrite lookup_insert_ne by done;
        rewrite ?fmap_is_Some; (split; [tauto|]); by intros [|].
  - intros k c' Hne Hc'. rewrite Hlook in Hc'.
    rewrite lookup_insert_ne in Hc' by done. revert Hc'.
    destruct (decide (k ∈ set_targets s i j)).
    + destruct (p !! k) as [c|]; simpl; [|done]. intros [= <-].
      exists c. split; [done|]. split; [by right|].
      intros w Hw. by apply elem_of_discard in Hw as [? _].
    + intros Hc'. exists c'. split; [done|]. split; [by left|done].
Qed.

Lemma set_frame_witness :
  set 0 3 4%Z grid_top_row_built =
    (inr tt, (set 0 3 4%Z grid_top_row_built).2) ∧
  grid_get (self_grid (set 0 3 4%Z grid_top_row_built).2) 0 3 = Some 4%Z.
Proof.
  assert (set 0 3 4%Z grid_top_row_built =
          (inr tt, (set 0 3 4%Z grid_top_row_built).2)) as Hset
    by (vm_compute; reflexivity).
  split; [exact Hset|].
  exact (proj1 (proj2 (set_frame grid_top_row_built _ 0 3 4%Z Hset))).
Defined.

Lemma built_top_row :
  wf grid_top_row_built ∧ consistent grid_top_row_built.
Proof.
  apply (make_poss_dict_consistent grid_top_row); [apply wf_grid_top_row|].
  by vm_compute.
Defined.

Lemma grid_set_same_value (g : ndarray) (i j : nat) (w : Z) :
  grid_get g i j = Some w → grid_set g i j w = g.
Proof.
  unfold grid_get, grid_set. destruct g as [sh d]. simpl.
  destruct sh as [|r [|c [|]]]; try done.
  destruct ((i <? r) && (j <? c)); [|done].
  intros Hd. by rewrite list_insert_id.
Qed.

(** X8.  [set] does not check the value against 1..N or against the
    candidates.  On a well-formed object with an up-to-date store, [set] on
    an empty cell succeeds for every [value] that fits the 64-bit cells of
    the grid: with 0 the grid is left as it was, and with a value of 1..N
    that is not in [possible(i,j)] a grid without repeated values becomes
    one with a value twice in a row, column or region. *)
Theorem set_unchecked (s : Sudoku) (i j : nat) (v : Z) :
  wf s → consistent s → grid_get (self_grid s) i j = Some 0%Z → int64 v →
  ∃ s', set i j v s = (inr tt, s') ∧
        (v = 0%Z → self_grid s' = self_grid s) ∧
        (grid_unique s → (1 ≤ v ≤ Z.of_nat (self_N s))%Z →
         v ∉ candidates s i j → ¬ grid_unique s').
Proof.
  intros Hwf (p & Hp & Hcons) H0 _.
  destruct (set_ok s i j v p Hwf Hp) as (p' & Hset & _); [|done|].
  { intros x y Hx Hy. rewrite Hcons by done. eauto. }
  eexists. split; [exact Hset|]. simpl. split.
  - intros ->. by apply grid_set_same_value.
  - intros Hu Hv Hnot Hu'. apply Hnot.
    by apply candidates_iff_legal.
Qed.

Lemma set_unchecked_witness :
  wf grid_top_row_built ∧ consistent grid_top_row_built ∧
  grid_get (self_grid grid_top_row_built) 0 3 = Some 0%Z ∧ int64 1 ∧
  ∃ s', set 0 3 1%Z grid_top_row_built = (inr tt, s') ∧
        (1%Z = 0%Z → self_grid s' = self_grid grid_top_row_built) ∧
        (grid_unique grid_top_row_built →
         (1 ≤ 1 ≤ Z.of_nat (self_N grid_top_row_built))%Z →
         1%Z ∉ candidates grid_top_row_built 0 3 → ¬ grid_unique s').
Proof.
  assert (grid_get (self_grid grid_top_row_built) 0 3 = Some 0%Z) as H0
    by reflexivity.
  assert (int64 1) as H64 by (unfold int64; lia).
  split; [apply built_top_row|]. split; [apply built_top_row|].
  split; [exact H0|]. split; [exact H64|].
  exact (set_unchecked grid_top_row_built 0 3 1%Z
           (proj1 built_top_row) (proj2 built_top_row) H0 H64).
Defined.

(** ** [only_in_range]: errors and effects *)

Lemma tally_missing (p : gmap cell (list Z)) (R : list cell) (c : cell)
    (found : list (Z * option cell)) :
  c ∈ R → p !! c = None → tally p R found = None.
Proof.
  revert found. induction R as [|a R IH]; intros found Hin Hc.
  { by apply not_elem_of_nil in Hin. }
  simpl. destruct (p !! a) as [vs|] eqn:Ha; [|done].
  apply elem_of_cons in Hin as [->|Hin]; [congruence|]. by apply IH.
Qed.

(** X9.  [only_in_range] with a non-empty store: a range with a cell that
    is not a key of the store raises [KeyError], whatever the other cells
    hold, and the empty range gives the empty dictionary; in both cases the
    object is unchanged. *)
Theorem only_in_range_missing_key (s : Sudoku) (p : gmap cell (list Z))
    (R : list cell) (c : cell) :
  self_poss s = Some p → p ≠ ∅ →
  only_in_range [] s = (inr [], s) ∧
  (c ∈ R → p !! c = None → only_in_range R s = (inl KeyError, s)).
Proof.
  intros Hp Hne.
  assert (poss_missing s = false) as Hmiss.
  { unfold poss_missing. rewrite Hp. by apply bool_decide_eq_false_2. }
  unfold only_in_range, bind, ensure_poss, get_poss, ret, raise.
  rewrite Hmiss, Hp. split; [done|].
  intros Hin Hc. by rewrite (tally_missing p R c [] Hin Hc).
Qed.

Lemma only_in_range_missing_key_witness :
  only_in_range [] grid_top_row_built = (inr [], grid_top_row_built) ∧
  only_in_range [(0, 0); (0, 4)] grid_top_row_built =
    (inl KeyError, grid_top_row_built).
Proof.
  assert (∃ p, self_poss grid_top_row_built = Some p ∧ p ≠ ∅ ∧
               p !! (0, 4) = None) as (p & Hp & Hne & Hc).
  { eexists. split; [by vm_compute|]. split; [|by vm_compute].
    intros Heq. apply (f_equal (λ q : gmap cell (list Z), q !! (0, 0))) in Heq.
    by vm_compute in Heq. }
  destruct (only_in_range_missing_key grid_top_row_built p
              [(0, 0); (0, 4)] (0, 4) Hp Hne) as [H1 H2].
  split; [exact H1|]. apply H2; [|exact Hc].
  apply elem_of_cons. right. apply list_elem_of_here.
Defined.

(** X10.  [only_in_range] never touches the grid or the sizes, whatever the
    range and whether or not it raises.  With a non-empty store the object
    is left exactly as it was; with no store, or an empty one, the only
    change is the one of [make_poss_dict]. *)
Theorem only_in_range_effect (s : Sudoku) (R : list cell) :
  self_grid (only_in_range R s).2 = self_grid s ∧
  same_sizes s (only_in_range R s).2 ∧
  (poss_missing s = false → (only_in_range R s).2 = s) ∧
  (poss_missing s = true →
   (only_in_range R s).2 = (make_poss_dict s).2).
Proof.
  unfold only_in_range, bind, ensure_poss, get_poss, ret, raise.
  destruct (poss_missing s) eqn:Hmiss.
  - unfold make_poss_dict.
    destruct (poss_comprehension s (all s) ∅) as [e|d]; simpl; [done|].
    destruct (tally d R []); done.
  - destruct (self_poss s) as [p|]; simpl; [|done].
    destruct (tally p R []); done.
Qed.

Lemma occ_pos (v : Z) (L : list (cell * Z)) (c : cell) :
  (c, v) ∈ L → 1 ≤ occ v L.
Proof.
  intros Hin. unfold occ.
  assert ((c, v) ∈ filter (λ e : cell * Z, e.2 = v) L) as Hf
    by (by apply list_elem_of_filter).
  destruct (filter _ L); [by apply not_elem_of_nil in Hf|simpl; lia].
Qed.

Lemma pairs_app (p : gmap cell (list Z)) (R1 R2 : list cell) :
  pairs p (R1 ++ R2) = pairs p R1 ++ pairs p R2.
Proof. unfold pairs. apply flat_map_app. Qed.

(** X11.  A cell listed twice in the range is never a key of the result of
    [only_in_range]: the second visit marks each of its candidates as seen
    before. *)
Theorem only_in_range_repeated_cell (s : Sudoku) (p : gmap cell (list Z))
    (R1 R2 : list cell) (c : cell) (D : list (cell * Z)) :
  poss_missing s = false → self_poss s = Some p → c ∈ R2 →
  only_in_range (R1 ++ c :: R2) s = (inr D, s) →
  ∀ v, (c, v) ∉ D.
Proof.
  intros Hmiss Hp Hc Hrun v Hin.
  unfold only_in_range, bind, ensure_poss, get_poss, ret, raise in Hrun.
  rewrite Hmiss, Hp in Hrun.
  destruct (tally p (R1 ++ c :: R2) []) as [found|] eqn:Ht; [|done].
  injection Hrun as <-.
  assert (∀ k, k ∈ R1 ++ c :: R2 → is_Some (p !! k)) as Hkeys.
  { intros k Hk. destruct (p !! k) eqn:Hpk; [by eauto|].
    by rewrite (tally_missing p _ k [] Hk Hpk) in Ht. }
  rewrite (tally_pairs p _ [] Hkeys) in Ht. injection Ht as <-.
  pose proof (placements_occ _ _ _ Hin) as Hocc.
  apply placements_elem, found_of_elem, elem_of_pairs in Hin as [_ Hv].
  rewrite pairs_app, occ_app in Hocc.
  change (c :: R2) with ([c] ++ R2) in Hocc. rewrite pairs_app, occ_app in Hocc.
  assert (1 ≤ occ v (pairs p [c])) as H1.
  { apply (occ_pos v _ c), elem_of_pairs. split; [apply list_elem_of_here|done]. }
  assert (1 ≤ occ v (pairs p R2)) as H2.
  { apply (occ_pos v _ c), elem_of_pairs. by split. }
  lia.
Qed.

Lemma only_in_range_repeated_cell_witness :
  poss_missing grid_top_row_built = false ∧
  (0, 3) ∈ [(0, 3)] ∧
  ∀ v, ((0, 3), v) ∉
       (match (only_in_range ([(0, 0)] ++ (0, 3) :: [(0, 3)])
                 grid_top_row_built).1
        with inr D => D | inl _ => [] end).
Proof.
  assert (poss_missing grid_top_row_built = false) as Hmiss
    by (by vm_compute).
  assert ((0, 3) ∈ [(0, 3)]) as Hc by apply list_elem_of_here.
  assert (self_poss grid_top_row_built = Some (poss_of grid_top_row_built))
    as Hp by reflexivity.
  split; [exact Hmiss|]. split; [exact Hc|].
  refine (only_in_range_repeated_cell grid_top_row_built _ [(0, 0)] [(0, 3)]
            (0, 3) _ Hmiss Hp Hc _).
  by vm_compute.
Defined.

(** ** [make_poss_dict] against the store kept by [set] *)

Lemma set_all_keys (ops : list (cell * Z)) (s s' : Sudoku) :
  wf s →
  (∃ p : gmap cell (list Z),
     self_poss s = Some p ∧ ∀ k : cell, is_Some (p !! k) → k ∈ all s) →
  set_all ops s = (inr tt, s') →
  ∃ p' : gmap cell (list Z),
    self_poss s' = Some p' ∧ ∀ k : cell, is_Some (p' !! k) → k ∈ all s'.
Proof.
  revert s. induction ops as [|[xy v] ops IH]; intros s Hwf Hkeys Hrun.
  { by injection Hrun as <-. }
  simpl in Hrun. unfold bind in Hrun.
  destruct (set xy.1 xy.2 v s) as [[e|[]] s1] eqn:Hset; [done|].
  apply (IH s1); [| |done].
  - apply set_inv in Hset as (_ & p & p' & _ & -> & _). by apply wf_with.
  - destruct Hkeys as (p & Hp & Hkeys).
    pose proof Hwf as (_ & _ & _ & Hg).
    apply set_inv in Hset as (H0 & q & q' & Hq & -> & Hlook).
    destruct (grid_get_lt _ _ Hg _ _ _ H0) as [Hi Hj].
    rewrite Hp in Hq. injection Hq as <-.
    exists q'. split; [done|]. intros k Hk.
    change (k ∈ all s). rewrite Hlook in Hk.
    assert (is_Some (<[(xy.1, xy.2) := []]> p !! k)) as Hk'.
    { destruct (decide _); [by apply fmap_is_Some in Hk|done]. }
    apply lookup_insert_is_Some in Hk' as [<-|[_ Hk']]; [|by apply Hkeys].
    by apply elem_of_all.
Qed.

(** X12.  The store kept up to date by [set] holds what [make_poss_dict]
    would build afresh.  After [make_poss_dict] on a well-formed object and
    any sequence of successful [set] calls with non-zero values, the keys
    of the store are exactly the cells of the grid, and calling
    [make_poss_dict] again succeeds, keeps the grid and the sizes, and
    gives a store with the same keys and, under each key, a set with the
    same members.  (Nothing is said of the order in which the sets are
    iterated.) *)
Theorem make_poss_dict_recompute (s0 s1 s2 : Sudoku)
    (ops : list (cell * Z)) :
  wf s0 →
  make_poss_dict s0 = (inr tt, s1) →
  Forall (λ op, op.2 ≠ 0%Z) ops →
  set_all ops s1 = (inr tt, s2) →
  (∀ k : cell, is_Some (poss_of s2 !! k) ↔ k ∈ all s2) ∧
  ∃ s3, make_poss_dict s2 = (inr tt, s3) ∧
        self_grid s3 = self_grid s2 ∧ same_sizes s2 s3 ∧
        ∀ k : cell,
          (is_Some (poss_of s3 !! k) ↔ is_Some (poss_of s2 !! k)) ∧
          ∀ v, v ∈ cands (poss_of s3) k ↔ v ∈ cands (poss_of s2) k.
Proof.
  intros Hwf0 Hmk Hops Hrun.
  destruct (make_poss_dict_consistent _ _ Hwf0 Hmk) as [Hwf1 Hc1].
  destruct (set_all_consistent _ _ _ Hwf1 Hc1 Hops Hrun)
    as [Hwf2 (p2 & Hp2 & Hc2)].
  assert (∃ p : gmap cell (list Z),
            self_poss s1 = Some p ∧ ∀ k : cell, is_Some (p !! k) → k ∈ all s1)
    as Hkeys1.
  { destruct (make_poss_dict_ok s0 Hwf0) as (p & Hmk' & _ & Hout).
    rewrite Hmk in Hmk'. injection Hmk' as ->. exists p. split; [done|].
    intros k Hk. change (k ∈ all s0).
    destruct (decide (k ∈ all s0)) as [|Hno]; [done|].
    rewrite (Hout k Hno) in Hk. by destruct Hk. }
  destruct (set_all_keys _ _ _ Hwf1 Hkeys1 Hrun) as (q & Hq & Hkeys2).
  rewrite Hp2 in Hq. injection Hq as <-.
  assert (poss_of s2 = p2) as Hof2 by (unfold poss_of; by rewrite Hp2).
  destruct (make_poss_dict_ok s2 Hwf2) as (p3 & Hmk3 & Hin3 & Hout3).
  assert (∀ k : cell, p3 !! k = p2 !! k) as Hsame.
  { intros [x y]. destruct (decide ((x, y) ∈ all s2)) as [Hin|Hno].
    - apply elem_of_all in Hin as [Hx Hy].
      etrans; [apply (Hin3 x y Hx Hy)|]. symmetry. apply (Hc2 x y Hx Hy).
    - etrans; [apply (Hout3 _ Hno)|]. symmetry. apply eq_None_not_Some.
      intros Hk. by apply Hno, Hkeys2. }
  split.
  - rewrite Hof2. intros [x y]. split; [apply Hkeys2|].
    intros Hin. apply elem_of_all in Hin as [Hx Hy].
    exists (candidates s2 x y). by apply Hc2.
  - exists (with_poss s2 p3). split; [done|]. split; [done|].
    split; [done|]. intros k. unfold cands. rewrite Hof2.
    change (poss_of (with_poss s2 p3)) with p3. by rewrite Hsame.
Qed.

Lemma make_poss_dict_recompute_witness :
  wf grid_top_row ∧
  make_poss_dict grid_top_row = (inr tt, grid_top_row_built) ∧
  Forall (λ op : cell * Z, op.2 ≠ 0%Z) [((0, 3), 4%Z)] ∧
  set_all [((0, 3), 4%Z)] grid_top_row_built = (inr tt, grid_top_row_set) ∧
  ∃ s3, make_poss_dict grid_top_row_set = (inr tt, s3) ∧
        self_grid s3 = self_grid grid_top_row_set ∧
        same_sizes grid_top_row_set s3 ∧
        ∀ k : cell,
          (is_Some (poss_of s3 !! k) ↔
           is_Some (poss_of grid_top_row_set !! k)) ∧
          ∀ v, v ∈ cands (poss_of s3) k ↔
               v ∈ cands (poss_of grid_top_row_set) k.
Proof.
  assert (make_poss_dict grid_top_row = (inr tt, grid_top_row_built)) as Hmk
    by (by vm_compute).
  assert (Forall (λ op : cell * Z, op.2 ≠ 0%Z) [((0, 3), 4%Z)]) as Hops
    by (by repeat constructor).
  assert (set_all [((0, 3), 4%Z)] grid_top_row_built =
          (inr tt, grid_top_row_set)) as Hrun by (by vm_compute).
  split; [apply wf_grid_top_row|]. split; [exact Hmk|].
  split; [exact Hops|]. split; [exact Hrun|].
  exact (proj2 (make_poss_dict_recompute grid_top_row grid_top_row_built
                  grid_top_row_set _ wf_grid_top_row Hmk Hops Hrun)).
Defined.

(** ** Scanning without applying: [list(find_only())] *)

Lemma collect_items (D acc : list (cell * Z)) (s : Sudoku) :
  for_acc D acc (λ xyz acc, ret (acc ++ [xyz])) s = (inr (acc ++ D), s).
Proof.
  revert acc. induction D as [|x D IH]; intros acc.
  { simpl. unfold ret. by rewrite app_nil_r. }
  simpl. unfold bind, ret. simpl. fold (@ret (list (cell * Z))).
  rewrite IH. by rewrite <- app_assoc.
Qed.

Lemma collect_pass (Rs : list (list cell)) (acc : list (cell * Z))
    (s : Sudoku) :
  wf s → consistent s → Forall (in_grid s) Rs →
  for_acc Rs acc (scan_range (λ xyz acc, ret (acc ++ [xyz]))) s =
  (inr (acc ++ concat (map (placements_at s) Rs)), s).
Proof.
  intros Hwf Hc. revert acc. induction Rs as [|R Rs IH]; intros acc HRs.
  { simpl. unfold ret. by rewrite app_nil_r. }
  inversion HRs as [|? ? HR HRs']; subst.
  cbn [for_acc]. unfold bind at 1. unfold scan_range at 1. unfold bind at 1.
  rewrite (only_in_range_consistent s R Hwf Hc HR).
  rewrite collect_items. rewrite (IH _ HRs'). cbn [map concat].
  by rewrite app_assoc.
Qed.

Lemma pass_stall_inv (Rs : list (list cell)) (s s' : Sudoku)
    (out r : list (cell * Z)) :
  wf s → consistent s → Forall (in_grid s) Rs →
  for_acc Rs (false, out) (scan_range solve_body) s = (inr (false, r), s') →
  ∀ R, R ∈ Rs → placements_at s R = [].
Proof.
  intros Hwf Hc. revert out. induction Rs as [|R Rs IH]; intros out HRs Hrun.
  { intros R HR. by apply not_elem_of_nil in HR. }
  inversion HRs as [|? ? HR HRs']; subst.
  destruct (scan_range_spec no_check no_check_set R s Hwf Hc eq_refl HR)
    as (s1 & Hstep & Hwf1 & Hc1 & _ & Hsz & _ & Hfix).
  cbn [for_acc] in Hrun. unfold bind at 1 in Hrun.
  rewrite (proj2 (Hstep false out)) in Hrun.
  destruct (placements_at s R) as [|d D] eqn:HD.
  - rewrite (Hfix eq_refl) in Hrun. simpl in Hrun. rewrite app_nil_r in Hrun.
    intros R' HR'. apply elem_of_cons in HR' as [->|HR']; [done|].
    by apply (IH out HRs' Hrun).
  - exfalso. simpl in Hrun.
    assert (Forall (in_grid s1) Rs) as HRs1.
    { eapply Forall_impl; [exact HRs'|]. intros R'. by apply in_grid_sizes. }
    destruct (pass_spec no_check no_check_set Rs s1 Hwf1 Hc1 eq_refl HRs1)
      as (s2 & app & Hpass & _).
    rewrite (proj2 (Hpass true (out ++ d :: D))) in Hrun.
    by destruct app.
Qed.

(** X13.  [list(find_only())] on a well-formed object with an up-to-date
    store is a pure scan: it returns the results of [only_in_range] on the
    3N ranges, one after the other, and leaves the object as it is.  And a
    turn of the loop of [solve] applies nothing and changes nothing exactly
    when that list is empty. *)
Theorem collect_scan_spec (s : Sudoku) :
  wf s → consistent s →
  collect_scan s =
    (inr (concat (map (placements_at s) (scan_ranges s))), s) ∧
  ∀ out, solve_round out s = (inr (false, out), s) ↔
         concat (map (placements_at s) (scan_ranges s)) = [].
Proof.
  intros Hwf Hc. split.
  - unfold collect_scan.
    rewrite find_only_ranges by (intros x a; apply keeps_sizes_ret).
    apply (collect_pass _ [] s Hwf Hc (scan_ranges_in_grid s Hwf)).
  - intros out.
    assert (concat (map (placements_at s) (scan_ranges s)) = [] ↔
            ∀ R, R ∈ scan_ranges s → placements_at s R = []) as ->.
    { induction (scan_ranges s) as [|R Rs IH]; simpl.
      - split; [|done]. intros _ R HR. by apply not_elem_of_nil in HR.
      - rewrite app_nil, IH. split.
        + intros [H1 H2] R' HR'.
          apply elem_of_cons in HR' as [->|HR']; [done|by apply H2].
        + intros H. split; [apply H; by left|]. intros R' HR'.
          apply H. by right. }
    split.
    + intros Hrun. unfold solve_round in Hrun.
      rewrite find_only_ranges in Hrun by apply keeps_sizes_solve_body.
      apply (pass_stall_inv _ s s out out Hwf Hc
               (scan_ranges_in_grid s Hwf) Hrun).
    + intros Hnone.
      destruct (round_spec no_check no_check_set s Hwf Hc eq_refl)
        as (s' & app & Hrun & _ & _ & _ & _ & Hfix & Hstall).
      rewrite (proj2 (Hrun out)). rewrite (Hstall Hnone) in *.
      rewrite (Hfix eq_refl). simpl. by rewrite app_nil_r.
Qed.

Lemma collect_scan_spec_witness :
  wf grid_top_row_built ∧ consistent grid_top_row_built ∧
  collect_scan grid_top_row_built =
    (inr (concat (map (placements_at grid_top_row_built)
                    (scan_ranges grid_top_row_built))),
     grid_top_row_built).
Proof.
  split; [apply built_top_row|]. split; [apply built_top_row|].
  exact (proj1 (collect_scan_spec grid_top_row_built
                  (proj1 built_top_row) (proj2 built_top_row))).
Defined.

(** ** Invariants of [solve] over what it prints *)

Section Trace.
(** [Inv out s]: a property of what has been printed so far and of the
    state, kept by every assignment [(c, v)] with [Ok c v], which every
    pair found by a scan satisfies; it does not depend on the store. *)
Variable Inv : list (cell * Z) → Sudoku → Prop.
Variable Ok : cell → Z → Prop.
Hypothesis Inv_set : ∀ out s i j v s',
  Inv out s → Ok (i, j) v → set i j v s = (inr tt, s') →
  Inv (out ++ [((i, j), v)]) s'.
Hypothesis Ok_scan : ∀ out s R c v,
  wf s → consistent s → Inv out s → R ∈ scan_ranges s →
  (c, v) ∈ placements_at s R → Ok c v.
Hypothesis Inv_poss : ∀ out s s0,
  self_grid s0 = self_grid s → same_sizes s s0 → Inv out s → Inv out s0.

Lemma items_trace (D : list (cell * Z)) (s s' : Sudoku)
    (acc r : bool * list (cell * Z)) :
  (∀ c v, (c, v) ∈ D → Ok c v) → Inv acc.2 s →
  for_acc D acc solve_body s = (inr r, s') → Inv r.2 s'.
Proof using Inv_set.
  revert s acc. induction D as [|[[i j] v] D IH]; intros s acc HD HI Hrun.
  { by injection Hrun as <- <-. }
  cbn [for_acc] in Hrun. unfold bind at 1 in Hrun.
  unfold solve_body, bind, ret in Hrun. simpl in Hrun.
  destruct (set i j v s) as [[e|[]] s1] eqn:Hset; [done|].
  apply (IH s1 (true, acc.2 ++ [((i, j), v)])); [| |done].
  - intros c w Hin. apply HD. by right.
  - simpl. apply (Inv_set _ s); [done| |done]. apply HD. by left.
Qed.

Lemma pass_trace (Rs : list (list cell)) (s s' : Sudoku)
    (acc r : bool * list (cell * Z)) :
  wf s → consistent s → (∀ R, R ∈ Rs → R ∈ scan_ranges s) → Inv acc.2 s →
  for_acc Rs acc (scan_range solve_body) s = (inr r, s') → Inv r.2 s'.
Proof using Inv_set Ok_scan.
  revert s acc. induction Rs as [|R Rs IH]; intros s acc Hwf Hc HRs HI Hrun.
  { by injection Hrun as <- <-. }
  assert (R ∈ scan_ranges s) as HR by (apply HRs; by left).
  assert (in_grid s R) as HRg.
  { pose proof (scan_ranges_in_grid s Hwf) as Hall.
    rewrite Forall_forall in Hall. by apply Hall. }
  destruct (scan_range_spec no_check no_check_set R s Hwf Hc eq_refl HRg)
    as (s1 & Hstep & Hwf1 & Hc1 & _ & Hsz & _).
  cbn [for_acc] in Hrun. unfold bind at 1 in Hrun.
  destruct acc as [b out].
  pose proof (proj2 (Hstep b out)) as Hstep'. rewrite Hstep' in Hrun.
  apply (IH s1 _ Hwf1 Hc1) in Hrun; [done| |].
  - intros R' HR'. rewrite <- (scan_ranges_sizes s s1 Hsz). apply HRs. by right.
  - unfold scan_range, bind in Hstep'.
    rewrite (only_in_range_consistent s R Hwf Hc HRg) in Hstep'.
    apply (items_trace _ _ _ _ _ (λ c v Hin, Ok_scan out s R c v Hwf Hc HI HR Hin)
             HI Hstep').
Qed.

Lemma round_trace (s s' : Sudoku) (out : list (cell * Z))
    (r : bool * list (cell * Z)) :
  wf s → consistent s → Inv out s →
  solve_round out s = (inr r, s') → Inv r.2 s' ∧ wf s' ∧ consistent s'.
Proof using Inv_set Ok_scan.
  intros Hwf Hc HI Hrun. split.
  - unfold solve_round in Hrun.
    rewrite find_only_ranges in Hrun by apply keeps_sizes_solve_body.
    by apply (pass_trace _ s s' (false, out) r Hwf Hc (λ R H, H) HI Hrun).
  - destruct (round_spec no_check no_check_set s Hwf Hc eq_refl)
      as (s1 & app & Hr & Hwf1 & Hc1 & _).
    rewrite (proj2 (Hr out)) in Hrun. by injection Hrun as _ <-.
Qed.

Lemma loop_trace (fuel : nat) (s s' : Sudoku) (out out' : list (cell * Z)) :
  wf s → consistent s → Inv out s →
  solve_loop fuel out s = Some (inr out', s') →
  Inv out' s' ∧ wf s' ∧ consistent s'.
Proof using Inv_set Ok_scan.
  revert s out. induction fuel as [|fuel IH]; intros s out Hwf Hc HI Hrun;
    [done|].
  simpl in Hrun.
  destruct (solve_round out s) as [[e|[change out1]] s1] eqn:Hr; [done|].
  destruct (round_trace _ _ _ _ Hwf Hc HI Hr) as (HI1 & Hwf1 & Hc1).
  destruct change; [by apply (IH s1 out1)|].
  by injection Hrun as <- <-.
Qed.

Lemma run_invariant (fuel : nat) (s s' : Sudoku) (out : list (cell * Z)) :
  ready s → Inv [] s → solve fuel s = Some (inr out, s') →
  Inv out s' ∧ wf s' ∧ consistent s'.
Proof using Inv_set Ok_scan Inv_poss.
  intros Hready HI Hrun.
  destruct (round_ready no_check no_check_poss s Hready eq_refl)
    as (s0 & Hwf0 & Hc0 & _ & _ & Hg0 & Hsz0 & _ & Hsame).
  unfold solve in Hrun.
  rewrite (proj2 (loop_ready no_check s s0 Hsame fuel [])) in Hrun.
  apply (loop_trace fuel s0 s' [] out Hwf0 Hc0); [|done].
  by apply (Inv_poss [] s s0).
Qed.
End Trace.

(** ** What [solve] writes *)

Lemma scan_candidate (s : Sudoku) (R : list cell) (c : cell) (v : Z) :
  wf s → consistent s → R ∈ scan_ranges s → (c, v) ∈ placements_at s R →
  c ∈ R ∧ c.1 < self_N s ∧ c.2 < self_N s ∧
  v ∈ candidates s c.1 c.2 ∧
  grid_get (self_grid s) c.1 c.2 = Some 0%Z ∧
  (1 ≤ v ≤ Z.of_nat (self_N s))%Z.
Proof.
  intros Hwf Hc HR Hin.
  apply placements_at_sound in Hin as [HcR Hv].
  pose proof (scan_ranges_in_grid s Hwf) as Hall.
  rewrite Forall_forall in Hall. destruct (Hall R HR c HcR) as [Hx Hy].
  destruct c as [x y]. simpl in *.
  rewrite (cands_consistent s x y Hc Hx Hy) in Hv.
  pose proof (candidates_empty_cell _ _ _ _ Hv) as H0.
  repeat split; try done; by apply (elem_of_candidates s x y v H0).
Qed.

Lemma trace_inv_set (s0 : Sudoku) (out : list (cell * Z)) (t : Sudoku)
    (i j : nat) (v : Z) (t' : Sudoku) :
  trace_inv s0 out t → (1 ≤ v ≤ Z.of_nat (self_N s0))%Z →
  set i j v t = (inr tt, t') → trace_inv s0 (out ++ [((i, j), v)]) t'.
Proof.
  intros (Hsz & Hg0 & Hgt & Hnd & Hkeep & Hpr & Hrest) Hv Hset.
  apply set_inv in Hset as (H0 & p & p' & _ & -> & _).
  destruct (grid_get_lt _ _ Hgt _ _ _ H0) as [Hi Hj].
  assert (∀ c w, (c, w) ∈ out → c ≠ (i, j)) as Hfresh.
  { intros c w Hin ->. destruct (Hpr _ _ Hin) as (_ & Hget & Hw).
    simpl in Hget. rewrite H0 in Hget. injection Hget as <-. lia. }
  assert (grid_get (self_grid s0) i j = Some 0%Z) as Hinit.
  { destruct (grid_get_is_Some _ _ Hg0 i j Hi Hj) as [w Hw].
    destruct (decide (w = 0%Z)) as [->|Hne]; [done|].
    rewrite (Hkeep i j w Hw Hne) in H0. by injection H0. }
  split; [done|]. split; [done|]. simpl.
  split; [by apply grid_set_ok|]. split; [|split; [|split]].
  - rewrite fmap_app. apply NoDup_app. split; [done|]. split.
    + intros c Hc Hc'. apply list_elem_of_singleton in Hc'. subst c.
      apply list_elem_of_fmap in Hc as ([c w] & Heq & Hin). simpl in Heq.
      subst c. by apply (Hfresh _ _ Hin).
    + apply NoDup_singleton.
  - intros x y w Hw Hne.
    rewrite (grid_get_set_other _ _ _ _ _ 0%Z) by (done || congruence).
    by apply Hkeep.
  - intros c w Hin. apply elem_of_app in Hin as [Hin|Hin].
    + destruct (Hpr _ _ Hin) as (Ha & Hb & Hc). split; [done|].
      split; [|done]. destruct c as [x y].
      rewrite (grid_get_set_other _ _ _ _ _ 0%Z);
        [done|done|by apply (Hfresh _ _ Hin)].
    + apply list_elem_of_singleton in Hin. injection Hin as -> ->. simpl.
      split; [done|]. split; [|done]. by apply (grid_get_set_same _ _ _ 0%Z).
  - intros x y Hx Hnot. rewrite fmap_app, elem_of_app in Hnot.
    rewrite (grid_get_set_other _ _ _ _ _ 0%Z); [|done|].
    + apply Hrest; [done|tauto].
    + intros Heq. apply Hnot. right. rewrite Heq. apply list_elem_of_here.
Qed.

Lemma trace_inv_solve (fuel : nat) (s s' : Sudoku) (out : list (cell * Z)) :
  ready s → solve fuel s = Some (inr out, s') →
  trace_inv s out s' ∧ wf s' ∧ consistent s'.
Proof.
  intros Hready Hrun.
  refine (run_invariant (trace_inv s)
            (λ _ v, (1 ≤ v ≤ Z.of_nat (self_N s))%Z) _ _ _
            fuel s s' out Hready _ Hrun).
  - intros out0 t i j v t'. apply trace_inv_set.
  - intros out0 t R c v Hwf Hc (Hsz & _) HR Hin.
    destruct (scan_candidate t R c v Hwf Hc HR Hin) as (_ & _ & _ & _ & _ & Hv).
    by destruct Hsz as (-> & _).
  - intros out0 t t0 Hg (HN & Hm & Hn) (Hsz & Hg0 & Hgt & Hrest).
    destruct Hsz as (HN' & Hm' & Hn').
    split; [repeat split; congruence|]. split; [done|].
    rewrite Hg. done.
  - destruct Hready as [(HN & Hm & Hn & Hg) _].
    split; [done|]. split; [done|]. split; [done|].
    split; [apply NoDup_nil_2|]. split; [done|]. split; [|done].
    intros c v Hin. by apply not_elem_of_nil in Hin.
Qed.

(** X14.  What [solve] writes.  Started on an object fresh from [__init__]
    (or with an up-to-date store), when [solve] returns: the sizes are
    unchanged; the printed cells are pairwise distinct; every cell that was
    filled keeps its value; every printed cell was empty, and now holds the
    printed value, which is one of 1..N; every other empty cell is still
    empty. *)
Theorem solve_trace (fuel : nat) (s s' : Sudoku) (out : list (cell * Z)) :
  ready s → solve fuel s = Some (inr out, s') →
  same_sizes s s' ∧
  NoDup out.*1 ∧
  (∀ i j w, grid_get (self_grid s) i j = Some w → w ≠ 0%Z →
            grid_get (self_grid s') i j = Some w) ∧
  (∀ (c : cell) (v : Z), (c, v) ∈ out →
     grid_get (self_grid s) c.1 c.2 = Some 0%Z ∧
     grid_get (self_grid s') c.1 c.2 = Some v ∧
     (1 ≤ v ≤ Z.of_nat (self_N s))%Z) ∧
  (∀ i j, grid_get (self_grid s) i j = Some 0%Z → (i, j) ∉ out.*1 →
          grid_get (self_grid s') i j = Some 0%Z).
Proof.
  intros Hready Hrun.
  destruct (trace_inv_solve fuel s s' out Hready Hrun)
    as ((Hsz & _ & _ & Hrest) & _).
  by split.
Qed.

Lemma solve_trace_witness :
  ready grid_top_row ∧
  ∃ s', solve 2 grid_top_row = Some (inr [((0, 3), 4%Z)], s') ∧
        same_sizes grid_top_row s' ∧
        grid_get (self_grid s') 0 3 = Some 4%Z.
Proof.
  split; [apply ready_grid_top_row|].
  exists (match solve 2 grid_top_row with
          | Some (_, t) => t
          | None => grid_top_row
          end).
  assert (solve 2 grid_top_row =
          Some (inr [((0, 3), 4%Z)],
                match solve 2 grid_top_row with
                | Some (_, t) => t
                | None => grid_top_row
                end)) as Hrun by (vm_compute; reflexivity).
  split; [exact Hrun|].
  split; [|vm_compute; reflexivity].
  exact (proj1 (solve_trace 2 grid_top_row
                  (match solve 2 grid_top_row with
                   | Some (_, t) => t
                   | None => grid_top_row
                   end)
                  [((0, 3), 4%Z)] ready_grid_top_row Hrun)).
Defined.

(** ** Soundness of [solve]: every assignment is forced *)

Lemma length_values_at (g : ndarray) (R : list cell) :
  (∀ c : cell, c ∈ R → is_Some (grid_get g c.1 c.2)) →
  length (values_at g R) = length R.
Proof.
  unfold values_at. induction R as [|c R IH]; intros HR; [done|].
  destruct (HR c) as [w Hw]; [by left|].
  change (omap (λ xy : cell, grid_get g xy.1 xy.2) (c :: R))
    with (match grid_get g c.1 c.2 with
          | Some y => y :: omap (λ xy : cell, grid_get g xy.1 xy.2) R
          | None => omap (λ xy : cell, grid_get g xy.1 xy.2) R
          end).
  rewrite Hw. cbn [length]. rewrite IH; [done|].
  intros c' Hc'. apply HR. by right.
Qed.

Lemma length_entries (N : nat) : length (entries N) = N.
Proof. unfold entries. by rewrite length_map, length_seq. Qed.

(** A row, column or region whose cells all hold values of 1..N, none
    twice, holds each value of 1..N exactly once. *)
Lemma range_values_perm (s : Sudoku) (R : list cell) :
  wf s → grid_unique s → R ∈ scan_ranges s →
  (∀ c : cell, c ∈ R →
     ∃ w, grid_get (self_grid s) c.1 c.2 = Some w ∧
          (1 ≤ w ≤ Z.of_nat (self_N s))%Z) →
  values_at (self_grid s) R ≡ₚ entries (self_N s).
Proof.
  intros Hwf Hu HR Hfull.
  assert (∀ w, w ∈ values_at (self_grid s) R →
               (1 ≤ w ≤ Z.of_nat (self_N s))%Z) as Hrange.
  { intros w Hw. apply elem_of_values_at in Hw as (c & Hc & Hget).
    destruct (Hfull c Hc) as (w' & Hget' & Hw'). congruence. }
  unfold grid_unique in Hu. rewrite Forall_forall in Hu.
  specialize (Hu R HR). rewrite filter_all in Hu
    by (intros w Hw; apply Hrange in Hw; lia).
  apply submseteq_length_Permutation.
  - apply NoDup_submseteq; [done|]. intros w Hw.
    apply elem_of_entries. by apply Hrange.
  - rewrite length_entries, length_values_at.
    + by rewrite (scan_ranges_length s R Hwf HR).
    + intros c Hc. destruct (Hfull c Hc) as (w & Hw & _). eauto.
Qed.

Lemma grid_get_Forall (g : ndarray) (N : nat) (P : Z → Prop) (i j : nat) :
  grid_ok g N → Forall P (data g) → i < N → j < N →
  ∃ w, grid_get g i j = Some w ∧ P w.
Proof.
  intros Hg HP Hi Hj. destruct (grid_get_is_Some _ _ Hg i j Hi Hj) as [w Hw].
  exists w. split; [done|]. rewrite Forall_forall in HP. apply HP.
  unfold grid_get in Hw. destruct Hg as [Hs _]. rewrite Hs in Hw.
  destruct ((i <? N) && (j <? N)); [|done].
  by apply list_elem_of_lookup_2 in Hw.
Qed.

Lemma singleton_list_eq {A} (l : list A) (x y : A) :
  length l = 1 → x ∈ l → y ∈ l → x = y.
Proof.
  destruct l as [|a [|b l]]; try done. intros _ Hx Hy.
  apply list_elem_of_singleton in Hx, Hy. congruence.
Qed.

Lemma wf_with_grid (s : Sudoku) (g : ndarray) :
  wf s → grid_ok g (self_N s) → wf (with_grid s g).
Proof. intros (HN & Hm & Hn & _) Hg. by do 3 (split; [done|]). Qed.

Lemma peers_cases (s : Sudoku) (i j : nat) (xy : cell) :
  xy ∈ peers s i j ↔ xy ∈ row s i ∨ xy ∈ col s j ∨ xy ∈ region s i j.
Proof. unfold peers. by rewrite !elem_of_app. Qed.

(** A pair found by a scan is forced: every solution has that value at
    that cell. *)
Lemma forced_sound (t : Sudoku) (sol : ndarray) (R : list cell)
    (c : cell) (v : Z) :
  wf t → consistent t → solution t sol →
  R ∈ scan_ranges t → (c, v) ∈ placements_at t R →
  grid_get sol c.1 c.2 = Some v.
Proof.
  intros Hwf Hc (Hgs & Hrs & Hus & Hext) HR Hin.
  pose proof Hwf as (HN & Hm & Hn & Hg).
  pose proof (wf_with_grid t sol Hwf Hgs) as Hwfs.
  pose proof (grid_unique_no_clash _ Hwfs Hus) as Hclash.
  pose proof (placements_occ _ _ _ Hin) as Hocc.
  destruct (scan_candidate t R c v Hwf Hc HR Hin)
    as (HcR & Hcx & Hcy & Hv & H0 & Hrange).
  pose proof (scan_ranges_in_grid t Hwf) as Hall.
  rewrite Forall_forall in Hall. specialize (Hall R HR).
  assert (values_at sol R ≡ₚ entries (self_N t)) as Hperm.
  { apply (range_values_perm (with_grid t sol) R Hwfs Hus HR).
    intros [x y] Hxy. destruct (Hall _ Hxy) as [Hx Hy].
    apply (grid_get_Forall sol (self_N t)); done. }
  assert (v ∈ values_at sol R) as Hvs.
  { rewrite Hperm. by apply elem_of_entries. }
  apply elem_of_values_at in Hvs as ([x y] & Hxy & Hsol). simpl in Hsol.
  destruct (Hall _ Hxy) as [Hx Hy]. simpl in Hx, Hy.
  assert (v ≠ 0%Z) as Hv0 by lia.
  destruct c as [i j]. simpl in *.
  pose proof (scan_ranges_related t R (x, y) (i, j) Hwf HR Hxy HcR) as Hrel.
  assert (grid_get (self_grid t) x y = Some 0%Z) as Hempty.
  { destruct (grid_get_is_Some _ _ Hg x y Hx Hy) as [w Hw].
    destruct (decide (w = 0%Z)) as [->|Hne]; [done|]. exfalso.
    pose proof (Hext x y w Hw Hne) as Hsw. rewrite Hsol in Hsw.
    injection Hsw as ->.
    apply (elem_of_candidates t i j w H0) in Hv as [_ Hfree].
    apply (Hfree (x, y)); [|done].
    apply peers_cases. by apply elem_of_peers. }
  assert (v ∈ candidates t x y) as Hvxy.
  { apply (elem_of_candidates t x y v Hempty). split; [done|].
    intros [a b] Hab Hget. simpl in Hget.
    apply peers_cases, elem_of_peers in Hab as (Ha & Hb & Hrel'); [|done..].
    pose proof (Hext a b v Hget Hv0) as Hsab.
    assert ((a, b) = (x, y)) as Heq
      by (by apply (Hclash (a, b) (x, y) v)).
    injection Heq as -> ->. rewrite Hempty in Hget. by injection Hget. }
  assert (((x, y), v) = ((i, j), v)) as Heq.
  { apply (singleton_list_eq
             (filter (λ e : cell * Z, e.2 = v) (pairs (poss_of t) R)));
      [done| |]; apply list_elem_of_filter; (split; [done|]);
      apply elem_of_pairs; (split; [done|]);
      by rewrite cands_consistent. }
  by injection Heq as <- <-.
Qed.

Lemma solution_set (t t' : Sudoku) (sol : ndarray) (i j : nat) (v : Z) :
  solution t sol → grid_get sol i j = Some v →
  set i j v t = (inr tt, t') → solution t' sol.
Proof.
  intros (Hgs & Hrs & Hus & Hext) Hv Hset.
  apply set_inv in Hset as (H0 & p & p' & _ & -> & _).
  split; [done|]. split; [done|]. split; [done|].
  intros x y w Hw Hne. simpl in Hw.
  destruct (decide ((x, y) = (i, j))) as [[= -> ->]|Hxy].
  - rewrite (grid_get_set_same _ _ _ 0%Z) in Hw by done. congruence.
  - rewrite (grid_get_set_other _ _ _ _ _ 0%Z) in Hw by done.
    by apply Hext.
Qed.

Lemma solution_sizes (s s0 : Sudoku) (sol : ndarray) :
  self_grid s0 = self_grid s → same_sizes s s0 →
  solution s sol → solution s0 sol.
Proof.
  intros Hg (HN & Hm & Hn) (Hgs & Hrs & Hus & Hext).
  unfold solution. rewrite <- HN, Hg. split; [done|]. split; [done|].
  split; [|done]. unfold grid_unique in *.
  by rewrite <- (scan_ranges_sizes (with_grid s sol) (with_grid s0 sol)).
Qed.

Lemma filter_zero_Forall (l : list Z) :
  length (filter (λ v, v = 0%Z) l) = 0 → Forall (λ v, v ≠ 0%Z) l.
Proof.
  induction l as [|a l IH]; [done|]. rewrite filter_cons.
  destruct (decide (a = 0%Z)); [done|]. intros H. constructor; auto.
Qed.

Lemma complete_extends_eq (g sol : ndarray) (N : nat) :
  grid_ok g N → grid_ok sol N → Forall (λ v, v ≠ 0%Z) (data g) →
  extends sol g → g = sol.
Proof.
  intros Hg Hs Hfull Hext.
  assert (data g = data sol) as Hdata.
  { apply list_eq. intros k.
    destruct (decide (k < N * N)) as [Hk|Hk].
    - assert (0 < N) as HN by lia.
      assert (k / N < N) as Hi by (apply Nat.Div0.div_lt_upper_bound; lia).
      assert (k mod N < N) as Hj by (apply Nat.mod_upper_bound; lia).
      destruct (grid_get_Forall g N _ _ _ Hg Hfull Hi Hj) as (w & Hw & Hne).
      pose proof (Hext _ _ _ Hw Hne) as Hw'.
      unfold grid_get in Hw, Hw'.
      destruct Hg as [Hsg _], Hs as [Hss _]. rewrite Hsg in Hw.
      rewrite Hss in Hw'.
      apply Nat.ltb_lt in Hi, Hj. rewrite Hi, Hj in Hw, Hw'. simpl in Hw, Hw'.
      assert (k / N * N + k mod N = k) as Hk'
        by (pose proof (Nat.div_mod_eq k N); lia).
      rewrite Hk' in Hw, Hw'. congruence.
    - destruct Hg as [_ Hlg], Hs as [_ Hls].
      rewrite !lookup_ge_None_2; [done|lia..]. }
  destruct Hg as [Hsg _], Hs as [Hss _]. destruct g, sol. simpl in *.
  congruence.
Qed.

Lemma solution_kept (fuel : nat) (s s' : Sudoku) (sol : ndarray)
    (out : list (cell * Z)) :
  ready s → solution s sol → solve fuel s = Some (inr out, s') →
  (solution s' sol ∧
   Forall (λ e : cell * Z, grid_get sol e.1.1 e.1.2 = Some e.2) out) ∧
  wf s' ∧ consistent s'.
Proof.
  intros Hready Hsol Hrun.
  refine (run_invariant
            (λ out t, solution t sol ∧
                      Forall (λ e : cell * Z,
                                grid_get sol e.1.1 e.1.2 = Some e.2) out)
            (λ c v, grid_get sol c.1 c.2 = Some v) _ _ _
            fuel s s' out Hready _ Hrun).
  - intros out0 t i j v t' [Ht Hout] Hv Hset. split.
    + by apply (solution_set t t' sol i j v).
    + apply Forall_app. split; [done|]. by constructor.
  - intros out0 t R c v Hwf Hc [Ht _] HR Hin.
    by apply (forced_sound t sol R).
  - intros out0 t t0 Hg Hsz [Ht Hout]. split; [|done].
    by apply (solution_sizes t).
  - by split.
Qed.

(** X15.  [solve] only makes forced moves.  If the grid has a solution (a
    full grid with the values 1..N once in every row, column and region,
    that agrees with the filled cells), then when [solve] returns that
    solution still agrees with the grid, every printed pair is the
    solution's value at the printed cell, and if no cell is left empty the
    grid is that solution: so the solution is the only one. *)
Theorem solve_sound (fuel : nat) (s s' : Sudoku) (sol : ndarray)
    (out : list (cell * Z)) :
  ready s → solution s sol → solve fuel s = Some (inr out, s') →
  solution s' sol ∧
  Forall (λ e : cell * Z, grid_get sol e.1.1 e.1.2 = Some e.2) out ∧
  (empties s' = 0 → self_grid s' = sol).
Proof.
  intros Hready Hsol Hrun.
  destruct (solution_kept fuel s s' sol out Hready Hsol Hrun)
    as ([Hsol' Hout] & Hwf' & _).
  split; [done|]. split; [done|]. intros Hfull.
  destruct Hsol' as (Hgs & _ & _ & Hext). destruct Hwf' as (_ & _ & _ & Hg').
  apply (complete_extends_eq _ _ (self_N s')); try done.
  by apply filter_zero_Forall.
Qed.

Lemma solution_top_row : solution grid_top_row solved_top_row.
Proof.
  split; [by split|]. split; [apply (bool_decide_unpack _); by vm_compute|].
  split; [apply (bool_decide_unpack _); by vm_compute|].
  intros i j w Hget Hw.
  assert (i < 4 ∧ j < 4) as [Hi Hj].
  { apply (grid_get_lt (self_grid grid_top_row) 4 (conj eq_refl eq_refl)
             i j w Hget). }
  destruct i as [|[|[|[|i]]]]; [| | | |lia];
    (destruct j as [|[|[|[|j]]]]; [| | | |lia]);
    vm_compute in Hget; injection Hget as <-; done.
Defined.

Lemma solve_sound_witness :
  ready grid_top_row ∧ solution grid_top_row solved_top_row ∧
  ∃ s', solve 2 grid_top_row = Some (inr [((0, 3), 4%Z)], s') ∧
        solution s' solved_top_row.
Proof.
  split; [apply ready_grid_top_row|]. split; [apply solution_top_row|].
  exists (match solve 2 grid_top_row with
          | Some (_, t) => t
          | None => grid_top_row
          end).
  assert (solve 2 grid_top_row =
          Some (inr [((0, 3), 4%Z)],
                match solve 2 grid_top_row with
                | Some (_, t) => t
                | None => grid_top_row
                end)) as Hrun by (vm_compute; reflexivity).
  split; [exact Hrun|].
  exact (proj1 (solve_sound 2 grid_top_row
                  (match solve 2 grid_top_row with
                   | Some (_, t) => t
                   | None => grid_top_row
                   end)
                  solved_top_row [((0, 3), 4%Z)]
                  ready_grid_top_row solution_top_row Hrun)).
Defined.

(** ** A grid that [solve] fills is solved *)

Lemma solve_unique_inv (fuel : nat) (s s' : Sudoku) (out : list (cell * Z)) :
  ready s → grid_unique s → solve fuel s = Some (inr out, s') →
  grid_unique s'.
Proof.
  intros Hready Hu Hsolve.
  assert (unique_check s = true) as HJ by (by apply bool_decide_eq_true_2).
  destruct (solve_spec unique_check grid_unique_set unique_check_poss
              s Hready HJ)
    as (rounds & app & s'' & Hr & _ & Hs & Hmin & _ & _ & HJ' & _).
  assert (s' = s'') as ->.
  { destruct (decide (fuel < rounds)) as [Hlt|Hge].
    - destruct (Hmin fuel Hlt) as [_ Hnone]. congruence.
    - unfold solve in *.
      rewrite (solve_loop_mono _ fuel _ _ _ Hs) in Hsolve by lia. congruence. }
  by apply bool_decide_eq_true_1 in HJ'.
Qed.

Lemma grid_Forall_get (g : ndarray) (N : nat) (P : Z → Prop) :
  grid_ok g N →
  (∀ i j w, i < N → j < N → grid_get g i j = Some w → P w) →
  Forall P (data g).
Proof.
  intros [Hs Hl] HP. apply Forall_lookup. intros k w Hk.
  pose proof (lookup_lt_Some _ _ _ Hk) as Hlt. rewrite Hl in Hlt.
  assert (0 < N) as HN by lia.
  assert (k / N < N) as Hi by (apply Nat.Div0.div_lt_upper_bound; lia).
  assert (k mod N < N) as Hj by (apply Nat.mod_upper_bound; lia).
  apply (HP (k / N) (k mod N) w Hi Hj).
  unfold grid_get. rewrite Hs.
  apply Nat.ltb_lt in Hi, Hj. rewrite Hi, Hj. simpl.
  assert (k / N * N + k mod N = k) as ->
    by (pose proof (Nat.div_mod_eq k N); lia).
  done.
Qed.

(** X16.  A grid that [solve] fills is solved.  Start [solve] on an object
    fresh from [__init__] (or with an up-to-date store) whose entries are
    0 or values of 1..N, no value twice in a row, column or region.  If no
    cell is empty when it returns, then the grid is a solution of the
    puzzle it started from, and every row, column and region holds each of
    the values 1..N exactly once. *)
Theorem solve_complete (fuel : nat) (s s' : Sudoku) (out : list (cell * Z)) :
  ready s → grid_unique s → entries_in_range s →
  solve fuel s = Some (inr out, s') → empties s' = 0 →
  solution s (self_grid s') ∧
  ∀ R, R ∈ scan_ranges s' →
       values_at (self_grid s') R ≡ₚ entries (self_N s').
Proof.
  intros Hready Hu Hrange Hrun Hfull.
  pose proof (solve_unique_inv fuel s s' out Hready Hu Hrun) as Hu'.
  destruct (trace_inv_solve fuel s s' out Hready Hrun)
    as ((Hsz & Hg & Hg' & Hnd & Hkeep & Hpr & Hrest) & Hwf' & _).
  apply filter_zero_Forall in Hfull.
  assert (∀ i j w, i < self_N s → j < self_N s →
            grid_get (self_grid s') i j = Some w →
            (1 ≤ w ≤ Z.of_nat (self_N s))%Z) as Hval.
  { intros i j w Hi Hj Hw.
    destruct (grid_get_Forall _ _ _ i j Hg' Hfull Hi Hj) as (w' & Hw' & Hne).
    rewrite Hw in Hw'. injection Hw' as <-.
    destruct (grid_get_Forall _ _ _ i j Hg Hrange Hi Hj) as (w0 & Hw0 & Hr0).
    destruct (decide (w0 = 0%Z)) as [->|Hne0].
    - destruct (decide ((i, j) ∈ out.*1)) as [Hin|Hnot].
      + apply list_elem_of_fmap in Hin as ([c v] & Heq & Hin).
        simpl in Heq. subst c. destruct (Hpr _ _ Hin) as (_ & Hv & Hvr).
        simpl in Hv. congruence.
      + rewrite (Hrest i j Hw0 Hnot) in Hw. congruence.
    - rewrite (Hkeep i j w0 Hw0 Hne0) in Hw. injection Hw as <-. lia. }
  destruct Hsz as (HN & Hm & Hn).
  split.
  - split; [done|]. split; [by apply (grid_Forall_get _ (self_N s))|].
    split; [|done]. unfold grid_unique in *.
    rewrite (scan_ranges_sizes (with_grid s (self_grid s')) s'); done.
  - intros R HR. apply (range_values_perm s' R Hwf' Hu' HR).
    intros [x y] Hxy. pose proof (scan_ranges_in_grid s' Hwf') as Hall.
    rewrite Forall_forall in Hall. destruct (Hall R HR _ Hxy) as [Hx Hy].
    simpl in *. rewrite <- HN in *.
    destruct (grid_get_is_Some _ _ Hg' x y Hx Hy) as [w Hw].
    exists w. split; [done|]. by apply (Hval x y).
Qed.

Lemma ready_puzzle_4x4 : ready puzzle_4x4.
Proof.
  split; [|by left]. unfold wf, grid_ok. simpl. repeat split; lia.
Defined.

Lemma solve_complete_witness :
  ready puzzle_4x4 ∧ grid_unique puzzle_4x4 ∧ entries_in_range puzzle_4x4 ∧
  ∃ s', solve 2 puzzle_4x4 =
          Some (inr [((0, 3), 4%Z); ((3, 0), 4%Z);
                     ((1, 2), 1%Z); ((2, 1), 1%Z)], s') ∧
        empties s' = 0 ∧
        self_grid s' = solved_top_row ∧
        solution puzzle_4x4 (self_grid s').
Proof.
  assert (grid_unique puzzle_4x4) as Hu
    by (apply (bool_decide_unpack _); by vm_compute).
  assert (entries_in_range puzzle_4x4) as Hrange
    by (apply (bool_decide_unpack _); by vm_compute).
  split; [apply ready_puzzle_4x4|]. split; [exact Hu|]. split; [exact Hrange|].
  exists (match solve 2 puzzle_4x4 with
          | Some (_, t) => t
          | None => puzzle_4x4
          end).
  assert (solve 2 puzzle_4x4 =
          Some (inr [((0, 3), 4%Z); ((3, 0), 4%Z);
                     ((1, 2), 1%Z); ((2, 1), 1%Z)],
                match solve 2 puzzle_4x4 with
                | Some (_, t) => t
                | None => puzzle_4x4
                end)) as Hrun by (vm_compute; reflexivity).
  assert (empties (match solve 2 puzzle_4x4 with
                   | Some (_, t) => t
                   | None => puzzle_4x4
                   end) = 0) as Hfull by (vm_compute; reflexivity).
  split; [exact Hrun|]. split; [exact Hfull|].
  split; [vm_compute; reflexivity|].
  exact (proj1 (solve_complete 2 puzzle_4x4
                  (match solve 2 puzzle_4x4 with
                   | Some (_, t) => t
                   | None => puzzle_4x4
                   end)
                  [((0, 3), 4%Z); ((3, 0), 4%Z); ((1, 2), 1%Z); ((2, 1), 1%Z)]
                  ready_puzzle_4x4 Hu Hrange Hrun Hfull)).
Defined.

(** ** The state [solve] stops in *)

Lemma NoDup_candidates (s : Sudoku) (i j : nat) : NoDup (candidates s i j).
Proof.
  unfold candidates.
  destruct (grid_get (self_grid s) i j) as [[| |]|]; try apply NoDup_nil_2.
  apply NoDup_list_difference, NoDup_entries.
Qed.

Lemma no_single_holder (s : Sudoku) (R : list cell) (v : Z) :
  wf s → consistent s → R ∈ scan_ranges s → placements_at s R = [] →
  length (filter (λ c : cell, v ∈ candidates s c.1 c.2) R) ≠ 1.
Proof.
  intros Hwf Hc HR Hnone Hlen.
  pose proof (scan_ranges_in_grid s Hwf) as Hall.
  rewrite Forall_forall in Hall. specialize (Hall R HR).
  assert (∀ c : cell, c ∈ R →
            cands (poss_of s) c = candidates s c.1 c.2) as Hcands.
  { intros [x y] Hxy. destruct (Hall _ Hxy) as [Hx Hy].
    by apply cands_consistent. }
  assert (holders (poss_of s) R v =
          filter (λ c : cell, v ∈ candidates s c.1 c.2) R) as Hh.
  { unfold holders. apply filter_ext_in. intros c Hc'.
    by rewrite (Hcands c Hc'). }
  rewrite <- Hh in Hlen.
  destruct (holders (poss_of s) R v) as [|c [|]] eqn:Hhold; try done.
  assert (c ∈ holders (poss_of s) R v) as Hin
    by (rewrite Hhold; apply list_elem_of_here).
  unfold holders in Hin. apply list_elem_of_filter in Hin as [Hv HcR].
  pose proof (placements_pairs_get (poss_of s) R c
                (scan_ranges_NoDup s R HR)) as Hget.
  unfold placements_at in Hnone. rewrite Hnone in Hget.
  rewrite decide_True in Hget by done. simpl in Hget.
  symmetry in Hget. apply last_None in Hget.
  - assert (v ∈ filter (λ v0, length (holders (poss_of s) R v0) = 1)
                  (cands (poss_of s) c)) as Hmem.
    { apply list_elem_of_filter. split; [by rewrite Hhold|done]. }
    rewrite Hget in Hmem. by apply not_elem_of_nil in Hmem.
  - intros c' Hc'. rewrite (Hcands c' Hc'). apply NoDup_candidates.
Qed.

(** X17.  The state [solve] stops in.  When [solve] returns, a scan of the
    grid finds nothing: [list(find_only())] is empty and leaves the object
    as it is, and in no row, column or region is there a value that exactly
    one cell can take. *)
Theorem solve_stalled (fuel : nat) (s s' : Sudoku) (out : list (cell * Z)) :
  ready s → solve fuel s = Some (inr out, s') →
  collect_scan s' = (inr [], s') ∧
  ∀ R v, R ∈ scan_ranges s' →
         length (filter (λ c : cell, v ∈ candidates s' c.1 c.2) R) ≠ 1.
Proof.
  intros Hready Hsolve.
  destruct (solve_spec no_check no_check_set no_check_poss s Hready eq_refl)
    as (rounds & app & s'' & Hr & _ & Hs & Hmin & Hwf' & Hc' & _ & _ & Hfix & _).
  assert (s' = s'') as <-.
  { destruct (decide (fuel < rounds)) as [Hlt|Hge].
    - destruct (Hmin fuel Hlt) as [_ Hnone]. congruence.
    - unfold solve in *.
      rewrite (solve_loop_mono _ fuel _ _ _ Hs) in Hsolve by lia. congruence. }
  pose proof (proj1 (Hfix [])) as Hround. unfold solve_round in Hround.
  rewrite find_only_ranges in Hround by apply keeps_sizes_solve_body.
  pose proof (pass_stall_inv _ s' s' [] [] Hwf' Hc'
                (scan_ranges_in_grid s' Hwf') Hround) as Hnone.
  split.
  - unfold collect_scan.
    rewrite find_only_ranges by (intros x a; apply keeps_sizes_ret).
    rewrite (collect_pass _ [] s' Hwf' Hc' (scan_ranges_in_grid s' Hwf')).
    assert (∀ Rs, (∀ R, R ∈ Rs → placements_at s' R = []) →
                  concat (map (placements_at s') Rs) = []) as Hcat.
    { induction Rs as [|R Rs IH]; intros H; [done|]. simpl.
      rewrite (H R) by (by left). simpl. apply IH.
      intros R' HR'. apply H. by right. }
    by rewrite (Hcat _ Hnone).
  - intros R v HR. by apply no_single_holder; [| |done|apply Hnone].
Qed.

Lemma solve_stalled_witness :
  ready grid_top_row ∧
  ∃ s', solve 2 grid_top_row = Some (inr [((0, 3), 4%Z)], s') ∧
        collect_scan s' = (inr [], s').
Proof.
  split; [apply ready_grid_top_row|].
  exists (match solve 2 grid_top_row with
          | Some (_, t) => t
          | None => grid_top_row
          end).
  assert (solve 2 grid_top_row =
          Some (inr [((0, 3), 4%Z)],
                match solve 2 grid_top_row with
                | Some (_, t) => t
                | None => grid_top_row
                end)) as Hrun by (vm_compute; reflexivity).
  split; [exact Hrun|].
  exact (proj1 (solve_stalled 2 grid_top_row
                  (match solve 2 grid_top_row with
                   | Some (_, t) => t
                   | None => grid_top_row
                   end)
                  [((0, 3), 4%Z)] ready_grid_top_row Hrun)).
Defined.

(** ** [__init__]: what it builds and what it refuses *)

Lemma build_fresh (kw : gmap string pyobj) (om on : option nat) (s : Sudoku) :
  build kw om on = inr s → self_poss s = None.
Proof.
  unfold build. destruct (kw !! "grid") as [obj|].
  - destruct (array obj) as [a|]; [|done].
    destruct (square_grid a) as [e|[g N]]; [done|].
    destruct om as [m|], on as [n|];
      try (destruct (guess N) as [e|[m' n']]; [done|]; by intros [= <-]).
    case_bool_decide; [done|]. by intros [= <-].
  - destruct om as [m|], on as [n|]; try done. by intros [= <-].
Qed.

(** X18.  Every object that [__init__] returns is well formed and has no
    candidate store yet: [N = m * n] with positive [m] and [n], the grid is
    an N x N array, and [poss] is not set. *)
Theorem init_well_formed (args : list pyobj) (kwargs : gmap string pyobj)
    (s : Sudoku) :
  (∀ a, PyArray a ∈ args ∨ kwargs !! "grid" = Some (PyArray a) → array_ok a) →
  init args kwargs = inr s →
  self_N s = self_m s * self_n s ∧ 0 < self_m s ∧ 0 < self_n s ∧
  shape (self_grid s) = [self_N s; self_N s] ∧
  length (data (self_grid s)) = self_N s * self_N s ∧
  self_poss s = None.
Proof.
  intros Harr Hinit.
  destruct (init_ready args kwargs s Harr Hinit) as [(HN & Hm & Hn & Hs & Hl) _].
  do 5 (split; [done|]).
  unfold init in Hinit.
  destruct (positional 0 args kwargs) as [e|kw]; [done|].
  destruct (sizes kw) as [e|[om on]]; [done|].
  by apply (build_fresh kw om on).
Qed.

Lemma init_well_formed_witness :
  (∀ a, PyArray a ∈ [PyInt 2; PyArray (zeros 4)] ∨
        (∅ : gmap string pyobj) !! "grid" = Some (PyArray a) → array_ok a) ∧
  init [PyInt 2; PyArray (zeros 4)] ∅ =
    inr (MkSudoku 4 2 2 (zeros 4) None) ∧
  self_N (MkSudoku 4 2 2 (zeros 4) None) =
    self_m (MkSudoku 4 2 2 (zeros 4) None) *
    self_n (MkSudoku 4 2 2 (zeros 4) None).
Proof.
  assert (∀ a, PyArray a ∈ [PyInt 2; PyArray (zeros 4)] ∨
               (∅ : gmap string pyobj) !! "grid" = Some (PyArray a) →
               array_ok a) as Harr.
  { intros a [Hin|Hin]; [|done].
    apply elem_of_cons in Hin as [Hin|Hin]; [done|].
    apply list_elem_of_singleton in Hin. by injection Hin as ->. }
  assert (init [PyInt 2; PyArray (zeros 4)] ∅ =
          inr (MkSudoku 4 2 2 (zeros 4) None)) as Hinit by reflexivity.
  split; [exact Harr|]. split; [exact Hinit|].
  exact (proj1 (init_well_formed _ _ _ Harr Hinit)).
Defined.

Lemma positive_int_of_nat (k : nat) :
  0 < k → positive_int (PyInt (Z.of_nat k)) = Some k.
Proof.
  intros Hk. unfold positive_int.
  assert ((0 <? Z.of_nat k)%Z = true) as -> by (apply Z.ltb_lt; lia).
  by rewrite Nat2Z.id.
Qed.

Lemma positional_two_ints (zm zn : Z) :
  positional 0 [PyInt zm; PyInt zn] ∅ =
  inr (<["n" := PyInt zn]> (<["m" := PyInt zm]> ∅)).
Proof. by vm_compute. Qed.

Lemma positional_one_int (zm : Z) :
  positional 0 [PyInt zm] ∅ = inr (<["m" := PyInt zm]> ∅).
Proof. by vm_compute. Qed.

(** X19.  The sizes by position and by keyword.  For positive [m] and [n],
    [Sudoku(m, n)] and [Sudoku(m=m, n=n)] build the same object: sizes [m],
    [n], [N = m * n] and an all-zero N x N grid; [n] defaults to [m], so
    [Sudoku(m)] is [Sudoku(m, m)].  An integer that is not positive is
    refused with the error naming the parameter. *)
Theorem init_by_sizes (m n : nat) :
  0 < m → 0 < n →
  init [PyInt (Z.of_nat m); PyInt (Z.of_nat n)] ∅ =
    inr (MkSudoku (m * n) m n (zeros (m * n)) None) ∧
  init [] {[ "m" := PyInt (Z.of_nat m); "n" := PyInt (Z.of_nat n) ]} =
    inr (MkSudoku (m * n) m n (zeros (m * n)) None) ∧
  init [PyInt (Z.of_nat m)] ∅ =
    inr (MkSudoku (m * m) m m (zeros (m * m)) None) ∧
  (∀ z, (z ≤ 0)%Z →
     init [PyInt z] ∅ = inl (ValueError (NotPositiveInteger "m")) ∧
     init [PyInt (Z.of_nat m); PyInt z] ∅ =
       inl (ValueError (NotPositiveInteger "n"))).
Proof.
  intros Hm Hn.
  pose proof (positive_int_of_nat m Hm) as Pm.
  pose proof (positive_int_of_nat n Hn) as Pn.
  assert (∀ z, (z ≤ 0)%Z → positive_int (PyInt z) = None) as Pz.
  { intros z Hz. unfold positive_int.
    by assert ((0 <? z)%Z = false) as -> by (apply Z.ltb_ge; lia). }
  revert Pm Pn. generalize (Z.of_nat m) (Z.of_nat n). intros zm zn Pm Pn.
  split; [|split; [|split]].
  - unfold init. rewrite positional_two_ints. unfold sizes, build.
    simpl_map. by rewrite Pm, Pn.
  - unfold init. cbn [positional]. unfold sizes, build.
    simpl_map. by rewrite Pm, Pn.
  - unfold init. rewrite positional_one_int. unfold sizes, build.
    simpl_map. by rewrite Pm.
  - intros z Hz. split.
    + unfold init. rewrite positional_one_int. unfold sizes, build.
      simpl_map. by rewrite (Pz z Hz).
    + unfold init. rewrite positional_two_ints. unfold sizes, build.
      simpl_map. by rewrite Pm, (Pz z Hz).
Qed.

Lemma init_by_sizes_witness :
  0 < 2 ∧ 0 < 3 ∧
  init [PyInt 2; PyInt 3] ∅ = inr (MkSudoku 6 2 3 (zeros 6) None).
Proof.
  assert (0 < 2) as H2 by lia. assert (0 < 3) as H3 by lia.
  split; [exact H2|]. split; [exact H3|].
  exact (proj1 (init_by_sizes 2 3 H2 H3)).
Defined.

(** X20.  The positional arguments [__init__] refuses, whatever follows
    them: an integer first when [m] is also given by keyword; a third
    integer; a second argument that is not an integer; and an argument that
    is not an integer when [grid] is also given by keyword. *)
Theorem init_argument_errors :
  (∀ z rest kwargs, is_Some (kwargs !! "m") →
     init (PyInt z :: rest) kwargs = inl (ValueError MSpecifiedTwice)) ∧
  (∀ a b c rest,
     init (PyInt a :: PyInt b :: PyInt c :: rest) ∅ =
       inl (ValueError TooManyIntegers)) ∧
  (∀ x y rest kwargs, (∀ z, x ≠ PyInt z) → (∀ z, y ≠ PyInt z) →
     init (x :: y :: rest) kwargs = inl (ValueError UnrecognizedPositional)) ∧
  (∀ x rest kwargs, (∀ z, x ≠ PyInt z) → is_Some (kwargs !! "grid") →
     init (x :: rest) kwargs = inl (ValueError UnrecognizedPositional)).
Proof.
  assert (∀ x rest kwargs i, (∀ z, x ≠ PyInt z) → is_Some (kwargs !! "grid") →
            positional i (x :: rest) kwargs =
              inl (ValueError UnrecognizedPositional)) as Hgrid.
  { intros x rest kwargs i Hx [v Hv]. cbn [positional].
    destruct x as [z| |]; [by destruct (Hx z)| |];
      by rewrite bool_decide_eq_false_2 by (by rewrite Hv). }
  split; [|split; [|split]].
  - intros z rest kwargs [v Hv]. unfold init. cbn [positional].
    rewrite bool_decide_eq_false_2 by (by rewrite Hv).
    by rewrite bool_decide_eq_true_2.
  - intros a b c rest. by vm_compute.
  - intros x y rest kwargs Hx Hy. unfold init.
    destruct (decide (kwargs !! "grid" = None)) as [Hnone|Hsome].
    + assert (positional 0 (x :: y :: rest) kwargs =
              positional 1 (y :: rest) (<["grid" := x]> kwargs)) as ->.
      { cbn [positional].
        destruct x as [z| |]; [by destruct (Hx z)| |];
          by rewrite (bool_decide_eq_true_2 _ Hnone). }
      rewrite Hgrid; [done|done|]. rewrite lookup_insert_eq. eauto.
    + rewrite Hgrid; [done|done|]. by destruct (kwargs !! "grid"); eauto.
  - intros x rest kwargs Hx Hg. unfold init. by rewrite Hgrid.
Qed.

Lemma positional_keeps (args : list pyobj) (i : nat)
    (kwargs kwargs' : gmap string pyobj) :
  Forall (λ a, ∀ z, a ≠ PyInt z) args →
  positional i args kwargs = inr kwargs' →
  kwargs' !! "m" = kwargs !! "m" ∧ kwargs' !! "n" = kwargs !! "n".
Proof.
  revert i kwargs. induction args as [|a args IH]; intros i kwargs Hargs Hpos.
  { by injection Hpos as <-. }
  inversion Hargs as [|? ? Ha Hargs']; subst. cbn [positional] in Hpos.
  destruct a as [z| |]; [by destruct (Ha z)| |];
    (case_bool_decide; [|done]);
    apply IH in Hpos as [H1 H2]; try done;
    by rewrite lookup_insert_ne in H1, H2.
Qed.

Lemma positional_delete_n (args : list pyobj) (i : nat)
    (kwargs : gmap string pyobj) :
  Forall (λ a, ∀ z, a ≠ PyInt z) args →
  positional i args (delete "n" kwargs) =
  match positional i args kwargs with
  | inl e => inl e
  | inr kwargs' => inr (delete "n" kwargs')
  end.
Proof.
  revert i kwargs. induction args as [|a args IH]; intros i kwargs Hargs;
    [done|].
  inversion Hargs as [|? ? Ha Hargs']; subst. cbn [positional].
  destruct a as [z| |]; [by destruct (Ha z)| |];
    rewrite lookup_delete_ne by done;
    (case_bool_decide; [|done]);
    rewrite <- delete_insert_ne by done; by apply IH.
Qed.

(** X21.  A keyword [n] without [m] does not set the block shape.  When no
    integer is passed by position and no [m] by keyword, a positive integer
    [n] given by keyword is checked and then ignored: the result, object or
    error, is the one obtained without it. *)
Theorem init_n_without_m (args : list pyobj) (kwargs : gmap string pyobj)
    (v : pyobj) (k : nat) :
  Forall (λ a, ∀ z, a ≠ PyInt z) args → kwargs !! "m" = None →
  kwargs !! "n" = Some v → positive_int v = Some k →
  init args kwargs = init args (delete "n" kwargs).
Proof.
  intros Hargs Hm Hn Hv. unfold init.
  rewrite (positional_delete_n args 0 kwargs Hargs).
  destruct (positional 0 args kwargs) as [e|kw] eqn:Hpos; [done|].
  destruct (positional_keeps args 0 kwargs kw Hargs Hpos) as [Hm' Hn'].
  rewrite Hm in Hm'. rewrite Hn in Hn'.
  unfold sizes. rewrite lookup_delete_ne by done.
  rewrite lookup_delete_eq, Hm', Hn', Hv.
  unfold build. by rewrite lookup_delete_ne by done.
Qed.

Lemma init_n_without_m_witness :
  Forall (λ a, ∀ z, a ≠ PyInt z) [PyArray (zeros 6)] ∧
  ({[ "n" := PyInt 3 ]} : gmap string pyobj) !! "m" = None ∧
  ({[ "n" := PyInt 3 ]} : gmap string pyobj) !! "n" = Some (PyInt 3) ∧
  positive_int (PyInt 3) = Some 3 ∧
  init [PyArray (zeros 6)] {[ "n" := PyInt 3 ]} =
    init [PyArray (zeros 6)] (delete "n" {[ "n" := PyInt 3 ]}) ∧
  init [PyArray (zeros 6)] {[ "n" := PyInt 3 ]} =
    inr (MkSudoku 6 3 2 (zeros 6) None).
Proof.
  assert (Forall (λ a, ∀ z, a ≠ PyInt z) [PyArray (zeros 6)]) as Hargs
    by (by repeat constructor).
  assert (({[ "n" := PyInt 3 ]} : gmap string pyobj) !! "m" = None) as Hm
    by reflexivity.
  assert (({[ "n" := PyInt 3 ]} : gmap string pyobj) !! "n" = Some (PyInt 3))
    as Hn by reflexivity.
  assert (positive_int (PyInt 3) = Some 3) as Hv by reflexivity.
  split; [exact Hargs|]. split; [exact Hm|]. split; [exact Hn|].
  split; [exact Hv|]. split; [|by vm_compute].
  exact (init_n_without_m [PyArray (zeros 6)] {[ "n" := PyInt 3 ]}
           (PyInt 3) 3 Hargs Hm Hn Hv).
Defined.

(** X22.  The block height that [__init__] guesses is, as the docstring
    says, the least divisor of [N] that is at least the square root of [N]:
    when the guess for a grid of side [N] is [(m, n)], [m] divides [N],
    [m * m >= N], [n <= m], and every divisor [d] of [N] with [d * d >= N]
    is at least [m]. *)
Theorem guess_least_divisor (N m n : nat) :
  guess N = inr (m, n) →
  N mod m = 0 ∧ N ≤ m * m ∧ n ≤ m ∧
  ∀ d, N mod d = 0 → N ≤ d * d → m ≤ d.
Proof.
  intros Hguess. pose proof (guess_spec N) as Hspec. rewrite Hguess in Hspec.
  destruct Hspec as (Hn1 & Hnsqrt & Hdiv & Hm & Hmn & Hmax).
  assert (n * n ≤ N) as Hnn.
  { pose proof (Nat.sqrt_spec N ltac:(lia)). nia. }
  assert (0 < N) as HN by nia.
  assert (n ≤ m) as Hle by nia.
  split; [rewrite <- Hmn, Nat.mul_comm; apply Nat.Div0.mod_mul|].
  split; [nia|]. split; [done|].
  intros d Hd Hdd.
  assert (0 < d) as Hd0.
  { destruct d; [|lia]. simpl in Hd. lia. }
  pose proof (Nat.div_mod_eq N d) as Heq. rewrite Hd in Heq.
  assert (N / d ≤ n) as He.
  { apply Hmax.
    - apply Nat.sqrt_le_square. nia.
    - assert (N = d * (N / d)) as HNd by lia.
      rewrite HNd at 1. apply Nat.Div0.mod_mul. }
  nia.
Qed.

Lemma guess_least_divisor_witness :
  guess 6 = inr (3, 2) ∧
  6 mod 3 = 0 ∧ 6 ≤ 3 * 3 ∧ 2 ≤ 3 ∧
  ∀ d, 6 mod d = 0 → 6 ≤ d * d → 3 ≤ d.
Proof.
  assert (guess 6 = inr (3, 2)) as Hguess by reflexivity.
  split; [exact Hguess|].
  exact (guess_least_divisor 6 3 2 Hguess).
Defined.

Lemma round_sqrt_square (N : nat) : round_sqrt (N * N) = N.
Proof.
  unfold round_sqrt. rewrite Nat.sqrt_square.
  assert ((N * N + N <? N * N) = false) as -> by (apply Nat.ltb_ge; lia).
  done.
Qed.

Lemma positional_grid_swap (rest : list pyobj) (i : nat)
    (kwargs : gmap string pyobj) (a b : pyobj) :
  positional i rest (<["grid" := a]> kwargs) =
  match positional i rest (<["grid" := b]> kwargs) with
  | inl e => inl e
  | inr kwargs' => inr (<["grid" := a]> kwargs')
  end.
Proof.
  revert i kwargs. induction rest as [|x rest IH]; intros i kwargs.
  { cbn [positional]. by rewrite insert_insert_eq. }
  cbn [positional]. rewrite !lookup_insert_eq.
  rewrite !lookup_insert_ne by done.
  destruct x as [z| |]; [|by rewrite !bool_decide_eq_false_2 by done..].
  case_bool_decide.
  { rewrite !(insert_insert_ne _ "m" "grid") by done. apply IH. }
  case_bool_decide; [done|]. case_bool_decide; [|done].
  rewrite !(insert_insert_ne _ "n" "grid") by done. apply IH.
Qed.

Lemma positional_grid_kept (rest : list pyobj) (i : nat)
    (kwargs kwargs' : gmap string pyobj) (g : pyobj) :
  kwargs !! "grid" = Some g → positional i rest kwargs = inr kwargs' →
  kwargs' !! "grid" = Some g.
Proof.
  revert i kwargs. induction rest as [|x rest IH]; intros i kwargs Hg Hpos.
  { by injection Hpos as <-. }
  cbn [positional] in Hpos.
  destruct x as [z| |];
    [|by rewrite bool_decide_eq_false_2 in Hpos by (by rewrite Hg)..].
  case_bool_decide.
  { apply IH in Hpos; [done|]. by rewrite lookup_insert_ne. }
  case_bool_decide; [done|]. case_bool_decide; [|done].
  apply IH in Hpos; [done|]. by rewrite lookup_insert_ne.
Qed.

(** X23.  A flat grid is reshaped: a 1-dimensional array of [N * N]
    entries passed as the grid is treated exactly as the N x N array with
    the same entries, row after row; the result of [__init__], object or
    error, is the same. *)
Theorem init_flat_grid (N : nat) (entriesNN : list Z)
    (rest : list pyobj) (kwargs : gmap string pyobj) :
  kwargs !! "grid" = None →
  init (PyArray (NdArray [N * N] entriesNN) :: rest) kwargs =
  init (PyArray (NdArray [N; N] entriesNN) :: rest) kwargs.
Proof.
  intros Hg. unfold init. cbn [positional].
  rewrite (bool_decide_eq_true_2 _ Hg).
  rewrite (positional_grid_swap rest 1 kwargs
             (PyArray (NdArray [N * N] entriesNN))
             (PyArray (NdArray [N; N] entriesNN))).
  destruct (positional 1 rest
              (<["grid" := PyArray (NdArray [N; N] entriesNN)]> kwargs))
    as [e|kw] eqn:Hpos; [done|].
  assert (kw !! "grid" = Some (PyArray (NdArray [N; N] entriesNN))) as Hk.
  { apply (positional_grid_kept rest 1 _ kw _ (lookup_insert_eq _ _ _) Hpos). }
  assert (sizes (<["grid" := PyArray (NdArray [N * N] entriesNN)]> kw) =
          sizes kw) as ->.
  { unfold sizes. by rewrite !lookup_insert_ne by done. }
  destruct (sizes kw) as [e|[om on]]; [done|].
  unfold build. rewrite lookup_insert_eq, Hk. simpl.
  unfold square_grid. simpl. rewrite round_sqrt_square.
  by rewrite !bool_decide_eq_false_2 by (intros H; by apply H).
Qed.

Lemma init_flat_grid_witness :
  (∅ : gmap string pyobj) !! "grid" = None ∧
  init [PyArray (NdArray [2 * 2] [1; 2; 3; 4]%Z); PyInt 2; PyInt 1] ∅ =
  init [PyArray (NdArray [2; 2] [1; 2; 3; 4]%Z); PyInt 2; PyInt 1] ∅.
Proof.
  assert ((∅ : gmap string pyobj) !! "grid" = None) as Hg by reflexivity.
  split; [exact Hg|].
  exact (init_flat_grid 2 [1; 2; 3; 4]%Z [PyInt 2; PyInt 1] ∅ Hg).
Defined.
